(** * sql-parser-go: the recursive-descent parser of [pkg/parser/parser.go]

    A shallow embedding of the parser: the [Parser] struct becomes a record
    that is passed explicitly, every method becomes a function on it, and the
    recursion of the expression grammar and the [for] loops are bounded by a
    fuel counter, so that a run that never returns is visible as [Diverged]
    for every amount of fuel. *)

From Stdlib Require Import ZArith List String Ascii Bool Lia PeanoNat.
From Stdlib Require Import PrimFloat DecimalString.
Import ListNotations.

Local Open Scope string_scope.
Local Open Scope list_scope.

Set Warnings "-register-all".

(* ================================================================== *)
(** ** Tokens (package [lexer], seen through the names parser.go uses) *)
(* ================================================================== *)

(** Modelled from the spec: package [lexer] is not part of the sources at
    hand.  The constructors are the token kinds parser.go names; [ILLEGAL]
    is the zero value of the type and [OTHER] stands for every kind of the
    lexer that the parser never tests for. *)
Inductive TokenType : Type :=
| ILLEGAL | EOF | IDENT | NUMBER | STRING
| ASSIGN | EQ | NOT_EQ | LT | GT | LTE | GTE
| PLUS | MINUS | ASTERISK | SLASH
| COMMA | SEMICOLON | DOT | LPAREN | RPAREN
| SELECT | INSERT | UPDATE | DELETE | CREATE | DROP | ALTER
| DISTINCT | TOP | FROM | WHERE | JOIN | INNER | LEFT | RIGHT | FULL | ON
| GROUP | BY | HAVING | ORDER | AS | AND | OR | LIKE | IN
| OTHER (name : string).

Definition TokenType_eq_dec (a b : TokenType) : {a = b} + {a <> b}.
Proof. decide equality. apply string_dec. Defined.

Definition TokenType_eqb (a b : TokenType) : bool :=
  if TokenType_eq_dec a b then true else false.

Record Token : Type := mkToken {
  Type_ : TokenType;
  Literal : string;
  Line : Z;
  Column : Z
}.

(** The zero value [lexer.Token{}], which [curToken] and [peekToken] hold
    before the first advance. *)
Definition zeroToken : Token := mkToken ILLEGAL "" 0 0.

(** Modelled from the spec: the tokenizer is a forward scan that hands out
    one token per call and "returns EOF repeatedly" past the end of input.
    The tokens of the input text are [pending]; the position reported with
    the end-of-input token is kept alongside. *)
Record Lexer : Type := mkLexer {
  pending : list Token;
  eofLine : Z;
  eofColumn : Z
}.

Definition NextToken (l : Lexer) : Token * Lexer :=
  match pending l with
  | [] => (mkToken EOF "" (eofLine l) (eofColumn l), l)
  | t :: rest => (t, mkLexer rest (eofLine l) (eofColumn l))
  end.

(* ================================================================== *)
(** ** AST nodes built by the parser                                    *)
(* ================================================================== *)

(** [Literal.Value] is an [interface{}] holding an [int64], a [float64] or
    a [string]. *)
Inductive LiteralValue : Type :=
| VInt (n : Z)
| VFloat (f : float)
| VString (s : string).

Inductive Expression : Type :=
| ColumnReference (Table Column : string)
| LiteralExpr (Value : LiteralValue)
| BinaryExpression (Left_ : Expression) (Operator : string) (Right_ : Expression)
| StarExpression (Table : string)
| FunctionCall (Name : string) (Arguments : list Expression).

Record TopClause : Type := mkTopClause {
  Count : Z;
  Percent : bool
}.

Record TableReference : Type := mkTableReference {
  Schema : string;
  Name : string;
  Alias : string
}.

Record FromClause : Type := mkFromClause {
  Tables : list TableReference
}.

Record JoinClause : Type := mkJoinClause {
  JoinType : string;
  Table : TableReference;
  Condition : option Expression
}.

Record OrderByClause : Type := mkOrderByClause {
  OrderExpression : Expression;
  Direction : string
}.

Record SelectStatement : Type := mkSelectStatement {
  Distinct : bool;
  Top : option TopClause;
  Columns : list Expression;
  From : option FromClause;
  Joins : list JoinClause;
  Where : option Expression;
  GroupBy : list Expression;
  Having : option Expression;
  OrderBy : list OrderByClause
}.

(** The nodes a [Statement] interface can hold.  Only a SELECT is ever
    built: the parsers of the three other statements return no node. *)
Inductive Statement : Type :=
| StmtSelect (s : SelectStatement).

(** The four pointer types that implement [Statement]. *)
Inductive StatementPointer : Type :=
| SelectPointer | InsertPointer | UpdatePointer | DeletePointer.

(** A value of the interface type [Statement], as the caller of
    [ParseStatement] receives it: the nil interface, an interface that
    holds a nil pointer of one of the four types, or an interface that
    holds a node.  In Go an interface that holds a nil pointer is not
    equal to nil. *)
Inductive StatementInterface : Type :=
| NilInterface
| NilPointer (t : StatementPointer)
| Node (s : Statement).

(** [stmt == nil] *)
Definition isNil (v : StatementInterface) : bool :=
  match v with
  | NilInterface => true
  | _ => false
  end.

(* ================================================================== *)
(** ** Object pools                                                     *)
(* ================================================================== *)

Inductive NodeKind : Type :=
| KSelectStatement | KJoinClause | KBinaryExpression | KColumnReference.

Definition NodeKind_eq_dec (a b : NodeKind) : {a = b} + {a <> b}.
Proof. decide equality. Defined.

(** Modelled from the spec: the pool functions ([GetSelectStatement],
    [PutJoinClause], ...) live in a file that is not part of the sources at
    hand.  A [Get] hands out a zero-valued node of its shape and a [Put]
    takes one back; the package-level pools are represented by the trace of
    these calls. *)
Inductive PoolEvent : Type :=
| Get (k : NodeKind)
| Put (k : NodeKind).

Definition PoolEvent_eq_dec (a b : PoolEvent) : {a = b} + {a <> b}.
Proof. decide equality; apply NodeKind_eq_dec. Defined.

(** Nodes of kind [k] that were obtained and not (yet) given back. *)
Definition outstanding (k : NodeKind) (tr : list PoolEvent) : Z :=
  Z.of_nat (count_occ PoolEvent_eq_dec tr (Get k))
  - Z.of_nat (count_occ PoolEvent_eq_dec tr (Put k)).

(* ================================================================== *)
(** ** Cancellation                                                     *)
(* ================================================================== *)

(** [ctx.Done()] is polled by [nextToken] only, and a closed channel stays
    closed.  What a parse can observe of a context is therefore how many
    polls still find it open: none at all for [context.Background()]. *)
Inductive Context : Type :=
| Background
| DoneAfter (polls : nat).

Definition isDone (c : Context) : bool :=
  match c with
  | DoneAfter O => true
  | _ => false
  end.

Definition polled (c : Context) : Context :=
  match c with
  | DoneAfter (S n) => DoneAfter n
  | other => other
  end.

(* ================================================================== *)
(** ** What parser.go takes from outside                                *)
(* ================================================================== *)

(** Functions of the Go standard library, and two of this package that are
    declared outside parser.go, are taken as parameters: a conversion
    returns [None] where the Go function returns an error. *)
Record External : Type := mkExternal {
  Atoi : string -> option Z;              (* strconv.Atoi *)
  ParseInt : string -> option Z;          (* strconv.ParseInt(s, 0, 64) *)
  ParseFloat : string -> option float;    (* strconv.ParseFloat(s, 64) *)
  ToUpper : string -> string;             (* strings.ToUpper *)
  Quote : string -> string;               (* the verb %q of fmt *)
  TokenTypeString : TokenType -> string;  (* lexer.TokenType.String *)
  SyntaxErrorText : string -> string -> Z -> Z -> string
                                          (* NewSyntaxError(...).Error() *)
}.

(** [strings.Contains(s, ".")]. *)
Fixpoint containsDot (s : string) : bool :=
  match s with
  | EmptyString => false
  | String c rest => if Ascii.eqb c "."%char then true else containsDot rest
  end.

(* ================================================================== *)
(** ** The parser state                                                 *)
(* ================================================================== *)

Definition maxInt : Z := 9223372036854775807.

(** [n++] on a Go [int]. *)
Definition incr (n : Z) : Z :=
  if Z.eqb n maxInt then (- maxInt - 1)%Z else (n + 1)%Z.

(** The struct [Parser], without [parseStartTime] (wall-clock time, read by
    the metrics only), and with the trace of the package-level pools. *)
Record Parser : Type := mkParser {
  l : Lexer;
  curToken : Token;
  peekToken : Token;
  errors : list string;
  tokenCount : Z;
  ctx : Context;
  pools : list PoolEvent
}.

Definition cancelled : string := "parsing cancelled due to timeout".

Definition addError (p : Parser) (msg : string) : Parser :=
  mkParser (l p) (curToken p) (peekToken p) (errors p ++ [msg])
           (tokenCount p) (ctx p) (pools p).

Definition pool (ev : PoolEvent) (p : Parser) : Parser :=
  mkParser (l p) (curToken p) (peekToken p) (errors p)
           (tokenCount p) (ctx p) (pools p ++ [ev]).

Definition nextToken (p : Parser) : Parser :=
  if isDone (ctx p) then addError p cancelled
  else
    let (tok, l') := NextToken (l p) in
    mkParser l' (peekToken p) tok (errors p)
             (incr (tokenCount p)) (polled (ctx p)) (pools p).

Definition NewWithContext (c : Context) (input : Lexer) : Parser :=
  nextToken (nextToken (mkParser input zeroToken zeroToken [] 0 c [])).

Definition New (input : Lexer) : Parser := NewWithContext Background input.

Definition Errors (p : Parser) : list string := errors p.

Definition curTokenIs (p : Parser) (t : TokenType) : bool :=
  TokenType_eqb (Type_ (curToken p)) t.

Definition peekTokenIs (p : Parser) (t : TokenType) : bool :=
  TokenType_eqb (Type_ (peekToken p)) t.

(* ================================================================== *)
(** ** Results of a parsing method                                      *)
(* ================================================================== *)

(** A method returning [(T, error)] either returns a value with a nil
    error, or a nil value with an error; the parser it leaves behind is
    kept in both cases.  [Diverged] is a run that used up its fuel. *)
Inductive Outcome (A : Type) : Type :=
| Diverged
| Failed (err : string) (p : Parser)
| Returned (a : A) (p : Parser).

Arguments Diverged {A}.
Arguments Failed {A} err p.
Arguments Returned {A} a p.

Definition bind {A B : Type} (m : Outcome A) (k : A -> Parser -> Outcome B)
  : Outcome B :=
  match m with
  | Diverged => Diverged
  | Failed e p => Failed e p
  | Returned a p => k a p
  end.

Notation "'do' ( x , p ) <- m ; k" :=
  (bind m (fun x p => k))
  (at level 10, x name, p name, m at level 100, k at level 200).

Definition isInfixOperator (tokenType : TokenType) : bool :=
  match tokenType with
  | ASSIGN | EQ | NOT_EQ | LT | GT | LTE | GTE
  | AND | OR | PLUS | MINUS | ASTERISK | SLASH
  | LIKE | IN => true
  | _ => false
  end.

(* ================================================================== *)
(** ** Expressions                                                      *)
(* ================================================================== *)

Section Expressions.

Variable ext : External.

Definition peekError (p : Parser) (t : TokenType) : Parser :=
  addError p (SyntaxErrorText ext
                (TokenTypeString ext t)
                (TokenTypeString ext (Type_ (peekToken p)))
                (Line (peekToken p))
                (Column (peekToken p))).

Definition expectPeek (p : Parser) (t : TokenType) : bool * Parser :=
  if peekTokenIs p t then (true, nextToken p)
  else (false, peekError p t).

Definition parseNumberLiteral (p : Parser) : Outcome Expression :=
  if containsDot (Literal (curToken p)) then
    match ParseFloat ext (Literal (curToken p)) with
    | None =>
        Failed ("could not parse " ++ Quote ext (Literal (curToken p))
                ++ " as float") p
    | Some value => Returned (LiteralExpr (VFloat value)) (nextToken p)
    end
  else
    match ParseInt ext (Literal (curToken p)) with
    | None =>
        Failed ("could not parse " ++ Quote ext (Literal (curToken p))
                ++ " as integer") p
    | Some value => Returned (LiteralExpr (VInt value)) (nextToken p)
    end.

Definition parseStringLiteral (p : Parser) : Outcome Expression :=
  Returned (LiteralExpr (VString (Literal (curToken p)))) (nextToken p).

(** The methods below call [parseExpression], which calls them: the
    recursive call is a parameter here and the knot is tied on the fuel
    in [parseExpression] further down.  [fuel] bounds the number of
    iterations of each loop. *)
Variable parseExpression_rec : Parser -> Outcome Expression.
Variable fuel : nat.

(** The loop [for p.curTokenIs(lexer.COMMA)] of [parseFunctionCall]. *)
Fixpoint parseFunctionCall_loop (n : nat) (arguments : list Expression)
         (p : Parser) : Outcome (list Expression) :=
  if curTokenIs p COMMA then
    match n with
    | O => Diverged
    | S n' =>
        let p := nextToken p in
        do (arg, p) <- parseExpression_rec p;
        parseFunctionCall_loop n' (arguments ++ [arg]) p
    end
  else Returned arguments p.

Definition parseFunctionCall (name : string) (p : Parser)
  : Outcome Expression :=
  if negb (curTokenIs p LPAREN) then
    Failed ("expected '(' for function call, got " ++ Literal (curToken p)) p
  else
    let p := nextToken p in
    do (arguments, p) <-
       (if negb (curTokenIs p RPAREN) then
          do (arg, p) <- parseExpression_rec p;
          parseFunctionCall_loop fuel [arg] p
        else Returned [] p);
    if negb (curTokenIs p RPAREN) then
      Failed ("expected ')' to close function call, got "
              ++ Literal (curToken p)) p
    else
      let p := nextToken p in (* consume the closing paren *)
      Returned (FunctionCall name arguments) p.

Definition parseIdentifierExpression (p : Parser) : Outcome Expression :=
  let firstIdent := Literal (curToken p) in
  let p := nextToken p in
  (* a qualified column (table.column) *)
  if curTokenIs p DOT then
    let p := nextToken p in
    if negb (curTokenIs p IDENT) && negb (curTokenIs p ASTERISK) then
      Failed ("expected column name after dot, got "
              ++ Literal (curToken p)) p
    else if curTokenIs p ASTERISK then
      Returned (StarExpression firstIdent) (nextToken p)
    else
      let p := pool (Get KColumnReference) p in
      Returned (ColumnReference firstIdent (Literal (curToken p)))
               (nextToken p)
  (* a function call *)
  else if curTokenIs p LPAREN then
    parseFunctionCall firstIdent p
  (* a simple column reference *)
  else
    let p := pool (Get KColumnReference) p in
    Returned (ColumnReference "" firstIdent) p.

Definition parseGroupedExpression (p : Parser) : Outcome Expression :=
  let p := nextToken p in
  do (exp, p) <- parseExpression_rec p;
  let (ok, p) := expectPeek p RPAREN in
  if negb ok then
    Failed "expected ')' to close grouped expression" p
  else Returned exp p.

Definition parsePrimaryExpression (p : Parser) : Outcome Expression :=
  match Type_ (curToken p) with
  | IDENT => parseIdentifierExpression p
  | NUMBER => parseNumberLiteral p
  | STRING => parseStringLiteral p
  | ASTERISK => Returned (StarExpression "") (nextToken p)
  | LPAREN => parseGroupedExpression p
  | _ =>
      Failed ("unexpected token in expression: " ++ Literal (curToken p)) p
  end.

(** The loop [for p.isInfixOperator(p.curToken.Type)] of
    [parseInfixExpression]. *)
Fixpoint parseInfixExpression_loop (n : nat) (left : Expression)
         (p : Parser) : Outcome Expression :=
  if isInfixOperator (Type_ (curToken p)) then
    match n with
    | O => Diverged
    | S n' =>
        let operator := Literal (curToken p) in
        let p := nextToken p in
        do (right, p) <- parsePrimaryExpression p;
        let p := pool (Get KBinaryExpression) p in
        parseInfixExpression_loop n'
          (BinaryExpression left operator right) p
    end
  else Returned left p.

Definition parseInfixExpression (p : Parser) : Outcome Expression :=
  do (left, p) <- parsePrimaryExpression p;
  parseInfixExpression_loop fuel left p.

End Expressions.

(** [parseExpression] is [parseInfixExpression]; one unit of fuel is spent
    on each nesting of an expression inside a primary, and each loop may
    run [fuel] times. *)
Fixpoint parseExpression (ext : External) (fuel : nat) (p : Parser)
  : Outcome Expression :=
  match fuel with
  | O => Diverged
  | S fuel' => parseInfixExpression ext (parseExpression ext fuel') fuel p
  end.

(* ================================================================== *)
(** ** Clauses and statements                                           *)
(* ================================================================== *)

Section Statements.

Variable ext : External.
Variable fuel : nat.

Definition parseTopClause (p : Parser) : Outcome TopClause :=
  if negb (curTokenIs p TOP) then
    Failed ("expected TOP, got " ++ Literal (curToken p)) p
  else
    let p := nextToken p in
    if negb (curTokenIs p NUMBER) then
      Failed ("expected number after TOP, got " ++ Literal (curToken p)) p
    else
      match Atoi ext (Literal (curToken p)) with
      | None =>
          Failed ("invalid number in TOP clause: " ++ Literal (curToken p)) p
      | Some count =>
          let p := nextToken p in
          (* PERCENT *)
          if curTokenIs p IDENT
             && String.eqb (ToUpper ext (Literal (curToken p))) "PERCENT"
          then Returned (mkTopClause count true) (nextToken p)
          else Returned (mkTopClause count false) p
      end.

(** The loop [for p.curTokenIs(lexer.COMMA)] of [parseSelectList]. *)
Fixpoint parseSelectList_loop (n : nat) (columns : list Expression)
         (p : Parser) : Outcome (list Expression) :=
  if curTokenIs p COMMA then
    match n with
    | O => Diverged
    | S n' =>
        let p := nextToken p in
        if curTokenIs p ASTERISK then
          parseSelectList_loop n' (columns ++ [StarExpression ""])
                               (nextToken p)
        else
          do (expr, p) <- parseExpression ext fuel p;
          parseSelectList_loop n' (columns ++ [expr]) p
    end
  else Returned columns p.

Definition parseSelectList (p : Parser) : Outcome (list Expression) :=
  (* SELECT * *)
  if curTokenIs p ASTERISK then
    Returned [StarExpression ""] (nextToken p)
  else
    do (expr, p) <- parseExpression ext fuel p;
    parseSelectList_loop fuel [expr] p.

Definition parseTableReference (p : Parser) : Outcome TableReference :=
  if negb (curTokenIs p IDENT) then
    Failed ("expected table name, got " ++ Literal (curToken p)) p
  else
    (* the first identifier is a schema or a table name *)
    let firstIdent := Literal (curToken p) in
    let p := nextToken p in
    do (schema_name, p) <-
       (if curTokenIs p DOT then
          let p := nextToken p in
          if negb (curTokenIs p IDENT) then
            Failed ("expected table name after dot, got "
                    ++ Literal (curToken p)) p
          else Returned (firstIdent, Literal (curToken p)) (nextToken p)
        else Returned ("", firstIdent) p);
    (* alias *)
    if curTokenIs p AS then
      let p := nextToken p in
      if negb (curTokenIs p IDENT) then
        Failed ("expected alias after AS, got " ++ Literal (curToken p)) p
      else
        Returned (mkTableReference (fst schema_name) (snd schema_name)
                                   (Literal (curToken p)))
                 (nextToken p)
    else if curTokenIs p IDENT then
      (* implicit alias (no AS keyword) *)
      Returned (mkTableReference (fst schema_name) (snd schema_name)
                                 (Literal (curToken p)))
               (nextToken p)
    else
      Returned (mkTableReference (fst schema_name) (snd schema_name) "") p.

(** The loop [for p.curTokenIs(lexer.COMMA)] of [parseFromClause]. *)
Fixpoint parseFromClause_loop (n : nat) (tables : list TableReference)
         (p : Parser) : Outcome (list TableReference) :=
  if curTokenIs p COMMA then
    match n with
    | O => Diverged
    | S n' =>
        let p := nextToken p in
        do (table, p) <- parseTableReference p;
        parseFromClause_loop n' (tables ++ [table]) p
    end
  else Returned tables p.

Definition parseFromClause (p : Parser) : Outcome FromClause :=
  if negb (curTokenIs p FROM) then
    Failed ("expected FROM, got " ++ Literal (curToken p)) p
  else
    let p := nextToken p in
    do (table, p) <- parseTableReference p;
    do (tables, p) <- parseFromClause_loop fuel [table] p;
    Returned (mkFromClause tables) p.

(** One of the four branches [INNER], [LEFT], [RIGHT], [FULL] of
    [parseJoinClause]: they differ in the keyword only. *)
Definition parseJoinClause_typed (keyword : string) (p : Parser)
  : Outcome string :=
  let p := nextToken p in
  let (ok, p) := expectPeek ext p JOIN in
  if negb ok then
    let p := pool (Put KJoinClause) p in (* return to pool on error *)
    Failed ("expected JOIN after " ++ keyword) p
  else Returned keyword p.

Definition parseJoinClause (p : Parser) : Outcome JoinClause :=
  let p := pool (Get KJoinClause) p in
  (* join type *)
  do (joinType, p) <-
     (if curTokenIs p INNER then parseJoinClause_typed "INNER" p
      else if curTokenIs p LEFT then parseJoinClause_typed "LEFT" p
      else if curTokenIs p RIGHT then parseJoinClause_typed "RIGHT" p
      else if curTokenIs p FULL then parseJoinClause_typed "FULL" p
      else if curTokenIs p JOIN then
        Returned "INNER" (nextToken p) (* default to INNER JOIN *)
      else Returned "" p);
  (* table reference *)
  match parseTableReference p with
  | Diverged => Diverged
  | Failed err p => Failed err (pool (Put KJoinClause) p)
  | Returned table p =>
      (* ON condition *)
      if negb (curTokenIs p ON) then
        let p := pool (Put KJoinClause) p in
        Failed ("expected ON after JOIN table, got "
                ++ Literal (curToken p)) p
      else
        let p := nextToken p in
        match parseExpression ext fuel p with
        | Diverged => Diverged
        | Failed err p => Failed err (pool (Put KJoinClause) p)
        | Returned condition p =>
            Returned (mkJoinClause joinType table (Some condition)) p
        end
  end.

(** The loop [for p.curTokenIs(lexer.COMMA)] of [parseGroupByClause]. *)
Fixpoint parseGroupByClause_loop (n : nat) (expressions : list Expression)
         (p : Parser) : Outcome (list Expression) :=
  if curTokenIs p COMMA then
    match n with
    | O => Diverged
    | S n' =>
        let p := nextToken p in
        do (expr, p) <- parseExpression ext fuel p;
        parseGroupByClause_loop n' (expressions ++ [expr]) p
    end
  else Returned expressions p.

Definition parseGroupByClause (p : Parser) : Outcome (list Expression) :=
  if negb (curTokenIs p GROUP) then
    Failed ("expected GROUP, got " ++ Literal (curToken p)) p
  else
    let p := nextToken p in
    let (ok, p) := expectPeek ext p BY in
    if negb ok then Failed "expected BY after GROUP" p
    else
      let p := nextToken p in
      do (expr, p) <- parseExpression ext fuel p;
      parseGroupByClause_loop fuel [expr] p.

Definition parseOrderByItem (p : Parser) : Outcome OrderByClause :=
  do (expr, p) <- parseExpression ext fuel p;
  (* ASC/DESC, with ASC as the default *)
  if curTokenIs p IDENT then
    let direction := ToUpper ext (Literal (curToken p)) in
    if String.eqb direction "ASC" || String.eqb direction "DESC" then
      Returned (mkOrderByClause expr direction) (nextToken p)
    else Returned (mkOrderByClause expr "ASC") p
  else Returned (mkOrderByClause expr "ASC") p.

(** The loop [for p.curTokenIs(lexer.COMMA)] of [parseOrderByClause]. *)
Fixpoint parseOrderByClause_loop (n : nat) (clauses : list OrderByClause)
         (p : Parser) : Outcome (list OrderByClause) :=
  if curTokenIs p COMMA then
    match n with
    | O => Diverged
    | S n' =>
        let p := nextToken p in
        do (clause, p) <- parseOrderByItem p;
        parseOrderByClause_loop n' (clauses ++ [clause]) p
    end
  else Returned clauses p.

Definition parseOrderByClause (p : Parser) : Outcome (list OrderByClause) :=
  if negb (curTokenIs p ORDER) then
    Failed ("expected ORDER, got " ++ Literal (curToken p)) p
  else
    let p := nextToken p in
    let (ok, p) := expectPeek ext p BY in
    if negb ok then Failed "expected BY after ORDER" p
    else
      let p := nextToken p in
      do (clause, p) <- parseOrderByItem p;
      parseOrderByClause_loop fuel [clause] p.

Definition isJoinStart (p : Parser) : bool :=
  curTokenIs p JOIN || curTokenIs p INNER || curTokenIs p LEFT
  || curTokenIs p RIGHT || curTokenIs p FULL.

(** The loop [for p.curTokenIs(lexer.JOIN) || ...] of
    [parseSelectStatement]. *)
Fixpoint parseSelectStatement_joins (n : nat) (joins : list JoinClause)
         (p : Parser) : Outcome (list JoinClause) :=
  if isJoinStart p then
    match n with
    | O => Diverged
    | S n' =>
        do (joinClause, p) <- parseJoinClause p;
        parseSelectStatement_joins n' (joins ++ [joinClause]) p
    end
  else Returned joins p.

Definition parseSelectStatement (p : Parser) : Outcome SelectStatement :=
  let p := pool (Get KSelectStatement) p in
  if negb (curTokenIs p SELECT) then
    let p := pool (Put KSelectStatement) p in (* return to pool on error *)
    Failed ("expected SELECT, got " ++ Literal (curToken p)) p
  else
    let p := nextToken p in
    (* DISTINCT *)
    let (distinct, p) :=
      if curTokenIs p DISTINCT then (true, nextToken p) else (false, p) in
    (* TOP *)
    do (top, p) <-
       (if curTokenIs p TOP then
          do (topClause, p) <- parseTopClause p;
          Returned (Some topClause) p
        else Returned None p);
    (* SELECT list *)
    do (columns, p) <- parseSelectList p;
    (* FROM *)
    do (from_, p) <-
       (if curTokenIs p FROM then
          do (fromClause, p) <- parseFromClause p;
          Returned (Some fromClause) p
        else Returned None p);
    (* JOINs *)
    do (joins, p) <- parseSelectStatement_joins fuel [] p;
    (* WHERE *)
    do (where_, p) <-
       (if curTokenIs p WHERE then
          let p := nextToken p in
          do (whereExpr, p) <- parseExpression ext fuel p;
          Returned (Some whereExpr) p
        else Returned None p);
    (* GROUP BY *)
    do (groupBy, p) <-
       (if curTokenIs p GROUP then parseGroupByClause p
        else Returned [] p);
    (* HAVING *)
    do (having, p) <-
       (if curTokenIs p HAVING then
          let p := nextToken p in
          do (havingExpr, p) <- parseExpression ext fuel p;
          Returned (Some havingExpr) p
        else Returned None p);
    (* ORDER BY *)
    do (orderBy, p) <-
       (if curTokenIs p ORDER then parseOrderByClause p
        else Returned [] p);
    Returned (mkSelectStatement distinct top columns from_ joins where_
                                groupBy having orderBy) p.

(** The stubs of the other statements: no node, an error. *)
Definition parseInsertStatement (p : Parser) : Outcome Statement :=
  Failed "INSERT statement parsing not implemented yet" p.

Definition parseUpdateStatement (p : Parser) : Outcome Statement :=
  Failed "UPDATE statement parsing not implemented yet" p.

Definition parseDeleteStatement (p : Parser) : Outcome Statement :=
  Failed "DELETE statement parsing not implemented yet" p.

(** [ParseStatement] parses a single SQL statement.  The outcome holds
    the error and the parser; the [Statement] value that is returned
    beside the error is given by [returnedStatement] below. *)
Definition ParseStatement (p : Parser) : Outcome Statement :=
  match Type_ (curToken p) with
  | SELECT =>
      do (stmt, p) <- parseSelectStatement p;
      Returned (StmtSelect stmt) p
  | INSERT => parseInsertStatement p
  | UPDATE => parseUpdateStatement p
  | DELETE => parseDeleteStatement p
  | _ => Failed ("unsupported statement type: " ++ Literal (curToken p)) p
  end.

(** The first result of [ParseStatement].  Each of the four cases
    [return p.parseXStatement()] converts the pointer that the statement
    parser returns to the interface type, also when that pointer is nil;
    the default case returns the nil interface.  [None] stands for a run
    that does not return. *)
Definition returnedStatement (p : Parser) : option StatementInterface :=
  match Type_ (curToken p) with
  | SELECT =>
      match parseSelectStatement p with
      | Diverged => None
      | Failed _ _ => Some (NilPointer SelectPointer)
      | Returned stmt _ => Some (Node (StmtSelect stmt))
      end
  | INSERT => Some (NilPointer InsertPointer)
  | UPDATE => Some (NilPointer UpdatePointer)
  | DELETE => Some (NilPointer DeletePointer)
  | _ => Some NilInterface
  end.

End Statements.

(* ================================================================== *)
(** ** Error recovery                                                   *)
(* ================================================================== *)

(** The loop [for !p.curTokenIs(lexer.EOF)] of [synchronize]. *)
Fixpoint synchronize_loop (n : nat) (p : Parser) : Outcome unit :=
  if negb (curTokenIs p EOF) then
    match n with
    | O => Diverged
    | S n' =>
        if curTokenIs p SEMICOLON then Returned tt (nextToken p)
        else
          (* synchronize on statement keywords *)
          match Type_ (curToken p) with
          | SELECT | INSERT | UPDATE | DELETE | CREATE | DROP | ALTER =>
              Returned tt p
          | _ => synchronize_loop n' (nextToken p)
          end
    end
  else Returned tt p.

(** [synchronize] returns nothing; [fuel] bounds the turns of its loop. *)
Definition synchronize (fuel : nat) (p : Parser) : Outcome unit :=
  synchronize_loop fuel (nextToken p).

(* ================================================================== *)
(** ** A concrete environment for the scenarios                         *)
(* ================================================================== *)

(** The scenarios below run the parser on token sequences; they need the
    outside functions at a handful of arguments only (the literals [5] and
    [10], ASCII identifiers).  [scenarioExt] is a stand-in that fixes them
    there, and is not a model of the Go library elsewhere: it converts
    unsigned decimal literals without a leading zero that fit 63 bits and
    refuses every other text (also those that [strconv] accepts, such as
    [010] or a float), and it upper-cases ASCII letters only.  Modelled
    from the spec: [typeName] and [syntaxError] stand for
    [TokenType.String] and for the text of a syntax error, which are not
    part of the sources at hand; the rendering shows the four fields the
    error carries (expected kind, actual kind, line, column).  Every
    theorem that is not about one scenario holds for every [External]. *)
Module Scenario.

Definition digit (c : ascii) : option Z :=
  let n := Z.of_nat (nat_of_ascii c) in
  if ((48 <=? n) && (n <=? 57))%Z then Some (n - 48)%Z else None.

Fixpoint digits (acc : Z) (s : string) : option Z :=
  match s with
  | EmptyString => Some acc
  | String c rest =>
      match digit c with
      | Some d => digits (acc * 10 + d)%Z rest
      | None => None
      end
  end.

(** The stand-in for [strconv.Atoi] and [strconv.ParseInt]: it agrees
    with them on unsigned decimal literals without a leading zero that
    fit 63 bits, and refuses every other text. *)
Definition decimal (s : string) : option Z :=
  match s with
  | EmptyString => None
  | String "0" (String _ _) => None
  | _ =>
      match digits 0 s with
      | Some n => if (n <=? maxInt)%Z then Some n else None
      | None => None
      end
  end.

Definition upper (c : ascii) : ascii :=
  let n := nat_of_ascii c in
  if (97 <=? n)%nat && (n <=? 122)%nat then ascii_of_nat (n - 32) else c.

Fixpoint asciiUpper (s : string) : string :=
  match s with
  | EmptyString => EmptyString
  | String c rest => String (upper c) (asciiUpper rest)
  end.

Definition dquote : string := String (ascii_of_nat 34) EmptyString.

(** Modelled from the spec: [TokenType.String] is not part of the
    sources at hand; a kind is shown by its keyword or its sign. *)
Definition typeName (t : TokenType) : string :=
  match t with
  | ILLEGAL => "ILLEGAL" | EOF => "EOF" | IDENT => "IDENT"
  | NUMBER => "NUMBER" | STRING => "STRING"
  | ASSIGN => "=" | EQ => "==" | NOT_EQ => "<>" | LT => "<" | GT => ">"
  | LTE => "<=" | GTE => ">="
  | PLUS => "+" | MINUS => "-" | ASTERISK => "*" | SLASH => "/"
  | COMMA => "," | SEMICOLON => ";" | DOT => "." | LPAREN => "("
  | RPAREN => ")"
  | SELECT => "SELECT" | INSERT => "INSERT" | UPDATE => "UPDATE"
  | DELETE => "DELETE" | CREATE => "CREATE" | DROP => "DROP"
  | ALTER => "ALTER" | DISTINCT => "DISTINCT" | TOP => "TOP"
  | FROM => "FROM" | WHERE => "WHERE" | JOIN => "JOIN" | INNER => "INNER"
  | LEFT => "LEFT" | RIGHT => "RIGHT" | FULL => "FULL" | ON => "ON"
  | GROUP => "GROUP" | BY => "BY" | HAVING => "HAVING" | ORDER => "ORDER"
  | AS => "AS" | AND => "AND" | OR => "OR" | LIKE => "LIKE" | IN => "IN"
  | OTHER name => name
  end.

Definition showZ (n : Z) : string :=
  DecimalString.NilZero.string_of_int (Z.to_int n).

(** Modelled from the spec: the text of a syntax error is not part of
    the sources at hand; this one shows the four fields of the
    "structured syntax error (expected kind, actual kind, line,
    column)". *)
Definition syntaxError (expected actual : string) (line column : Z)
  : string :=
  "syntax error at line " ++ showZ line ++ ", column " ++ showZ column
  ++ ": expected " ++ expected ++ ", got " ++ actual.

(** No float is converted: the scenarios hold none. *)
Definition scenarioExt : External :=
  mkExternal decimal decimal (fun _ => None) asciiUpper
             (fun s => (dquote ++ s ++ dquote)%string) typeName syntaxError.

(** A token on line 1. *)
Definition tok (t : TokenType) (lit : string) (column : Z) : Token :=
  mkToken t lit 1 column.

(** The token stream of a one-line input text of [len] characters. *)
Definition line1 (tokens : list Token) (len : Z) : Lexer :=
  mkLexer tokens 1 (len + 1).

(** [SELECT a FROM t INNER JOIN u ON a = b] *)
Definition innerJoin : Lexer :=
  line1 [tok SELECT "SELECT" 1; tok IDENT "a" 8; tok FROM "FROM" 10;
         tok IDENT "t" 15; tok INNER "INNER" 17; tok JOIN "JOIN" 23;
         tok IDENT "u" 28; tok ON "ON" 30; tok IDENT "a" 33;
         tok ASSIGN "=" 35; tok IDENT "b" 37] 37.

(** [SELECT a FROM t JOIN u ON a = b] *)
Definition bareJoin : Lexer :=
  line1 [tok SELECT "SELECT" 1; tok IDENT "a" 8; tok FROM "FROM" 10;
         tok IDENT "t" 15; tok JOIN "JOIN" 17; tok IDENT "u" 22;
         tok ON "ON" 24; tok IDENT "a" 27; tok ASSIGN "=" 29;
         tok IDENT "b" 31] 31.

(** [SELECT a FROM t1, t2 WHERE a > 5 ORDER BY a DESC] *)
Definition orderByDesc : Lexer :=
  line1 [tok SELECT "SELECT" 1; tok IDENT "a" 8; tok FROM "FROM" 10;
         tok IDENT "t1" 15; tok COMMA "," 17; tok IDENT "t2" 19;
         tok WHERE "WHERE" 22; tok IDENT "a" 28; tok GT ">" 30;
         tok NUMBER "5" 32; tok ORDER "ORDER" 34; tok BY "BY" 40;
         tok IDENT "a" 43; tok IDENT "DESC" 45] 48.

(** [SELECT TOP x] *)
Definition topWithoutNumber : Lexer :=
  line1 [tok SELECT "SELECT" 1; tok TOP "TOP" 8; tok IDENT "x" 12] 12.

(** [SELECT TOP x] again, spread over lines 3 to 5. *)
Definition topWithoutNumberElsewhere : Lexer :=
  mkLexer [mkToken SELECT "SELECT" 3 5; mkToken TOP "TOP" 4 2;
           mkToken IDENT "x" 5 9] 5 10.

(** [SELECT TOP 10 *] *)
Definition topTen : Lexer :=
  line1 [tok SELECT "SELECT" 1; tok TOP "TOP" 8; tok NUMBER "10" 12;
         tok ASTERISK "*" 15] 15.

(** [SELECT a * b] *)
Definition product : Lexer :=
  line1 [tok SELECT "SELECT" 1; tok IDENT "a" 8; tok ASTERISK "*" 10;
         tok IDENT "b" 12] 12.

(** [a + b * c] *)
Definition sumProduct : Lexer :=
  line1 [tok IDENT "a" 1; tok PLUS "+" 3; tok IDENT "b" 5;
         tok ASTERISK "*" 7; tok IDENT "c" 9] 9.

(** [SELECT (a) FROM t] *)
Definition grouped : Lexer :=
  line1 [tok SELECT "SELECT" 1; tok LPAREN "(" 8; tok IDENT "a" 9;
         tok RPAREN ")" 10; tok FROM "FROM" 12; tok IDENT "t" 17] 17.

(** [INNER JOIN u ON a = b], the parser standing on INNER. *)
Definition innerJoinClause : Lexer :=
  line1 [tok INNER "INNER" 1; tok JOIN "JOIN" 7; tok IDENT "u" 12;
         tok ON "ON" 14; tok IDENT "a" 17; tok ASSIGN "=" 19;
         tok IDENT "b" 21] 21.

(** [ORDER BY a DESC], the parser standing on ORDER. *)
Definition orderByClause : Lexer :=
  line1 [tok ORDER "ORDER" 1; tok BY "BY" 7; tok IDENT "a" 10;
         tok IDENT "DESC" 12] 15.

(** [SELECT 1 FROM; SELECT 2 FROM t] *)
Definition twoStatements : Lexer :=
  line1 [tok SELECT "SELECT" 1; tok NUMBER "1" 8; tok FROM "FROM" 10;
         tok SEMICOLON ";" 14; tok SELECT "SELECT" 16; tok NUMBER "2" 23;
         tok FROM "FROM" 25; tok IDENT "t" 30] 30.

(** [dbo.users u WHERE] *)
Definition qualifiedTable : Lexer :=
  line1 [tok IDENT "dbo" 1; tok DOT "." 4; tok IDENT "users" 5;
         tok IDENT "u" 11; tok WHERE "WHERE" 13] 17.

(** [FROM a, dbo.b AS x, c y WHERE] *)
Definition fromList : Lexer :=
  line1 [tok FROM "FROM" 1; tok IDENT "a" 6; tok COMMA "," 7;
         tok IDENT "dbo" 9; tok DOT "." 12; tok IDENT "b" 13;
         tok AS "AS" 15; tok IDENT "x" 18; tok COMMA "," 19;
         tok IDENT "c" 21; tok IDENT "y" 23; tok WHERE "WHERE" 25] 29.

(** [TOP 10 percent a] *)
Definition topPercent : Lexer :=
  line1 [tok TOP "TOP" 1; tok NUMBER "10" 5; tok IDENT "percent" 8;
         tok IDENT "a" 16] 16.

(** [GROUP BY a] *)
Definition groupByClause : Lexer :=
  line1 [tok GROUP "GROUP" 1; tok BY "BY" 7; tok IDENT "a" 10] 10.

(** [t.c FROM] *)
Definition qualifiedColumn : Lexer :=
  line1 [tok IDENT "t" 1; tok DOT "." 2; tok IDENT "c" 3;
         tok FROM "FROM" 5] 8.

(** [f(a, b) FROM] *)
Definition functionCall : Lexer :=
  line1 [tok IDENT "f" 1; tok LPAREN "(" 2; tok IDENT "a" 3;
         tok COMMA "," 4; tok IDENT "b" 6; tok RPAREN ")" 7;
         tok FROM "FROM" 9] 12.

(** [SELECT *, a FROM t] *)
Definition starThenColumn : Lexer :=
  line1 [tok SELECT "SELECT" 1; tok ASTERISK "*" 8; tok COMMA "," 9;
         tok IDENT "a" 11; tok FROM "FROM" 13; tok IDENT "t" 18] 18.

(** [SELECT a, *, b FROM t, dbo.u AS v;] *)
Definition selectFrom : Lexer :=
  line1 [tok SELECT "SELECT" 1; tok IDENT "a" 8; tok COMMA "," 9;
         tok ASTERISK "*" 11; tok COMMA "," 12; tok IDENT "b" 14;
         tok FROM "FROM" 16; tok IDENT "t" 21; tok COMMA "," 22;
         tok IDENT "dbo" 24; tok DOT "." 27; tok IDENT "u" 28;
         tok AS "AS" 30; tok IDENT "v" 33; tok SEMICOLON ";" 34] 34.

(** [a desc, b] *)
Definition orderItem : Lexer :=
  line1 [tok IDENT "a" 1; tok IDENT "desc" 3; tok COMMA "," 7;
         tok IDENT "b" 9] 9.

(** [ORDER BY BY a;] *)
Definition orderByBy : Lexer :=
  line1 [tok ORDER "ORDER" 1; tok BY "BY" 7; tok BY "BY" 10;
         tok IDENT "a" 13; tok SEMICOLON ";" 14] 14.

(** [(a) FROM] *)
Definition groupedThenFrom : Lexer :=
  line1 [tok LPAREN "(" 1; tok IDENT "a" 2; tok RPAREN ")" 3;
         tok FROM "FROM" 5] 8.

(** [SELECT a + (b) FROM t] *)
Definition sumWithGrouped : Lexer :=
  line1 [tok SELECT "SELECT" 1; tok IDENT "a" 8; tok PLUS "+" 10;
         tok LPAREN "(" 12; tok IDENT "b" 13; tok RPAREN ")" 14;
         tok FROM "FROM" 16; tok IDENT "t" 21] 21.

(** [SELECT (a) + b FROM t] *)
Definition groupedPlus : Lexer :=
  line1 [tok SELECT "SELECT" 1; tok LPAREN "(" 8; tok IDENT "a" 9;
         tok RPAREN ")" 10; tok PLUS "+" 12; tok IDENT "b" 14;
         tok FROM "FROM" 16; tok IDENT "t" 21] 21.

(** [INSERT INTO t VALUES (1)] *)
Definition insertInto : Lexer :=
  line1 [tok INSERT "INSERT" 1; tok IDENT "INTO" 8; tok IDENT "t" 13;
         tok IDENT "VALUES" 15; tok LPAREN "(" 22; tok NUMBER "1" 23;
         tok RPAREN ")" 24] 24.

(** [CREATE TABLE t] *)
Definition createTable : Lexer :=
  line1 [tok CREATE "CREATE" 1; tok IDENT "TABLE" 8; tok IDENT "t" 14] 14.

End Scenario.

(* ================================================================== *)
(** ** Notions used in the statements                                   *)
(* ================================================================== *)

(** The parser output as the specification describes it: a statement
    together with an empty list of diagnostics, or no statement together
    with a non-empty list of diagnostics. *)
Definition statementOrDiagnostics (r : Outcome Statement) : Prop :=
  match r with
  | Returned _ p => Errors p = []
  | Failed _ p => Errors p <> []
  | Diverged => False
  end.

(** The entries of the error list that report a cancellation. *)
Definition cancellationErrors (p : Parser) : nat :=
  count_occ string_dec (errors p) cancelled.

(** The tree [(((p1 op1 p2) op2 p3) ... opn p(n+1))]. *)
Definition leftNested (p1 : Expression) (rest : list (string * Expression))
  : Expression :=
  fold_left (fun acc step => BinaryExpression acc (fst step) (snd step))
            rest p1.

(** The tokens still ahead of the parser that are not end-of-input
    tokens: the current one, the next one and those the lexer holds.  An
    advance under [context.Background()] that leaves such a token behind
    makes this number smaller. *)
Definition live (t : Token) : nat :=
  if TokenType_eqb (Type_ t) EOF then 0 else 1.

Definition weight (p : Parser) : nat :=
  live (curToken p) + live (peekToken p)
  + list_sum (map live (pending (l p))).

(** A run that returns, and that, when it returns a value, has added no
    error to the list [e], has not seen a cancellation and has at most [w]
    tokens ahead. *)
Definition bounded {A : Type} (e : list string) (w : nat) (r : Outcome A)
  : Prop :=
  match r with
  | Diverged => False
  | Failed _ _ => True
  | Returned _ p' =>
      ctx p' = Background /\ errors p' = e /\ weight p' <= w
  end.

(** What [ParseStatement] does return under [context.Background()]: a
    statement and an empty list of [Errors], or an error. *)
Definition statementOrError (r : Outcome Statement) : Prop :=
  match r with
  | Returned _ p => Errors p = []
  | Failed _ _ => True
  | Diverged => False
  end.

(** The rest of an infix chain, read off the parser: in [q] the current
    token is an infix operator whose text is [operator], the primary after
    it is parsed as [operand], and so on until [q_end]. *)
Fixpoint chained (ext : External) (rec : Parser -> Outcome Expression)
         (fuel : nat) (q : Parser) (rest : list (string * Expression))
         (q_end : Parser) : Prop :=
  match rest with
  | [] => q_end = q
  | (operator, operand) :: rest' =>
      isInfixOperator (Type_ (curToken q)) = true
      /\ operator = Literal (curToken q)
      /\ exists q',
          parsePrimaryExpression ext rec fuel (nextToken q)
          = Returned operand q'
          /\ chained ext rec fuel (pool (Get KBinaryExpression) q') rest'
                     q_end
  end.

(** The [k]-th token ahead of the parser: the current one, the next one,
    those of the lexer, then end-of-input tokens. *)
Definition ahead (p : Parser) (k : nat) : Token :=
  nth k (curToken p :: peekToken p :: pending (l p))
      (mkToken EOF "" (eofLine (l p)) (eofColumn (l p))).

(** The parser stands in front of the tokens [ts]. *)
Definition sees (p : Parser) (ts : list Token) : Prop :=
  forall k t, nth_error ts k = Some t -> ahead p k = t.

(** The tokens of [op1 x2 op2 x3 ...]. *)
Definition chainTokens (steps : list (Token * Token)) : list Token :=
  flat_map (fun step => [fst step; snd step]) steps.

Definition chainOperands (steps : list (Token * Token))
  : list (string * Expression) :=
  map (fun step => (Literal (fst step),
                    ColumnReference "" (Literal (snd step)))) steps.

Definition wellFormedStep (step : Token * Token) : Prop :=
  isInfixOperator (Type_ (fst step)) = true /\ Type_ (snd step) = IDENT.

(** The four join keywords that name a join type. *)
Definition typedJoin (t : TokenType) : bool :=
  match t with
  | INNER | LEFT | RIGHT | FULL => true
  | _ => false
  end.

(** A run with more fuel agrees with a run that was not cut short. *)
Definition refines {A : Type} (r r' : Outcome A) : Prop :=
  r = Diverged \/ r' = r.

(** The parser left behind by a run is related to the one it started
    from; nothing is said of a run that does not return. *)
Definition framed (R : Parser -> Parser -> Prop) (p : Parser) {A : Type}
           (r : Outcome A) : Prop :=
  match r with
  | Diverged => True
  | Failed _ p' => R p p'
  | Returned _ p' => R p p'
  end.

Definition kindOf (ev : PoolEvent) : NodeKind :=
  match ev with
  | Get k => k
  | Put k => k
  end.

(** As many nodes of kind [k] are outstanding in [p'] as in [p]. *)
Definition sameOutstanding (k : NodeKind) (p p' : Parser) : Prop :=
  outstanding k (pools p') = outstanding k (pools p).

(** Nothing but the error list has changed from [p] to [p'], provided the
    context of [p] is done. *)
Definition frozen (p p' : Parser) : Prop :=
  isDone (ctx p) = true ->
  curToken p' = curToken p /\ peekToken p' = peekToken p /\ l p' = l p
  /\ tokenCount p' = tokenCount p /\ ctx p' = ctx p.

(** The token kinds of the infix operators [=], [<>], [<], [>], [<=],
    [>=], AND, OR, [+], [-], [*], [/], LIKE and IN; [=] is lexed as
    [ASSIGN] or as [EQ]. *)
Definition infixOperators : list TokenType :=
  [ASSIGN; EQ; NOT_EQ; LT; GT; LTE; GTE; AND; OR; PLUS; MINUS; ASTERISK;
   SLASH; LIKE; IN].

(** The statement keywords [synchronize] stops at. *)
Definition statementKeyword (t : TokenType) : bool :=
  match t with
  | SELECT | INSERT | UPDATE | DELETE | CREATE | DROP | ALTER => true
  | _ => false
  end.

(** A token [synchronize] stops at and leaves as the current one: the end
    of input or a statement keyword. *)
Definition resumes (t : Token) : bool :=
  TokenType_eqb (Type_ t) EOF || statementKeyword (Type_ t).

(** A token [synchronize] passes over. *)
Definition passedOver (t : Token) : bool :=
  negb (resumes t) && negb (TokenType_eqb (Type_ t) SEMICOLON).

(** The tokens that spell a table reference: an optional schema with its
    dot, the name, and an optional alias with or without AS. *)
Record TableSpelling : Type := mkTableSpelling {
  schemaPart : option (Token * Token);
  namePart : Token;
  aliasPart : option (option Token * Token)
}.

Definition spellingTokens (s : TableSpelling) : list Token :=
  match schemaPart s with
  | Some (schema, dot) => [schema; dot]
  | None => []
  end
  ++ [namePart s]
  ++ match aliasPart s with
     | Some (Some as_, alias) => [as_; alias]
     | Some (None, alias) => [alias]
     | None => []
     end.

(** The table reference a spelling stands for. *)
Definition spelled (s : TableSpelling) : TableReference :=
  mkTableReference
    match schemaPart s with
    | Some (schema, _) => Literal schema
    | None => ""
    end
    (Literal (namePart s))
    match aliasPart s with
    | Some (_, alias) => Literal alias
    | None => ""
    end.

Definition hasType (t : Token) (ty : TokenType) : bool :=
  TokenType_eqb (Type_ t) ty.

Definition wellSpelled (s : TableSpelling) : bool :=
  match schemaPart s with
  | Some (schema, dot) => hasType schema IDENT && hasType dot DOT
  | None => true
  end
  && hasType (namePart s) IDENT
  && match aliasPart s with
     | Some (Some as_, alias) => hasType as_ AS && hasType alias IDENT
     | Some (None, alias) => hasType alias IDENT
     | None => true
     end.

(** The token after a spelling does not continue it: after a name without
    alias it is no identifier and no AS, and after a bare name no dot
    either. *)
Definition endsTable (s : TableSpelling) (next : Token) : bool :=
  match aliasPart s with
  | Some _ => true
  | None =>
      negb (hasType next IDENT) && negb (hasType next AS)
      && match schemaPart s with
         | Some _ => true
         | None => negb (hasType next DOT)
         end
  end.

(** The tokens of the table references after the first one of a FROM
    clause, each with the comma before it. *)
Definition moreTables (rest : list (Token * TableSpelling)) : list Token :=
  flat_map (fun item => fst item :: spellingTokens (snd item)) rest.

(** A token that cannot continue a list of table references. *)
Definition closesTables (next : Token) : bool :=
  negb (hasType next IDENT) && negb (hasType next AS)
  && negb (hasType next DOT) && negb (hasType next COMMA).

(** The identifier that [parseTopClause] takes for the PERCENT marker. *)
Definition isPercent (ext : External) (t : Token) : bool :=
  hasType t IDENT && String.eqb (ToUpper ext (Literal t)) "PERCENT".

(** The token kinds [parseSelectStatement] tests for after the select
    list. *)
Definition clauseStart (t : TokenType) : bool :=
  match t with
  | FROM | JOIN | INNER | LEFT | RIGHT | FULL
  | WHERE | GROUP | HAVING | ORDER => true
  | _ => false
  end.

(** The expressions [x1, x2, ...] read off a list of identifiers. *)
Definition columnsOf (first : Token) (rest : list (Token * Token))
  : list Expression :=
  ColumnReference "" (Literal first)
  :: map (fun step => ColumnReference "" (Literal (snd step))) rest.

Definition commaThenIdentifier (step : Token * Token) : bool :=
  hasType (fst step) COMMA && hasType (snd step) IDENT.

(** The error list of [p'] is the one of [p] with entries added at its
    end. *)
Definition errorsGrow (p p' : Parser) : Prop :=
  exists added, errors p' = errors p ++ added.

(** From [p] to [p'] nodes were obtained from the pools and join clauses
    were given back, and nothing else was done to the pools. *)
Definition onlyJoinsGivenBack (p p' : Parser) : Prop :=
  exists events,
    pools p' = pools p ++ events
    /\ Forall (fun ev => forall k, ev = Put k -> k = KJoinClause) events.


(** The context of [p] is [context.Background()] and its error list is
    [e]. *)
Definition quiet (e : list string) (p : Parser) : Prop :=
  ctx p = Background /\ errors p = e.

(** A run that started with the error list [e] has added nothing to it
    when it returns a value, and at most one entry when it fails. *)
Definition atMostOneError (e : list string) {A : Type} (r : Outcome A)
  : Prop :=
  match r with
  | Diverged => True
  | Failed _ p' => errors p' = e \/ exists msg, errors p' = e ++ [msg]
  | Returned _ p' => quiet e p'
  end.

(** The column a select list reads off an identifier or a star. *)
Definition columnOf (x : Token) : Expression :=
  if hasType x ASTERISK then StarExpression ""
  else ColumnReference "" (Literal x).

Definition commaThenColumn (step : Token * Token) : bool :=
  hasType (fst step) COMMA
  && (hasType (snd step) IDENT || hasType (snd step) ASTERISK).

Definition selectColumns (first : Token) (rest : list (Token * Token))
  : list Expression :=
  ColumnReference "" (Literal first)
  :: map (fun step => columnOf (snd step)) rest.

(** A token that continues neither an identifier nor a list: no operator,
    no dot, no opening parenthesis and no comma. *)
Definition endsList (next : Token) : bool :=
  negb (isInfixOperator (Type_ next)) && negb (hasType next DOT)
  && negb (hasType next LPAREN) && negb (hasType next COMMA).

(** The identifier that [parseOrderByItem] takes for a direction. *)
Definition isDirection (ext : External) (t : Token) : bool :=
  hasType t IDENT
  && (String.eqb (ToUpper ext (Literal t)) "ASC"
      || String.eqb (ToUpper ext (Literal t)) "DESC").

(** The message [ParseStatement] returns when the statement is not a
    SELECT. *)
Definition refusal (p : Parser) : string :=
  if curTokenIs p INSERT then "INSERT statement parsing not implemented yet"
  else if curTokenIs p UPDATE then
    "UPDATE statement parsing not implemented yet"
  else if curTokenIs p DELETE then
    "DELETE statement parsing not implemented yet"
  else "unsupported statement type: " ++ Literal (curToken p).

(* ================================================================== *)
(** ** Comparing token kinds                                            *)
(* ================================================================== *)

Lemma TokenType_eqb_refl (a : TokenType) : TokenType_eqb a a = true.
Proof.
  unfold TokenType_eqb. destruct (TokenType_eq_dec a a); congruence.
Qed.

Lemma TokenType_eqb_diff (a b : TokenType) :
  a <> b -> TokenType_eqb a b = false.
Proof.
  unfold TokenType_eqb. destruct (TokenType_eq_dec a b); congruence.
Qed.

Lemma TokenType_eqb_true (a b : TokenType) :
  TokenType_eqb a b = true -> a = b.
Proof.
  unfold TokenType_eqb. destruct (TokenType_eq_dec a b); congruence.
Qed.

Lemma curTokenIs_true (p : Parser) (t : TokenType) :
  curTokenIs p t = true -> Type_ (curToken p) = t.
Proof. apply TokenType_eqb_true. Qed.

(* ================================================================== *)
(** ** Fuel                                                             *)
(* ================================================================== *)

(** Fuel only cuts runs short: a run that returns with some fuel returns
    the same with more. *)

Lemma refines_refl (A : Type) (r : Outcome A) : refines r r.
Proof. right. reflexivity. Qed.

Lemma refines_diverged (A : Type) (r' : Outcome A) : refines Diverged r'.
Proof. left. reflexivity. Qed.

Lemma refines_bind (A B : Type) (m m' : Outcome A)
      (k k' : A -> Parser -> Outcome B) :
  refines m m' ->
  (forall a q, refines (k a q) (k' a q)) ->
  refines (bind m k) (bind m' k').
Proof.
  intros [-> | ->] Hk; [apply refines_diverged |].
  destruct m as [| err q | a q]; simpl;
    [apply refines_diverged | apply refines_refl | apply Hk].
Qed.

(** The same match on an outcome, applied to a run and to a longer one. *)
Lemma refines_case (A B : Type) (m m' : Outcome A)
      (onFailed : string -> Parser -> Outcome B)
      (onReturned onReturned' : A -> Parser -> Outcome B) :
  refines m m' ->
  (forall a q, refines (onReturned a q) (onReturned' a q)) ->
  refines
    match m with
    | Diverged => Diverged
    | Failed err q => onFailed err q
    | Returned a q => onReturned a q
    end
    match m' with
    | Diverged => Diverged
    | Failed err q => onFailed err q
    | Returned a q => onReturned' a q
    end.
Proof.
  intros [-> | ->] Hk; [apply refines_diverged |].
  destruct m as [| err q | a q];
    [apply refines_diverged | apply refines_refl | apply Hk].
Qed.

Ltac same_test :=
  match goal with
  | |- refines (match ?c with _ => _ end) (match ?c with _ => _ end) =>
      destruct c eqn:?
  end.

Ltac mono_finish :=
  first [ apply refines_refl | apply refines_diverged ].

Ltac mono_call lemma :=
  apply refines_bind; [ apply lemma | intros ? ? ].

Ltac mono_work := repeat (first [ mono_finish | same_test; cbv zeta ]).

Section ExpressionsFuel.

Variable ext : External.
Variable rec rec' : Parser -> Outcome Expression.
Variable fuel fuel' : nat.
Hypothesis rec_refines : forall q, refines (rec q) (rec' q).
Hypothesis fuel_le : fuel <= fuel'.

Lemma parseFunctionCall_loop_fuel (n : nat) :
  forall (n' : nat) (arguments : list Expression) (p : Parser),
    n <= n' ->
    refines (parseFunctionCall_loop rec n arguments p)
            (parseFunctionCall_loop rec' n' arguments p).
Proof.
  induction n as [| n IH]; intros n' arguments p Hn.
  - destruct n'; simpl; destruct (curTokenIs p COMMA); mono_finish.
  - destruct n' as [| n']; [lia |]. simpl.
    destruct (curTokenIs p COMMA); [| mono_finish].
    mono_call rec_refines. apply IH. lia.
Qed.

Lemma parsePrimaryExpression_fuel (p : Parser) :
  refines (parsePrimaryExpression ext rec fuel p)
          (parsePrimaryExpression ext rec' fuel' p).
Proof.
  unfold parsePrimaryExpression, parseIdentifierExpression,
    parseFunctionCall, parseGroupedExpression.
  same_test; cbv zeta; try mono_finish.
  - (* IDENT *)
    repeat (same_test; cbv zeta; try mono_finish).
    apply refines_bind.
    + same_test; [| mono_finish].
      mono_call rec_refines. now apply parseFunctionCall_loop_fuel.
    + intros. mono_finish.
  - (* LPAREN *)
    mono_call rec_refines. mono_finish.
Qed.

Lemma parseInfixExpression_loop_fuel (n : nat) :
  forall (n' : nat) (left : Expression) (p : Parser),
    n <= n' ->
    refines (parseInfixExpression_loop ext rec fuel n left p)
            (parseInfixExpression_loop ext rec' fuel' n' left p).
Proof.
  induction n as [| n IH]; intros n' left p Hn.
  - destruct n'; simpl; destruct (isInfixOperator (Type_ (curToken p)));
      mono_finish.
  - destruct n' as [| n']; [lia |]. simpl.
    destruct (isInfixOperator (Type_ (curToken p))); [| mono_finish].
    mono_call parsePrimaryExpression_fuel. apply IH. lia.
Qed.

Lemma parseInfixExpression_fuel (p : Parser) :
  refines (parseInfixExpression ext rec fuel p)
          (parseInfixExpression ext rec' fuel' p).
Proof.
  unfold parseInfixExpression.
  mono_call parsePrimaryExpression_fuel.
  now apply parseInfixExpression_loop_fuel.
Qed.

End ExpressionsFuel.

Lemma parseExpression_fuel (ext : External) (fuel : nat) :
  forall (fuel' : nat) (p : Parser),
    fuel <= fuel' ->
    refines (parseExpression ext fuel p) (parseExpression ext fuel' p).
Proof.
  induction fuel as [| fuel IH]; intros fuel' p Hle;
    [apply refines_diverged |].
  destruct fuel' as [| fuel']; [lia |]. simpl.
  apply parseInfixExpression_fuel; [| lia].
  intros q. apply IH. lia.
Qed.

Section StatementsFuel.

Variable ext : External.
Variable fuel fuel' : nat.
Hypothesis fuel_le : fuel <= fuel'.

Lemma parseExpression_more_fuel (p : Parser) :
  refines (parseExpression ext fuel p) (parseExpression ext fuel' p).
Proof. now apply parseExpression_fuel. Qed.

Lemma parseSelectList_loop_fuel (n : nat) :
  forall (n' : nat) (columns : list Expression) (p : Parser),
    n <= n' ->
    refines (parseSelectList_loop ext fuel n columns p)
            (parseSelectList_loop ext fuel' n' columns p).
Proof.
  induction n as [| n IH]; intros n' columns p Hn.
  - destruct n'; simpl; destruct (curTokenIs p COMMA); mono_finish.
  - destruct n' as [| n']; [lia |]. simpl.
    destruct (curTokenIs p COMMA); [| mono_finish].
    same_test.
    + apply IH. lia.
    + mono_call parseExpression_more_fuel. apply IH. lia.
Qed.

Lemma parseSelectList_fuel (p : Parser) :
  refines (parseSelectList ext fuel p) (parseSelectList ext fuel' p).
Proof.
  unfold parseSelectList. same_test; [mono_finish |].
  mono_call parseExpression_more_fuel.
  now apply parseSelectList_loop_fuel.
Qed.

Lemma parseFromClause_loop_fuel (n : nat) :
  forall (n' : nat) (tables : list TableReference) (p : Parser),
    n <= n' ->
    refines (parseFromClause_loop n tables p)
            (parseFromClause_loop n' tables p).
Proof.
  induction n as [| n IH]; intros n' tables p Hn.
  - destruct n'; simpl; destruct (curTokenIs p COMMA); mono_finish.
  - destruct n' as [| n']; [lia |]. simpl.
    destruct (curTokenIs p COMMA); [| mono_finish].
    apply refines_bind; [apply refines_refl |].
    intros. apply IH. lia.
Qed.

Lemma parseFromClause_fuel (p : Parser) :
  refines (parseFromClause fuel p) (parseFromClause fuel' p).
Proof.
  unfold parseFromClause. same_test; [mono_finish |]. cbv zeta.
  apply refines_bind; [apply refines_refl |]. intros.
  apply refines_bind; [now apply parseFromClause_loop_fuel |].
  intros. mono_finish.
Qed.

Lemma parseJoinClause_fuel (p : Parser) :
  refines (parseJoinClause ext fuel p) (parseJoinClause ext fuel' p).
Proof.
  unfold parseJoinClause. cbv zeta.
  apply refines_bind; [apply refines_refl |].
  intros joinType q.
  same_test; try mono_finish.
  same_test; [mono_finish |]. cbv zeta.
  apply refines_case; [apply parseExpression_more_fuel |].
  intros. mono_finish.
Qed.

Lemma parseSelectStatement_joins_fuel (n : nat) :
  forall (n' : nat) (joins : list JoinClause) (p : Parser),
    n <= n' ->
    refines (parseSelectStatement_joins ext fuel n joins p)
            (parseSelectStatement_joins ext fuel' n' joins p).
Proof.
  induction n as [| n IH]; intros n' joins p Hn.
  - destruct n'; simpl; destruct (isJoinStart p); mono_finish.
  - destruct n' as [| n']; [lia |]. simpl.
    destruct (isJoinStart p); [| mono_finish].
    mono_call parseJoinClause_fuel. apply IH. lia.
Qed.

Lemma parseGroupByClause_loop_fuel (n : nat) :
  forall (n' : nat) (expressions : list Expression) (p : Parser),
    n <= n' ->
    refines (parseGroupByClause_loop ext fuel n expressions p)
            (parseGroupByClause_loop ext fuel' n' expressions p).
Proof.
  induction n as [| n IH]; intros n' expressions p Hn.
  - destruct n'; simpl; destruct (curTokenIs p COMMA); mono_finish.
  - destruct n' as [| n']; [lia |]. simpl.
    destruct (curTokenIs p COMMA); [| mono_finish].
    mono_call parseExpression_more_fuel. apply IH. lia.
Qed.

Lemma parseGroupByClause_fuel (p : Parser) :
  refines (parseGroupByClause ext fuel p) (parseGroupByClause ext fuel' p).
Proof.
  unfold parseGroupByClause. same_test; [mono_finish |]. cbv zeta.
  same_test. same_test; [mono_finish |].
  mono_call parseExpression_more_fuel.
  now apply parseGroupByClause_loop_fuel.
Qed.

Lemma parseOrderByItem_fuel (p : Parser) :
  refines (parseOrderByItem ext fuel p) (parseOrderByItem ext fuel' p).
Proof.
  unfold parseOrderByItem. mono_call parseExpression_more_fuel.
  mono_finish.
Qed.

Lemma parseOrderByClause_loop_fuel (n : nat) :
  forall (n' : nat) (clauses : list OrderByClause) (p : Parser),
    n <= n' ->
    refines (parseOrderByClause_loop ext fuel n clauses p)
            (parseOrderByClause_loop ext fuel' n' clauses p).
Proof.
  induction n as [| n IH]; intros n' clauses p Hn.
  - destruct n'; simpl; destruct (curTokenIs p COMMA); mono_finish.
  - destruct n' as [| n']; [lia |]. simpl.
    destruct (curTokenIs p COMMA); [| mono_finish].
    mono_call parseOrderByItem_fuel. apply IH. lia.
Qed.

Lemma parseOrderByClause_fuel (p : Parser) :
  refines (parseOrderByClause ext fuel p) (parseOrderByClause ext fuel' p).
Proof.
  unfold parseOrderByClause. same_test; [mono_finish |]. cbv zeta.
  same_test. same_test; [mono_finish |].
  mono_call parseOrderByItem_fuel.
  now apply parseOrderByClause_loop_fuel.
Qed.

Lemma parseSelectStatement_fuel (p : Parser) :
  refines (parseSelectStatement ext fuel p)
          (parseSelectStatement ext fuel' p).
Proof.
  unfold parseSelectStatement. cbv zeta.
  same_test; [mono_finish |]. same_test.
  apply refines_bind; [apply refines_refl |]. intros top q1.
  mono_call parseSelectList_fuel.
  apply refines_bind;
    [same_test; [| mono_finish];
     mono_call parseFromClause_fuel; mono_finish |].
  intros from_ q3.
  apply refines_bind; [now apply parseSelectStatement_joins_fuel |].
  intros joins q4.
  apply refines_bind;
    [same_test; [| mono_finish]; cbv zeta;
     mono_call parseExpression_more_fuel; mono_finish |].
  intros where_ q5.
  apply refines_bind;
    [same_test; [| mono_finish]; apply parseGroupByClause_fuel |].
  intros groupBy q6.
  apply refines_bind;
    [same_test; [| mono_finish]; cbv zeta;
     mono_call parseExpression_more_fuel; mono_finish |].
  intros having q7.
  apply refines_bind;
    [same_test; [| mono_finish]; apply parseOrderByClause_fuel |].
  intros orderBy q8. mono_finish.
Qed.

(** More fuel does not change what a run returns. *)
Lemma ParseStatement_fuel (p : Parser) :
  refines (ParseStatement ext fuel p) (ParseStatement ext fuel' p).
Proof.
  unfold ParseStatement. same_test; try mono_finish.
  mono_call parseSelectStatement_fuel. mono_finish.
Qed.

End StatementsFuel.

(* ================================================================== *)
(** ** Statement dispatch                                               *)
(* ================================================================== *)

(** C9: when the leading token is not SELECT, [ParseStatement] returns an
    error and leaves the parser as it was: the not-implemented message for
    INSERT, UPDATE and DELETE, and "unsupported statement type" followed
    by the token's text for every other leading token. *)
Theorem ParseStatement_refuses (ext : External) (fuel : nat) (p : Parser) :
  curTokenIs p SELECT = false ->
  ParseStatement ext fuel p = Failed (refusal p) p.
Proof.
  unfold refusal, ParseStatement, curTokenIs. intros Hsel.
  destruct (Type_ (curToken p)) eqn:Hty;
    repeat rewrite TokenType_eqb_refl in *;
    repeat (rewrite TokenType_eqb_diff by discriminate);
    try reflexivity; discriminate.
Qed.

Lemma ParseStatement_refuses_witness :
  curTokenIs (New Scenario.insertInto) SELECT = false
  /\ ParseStatement Scenario.scenarioExt 0 (New Scenario.insertInto)
     = Failed "INSERT statement parsing not implemented yet"
              (New Scenario.insertInto).
Proof.
  split; [reflexivity |].
  exact (ParseStatement_refuses Scenario.scenarioExt 0
           (New Scenario.insertInto) eq_refl).
Defined.

Lemma curToken_New (input : Lexer) (t : Token) (rest : list Token) :
  pending input = t :: rest -> curToken (New input) = t.
Proof.
  intros Hpending. unfold New, NewWithContext, nextToken, NextToken.
  simpl. rewrite Hpending. simpl. destruct rest; reflexivity.
Qed.

(** The same on inputs: what decides is the first token of the text. *)
Corollary first_token_decides (ext : External) (fuel : nat)
          (input : Lexer) (t : Token) (rest : list Token) :
  pending input = t :: rest ->
  TokenType_eqb (Type_ t) SELECT = false ->
  exists msg,
    ParseStatement ext fuel (New input) = Failed msg (New input)
    /\ msg = match Type_ t with
             | INSERT => "INSERT statement parsing not implemented yet"
             | UPDATE => "UPDATE statement parsing not implemented yet"
             | DELETE => "DELETE statement parsing not implemented yet"
             | _ => ("unsupported statement type: " ++ Literal t)%string
             end.
Proof.
  intros Hpending Hselect.
  pose proof (curToken_New input t rest Hpending) as Hcur.
  eexists. split; [| reflexivity].
  unfold ParseStatement. rewrite Hcur.
  destruct (Type_ t); try reflexivity.
  rewrite TokenType_eqb_refl in Hselect. discriminate Hselect.
Qed.

Example create_is_unsupported :
  ParseStatement Scenario.scenarioExt 0 (New Scenario.createTable)
  = Failed "unsupported statement type: CREATE" (New Scenario.createTable).
Proof. reflexivity. Qed.

(* ================================================================== *)
(** ** Joins                                                            *)
(* ================================================================== *)

(** C1: on [SELECT a FROM t INNER JOIN u ON a = b] the join is not built.
    [parseJoinClause] advances past INNER and then asks for JOIN as the
    token after the current one, which by then is the table name: the
    statement fails with "expected JOIN after INNER" and one syntax error
    at the table name (line 1, column 28). *)
Theorem typed_join_is_rejected (ext : External) (fuel : nat) :
  exists p',
    ParseStatement ext (S fuel) (New Scenario.innerJoin)
    = Failed "expected JOIN after INNER" p'
    /\ Type_ (curToken p') = JOIN
    /\ Literal (peekToken p') = "u"
    /\ Errors p' = [SyntaxErrorText ext (TokenTypeString ext JOIN)
                      (TokenTypeString ext IDENT) 1 28].
Proof.
  eexists. split; [vm_compute; reflexivity |].
  repeat split.
Qed.

(** The same statement with a bare JOIN parses, and the join is INNER. *)
Example bare_join_is_inner (ext : External) (fuel : nat) :
  exists stmt p',
    ParseStatement ext (2 + fuel) (New Scenario.bareJoin)
    = Returned (StmtSelect stmt) p'
    /\ Joins stmt
       = [mkJoinClause "INNER" (mkTableReference "" "u" "")
            (Some (BinaryExpression (ColumnReference "" "a") "="
                                    (ColumnReference "" "b")))]
    /\ Errors p' = [].
Proof.
  eexists. eexists. split; [vm_compute; reflexivity |].
  split; reflexivity.
Qed.

Lemma nextToken_done (p : Parser) :
  isDone (ctx p) = true -> nextToken p = addError p cancelled.
Proof. unfold nextToken. intros ->. reflexivity. Qed.

Lemma nextToken_cases (p : Parser) :
  (isDone (ctx p) = true /\ nextToken p = addError p cancelled)
  \/ (isDone (ctx p) = false
      /\ curToken (nextToken p) = peekToken p
      /\ isDone (ctx (nextToken p)) = isDone (polled (ctx p))).
Proof.
  unfold nextToken. destruct (isDone (ctx p)) eqn:Hdone.
  - left. split; reflexivity.
  - right. split; [reflexivity |]. destruct (NextToken (l p)). simpl. auto.
Qed.

Lemma curTokenIs_addError (p : Parser) (msg : string) (t : TokenType) :
  curTokenIs (addError p msg) t = curTokenIs p t.
Proof. reflexivity. Qed.

Lemma parseTableReference_stuck (p : Parser) :
  isDone (ctx p) = true ->
  match parseTableReference p with
  | Returned _ p' => Type_ (curToken p') = IDENT
  | _ => True
  end.
Proof.
  intros Hdone. unfold parseTableReference.
  destruct (curTokenIs p IDENT) eqn:Hident; simpl; [| exact I].
  assert (Hdot : curTokenIs p DOT = false).
  { apply curTokenIs_true in Hident. unfold curTokenIs. rewrite Hident.
    reflexivity. }
  assert (Has : curTokenIs p AS = false).
  { apply curTokenIs_true in Hident. unfold curTokenIs. rewrite Hident.
    reflexivity. }
  rewrite (nextToken_done p Hdone).
  rewrite curTokenIs_addError, Hdot. simpl.
  rewrite curTokenIs_addError, Has, curTokenIs_addError, Hident.
  rewrite nextToken_done by exact Hdone. simpl.
  now apply curTokenIs_true.
Qed.

(** Whatever the context and the tokens that follow, a join that starts
    with INNER, LEFT, RIGHT or FULL is never built. *)
Lemma typed_join_never_parses (ext : External) (fuel : nat) (p : Parser) :
  typedJoin (Type_ (curToken p)) = true ->
  exists err p', parseJoinClause ext fuel p = Failed err p'.
Proof.
  intros Htyped. unfold parseJoinClause. cbv zeta.
  set (p0 := pool (Get KJoinClause) p).
  assert (Hcur0 : curToken p0 = curToken p) by reflexivity.
  assert (Hgen : forall keyword,
             match parseJoinClause_typed ext keyword p0 with
             | Returned _ q =>
                 Type_ (curToken q) <> IDENT
                 \/ (isDone (ctx q) = true /\ Type_ (curToken q) = IDENT)
             | Failed _ _ => True
             | Diverged => False
             end).
  { intros keyword. unfold parseJoinClause_typed, expectPeek. cbv zeta.
    destruct (peekTokenIs (nextToken p0) JOIN) eqn:Hpeek; simpl; [| exact I].
    destruct (nextToken_cases (nextToken p0))
      as [[Hdone Heq] | (Hopen & Hcur & _)].
    - rewrite Heq. simpl.
      destruct (TokenType_eq_dec (Type_ (curToken (nextToken p0))) IDENT);
        [right | left]; auto.
    - left. rewrite Hcur. apply TokenType_eqb_true in Hpeek.
      rewrite Hpeek. discriminate. }
  assert (Hafter : forall q joinType,
             Type_ (curToken q) <> IDENT
             \/ (isDone (ctx q) = true /\ Type_ (curToken q) = IDENT) ->
             exists err p',
               match parseTableReference q with
               | Diverged => Diverged
               | Failed err p => Failed err (pool (Put KJoinClause) p)
               | Returned table p =>
                   if negb (curTokenIs p ON)
                   then
                     let p := pool (Put KJoinClause) p in
                     Failed ("expected ON after JOIN table, got "
                             ++ Literal (curToken p)) p
                   else
                     let p := nextToken p in
                     match parseExpression ext fuel p with
                     | Diverged => Diverged
                     | Failed err p => Failed err (pool (Put KJoinClause) p)
                     | Returned condition p =>
                         Returned (mkJoinClause joinType table
                                                (Some condition)) p
                     end
               end = Failed err p').
  { intros q joinType [Hne | [Hdone Hident]].
    - unfold parseTableReference, curTokenIs.
      rewrite TokenType_eqb_diff by exact Hne. simpl. eauto.
    - pose proof (parseTableReference_stuck q Hdone) as Hstuck.
      destruct (parseTableReference q) as [| err q' | table q'] eqn:Hrun.
      + unfold parseTableReference in Hrun.
        unfold curTokenIs in Hrun. rewrite Hident in Hrun. simpl in Hrun.
        repeat match type of Hrun with
               | context [if ?c then _ else _] => destruct c; simpl in Hrun
               end; discriminate.
      + eauto.
      + unfold curTokenIs. rewrite Hstuck. simpl. eauto. }
  unfold curTokenIs. rewrite Hcur0.
  destruct (Type_ (curToken p)) eqn:Hty; try discriminate;
    simpl TokenType_eqb; cbv iota;
    match goal with
    | |- context [parseJoinClause_typed ext ?kw p0] =>
        specialize (Hgen kw);
        destruct (parseJoinClause_typed ext kw p0) as [| err q | jt q];
        simpl; [contradiction | eauto | apply Hafter; exact Hgen]
    end.
Qed.

Example inner_join_clause_fails :
  exists err p',
    parseJoinClause Scenario.scenarioExt 2 (New Scenario.innerJoinClause)
    = Failed err p'.
Proof.
  apply typed_join_never_parses. reflexivity.
Qed.

(* ================================================================== *)
(** ** ORDER BY                                                         *)
(* ================================================================== *)

(** C2: on [SELECT a FROM t1, t2 WHERE a > 5 ORDER BY a DESC] no
    statement is built.  [parseOrderByClause] advances past ORDER and then
    asks for BY as the token after the current one, which by then is the
    first order item: the statement fails with "expected BY after ORDER"
    and one syntax error at the item (line 1, column 43). *)
Theorem order_by_is_rejected (fuel : nat) :
  exists p',
    ParseStatement Scenario.scenarioExt (2 + fuel) (New Scenario.orderByDesc)
    = Failed "expected BY after ORDER" p'
    /\ Type_ (curToken p') = BY
    /\ Literal (peekToken p') = "a"
    /\ Errors p'
       = ["syntax error at line 1, column 43: expected BY, got IDENT"].
Proof.
  eexists. split; [vm_compute; reflexivity |].
  repeat split.
Qed.

Lemma peekToken_nextToken (p : Parser) :
  isDone (ctx p) = false -> peekToken (nextToken p) = ahead p 2.
Proof.
  intros Hopen. unfold nextToken, NextToken, ahead. rewrite Hopen.
  destruct (pending (l p)); reflexivity.
Qed.

(** X24: while the context is open, an ORDER BY clause is refused
    whenever the second token after ORDER is not BY, that is, whenever an
    order item follows [ORDER BY]. *)
Lemma order_by_never_parses (ext : External) (fuel : nat) (p : Parser) :
  curTokenIs p ORDER = true ->
  isDone (ctx p) = false ->
  Type_ (ahead p 2) <> BY ->
  parseOrderByClause ext fuel p
  = Failed "expected BY after ORDER" (peekError ext (nextToken p) BY).
Proof.
  intros Horder Hopen Hthird.
  unfold parseOrderByClause, expectPeek, peekTokenIs.
  rewrite Horder. cbv zeta. simpl negb. cbv iota.
  rewrite peekToken_nextToken by exact Hopen.
  rewrite TokenType_eqb_diff by exact Hthird. reflexivity.
Qed.

Example order_by_clause_fails :
  exists p',
    parseOrderByClause Scenario.scenarioExt 2 (New Scenario.orderByClause)
    = Failed "expected BY after ORDER" p'.
Proof.
  eexists. apply order_by_never_parses; [reflexivity | reflexivity |].
  discriminate.
Defined.

(* ================================================================== *)
(** ** Parenthesised expressions                                        *)
(* ================================================================== *)

(** C7: on [SELECT (a) FROM t] the parenthesised primary is refused.
    After the inner expression the current token is the closing
    parenthesis, and [parseGroupedExpression] asks for it as the token
    after the current one, which is FROM: the statement fails with
    "expected ')' to close grouped expression", the current token still
    being the parenthesis. *)
Theorem grouped_expression_is_rejected (ext : External) (fuel : nat) :
  exists p',
    ParseStatement ext (S (S fuel)) (New Scenario.grouped)
    = Failed "expected ')' to close grouped expression" p'
    /\ Type_ (curToken p') = RPAREN
    /\ Type_ (peekToken p') = FROM
    /\ Errors p' = [SyntaxErrorText ext (TokenTypeString ext RPAREN)
                      (TokenTypeString ext FROM) 1 12].
Proof.
  eexists. split; [vm_compute; reflexivity |].
  repeat split.
Qed.

(** The closing parenthesis is asked for one token too far: when the
    inner expression has been read up to [q], the primary is refused
    unless the token after the current one of [q] is a closing
    parenthesis, and when it is accepted that token is left as the
    current one. *)
Lemma grouped_expression_looks_ahead (ext : External)
      (rec : Parser -> Outcome Expression) (p q : Parser)
      (e : Expression) :
  rec (nextToken p) = Returned e q ->
  parseGroupedExpression ext rec p
  = if peekTokenIs q RPAREN then Returned e (nextToken q)
    else Failed "expected ')' to close grouped expression"
                (peekError ext q RPAREN).
Proof.
  intros Hinner. unfold parseGroupedExpression, expectPeek.
  cbv zeta. rewrite Hinner. simpl.
  destruct (peekTokenIs q RPAREN); reflexivity.
Qed.

(* ================================================================== *)
(** ** What a run leaves related                                        *)
(* ================================================================== *)

(** Every method acts on the parser through [nextToken], through the
    error list and through the pools only.  A relation that is reflexive
    and transitive and that these three steps respect therefore holds
    between the parser a method starts from and the one it leaves. *)

Section Frame.

Variable R : Parser -> Parser -> Prop.
Variable tolerated : PoolEvent -> Prop.
Hypothesis R_refl : forall p, R p p.
Hypothesis R_trans : forall p q r, R p q -> R q r -> R p r.
Hypothesis R_nextToken : forall p, R p (nextToken p).
Hypothesis R_addError : forall p msg, R p (addError p msg).
Hypothesis R_pool : forall ev p, tolerated ev -> R p (pool ev p).

Lemma framed_bind (A B : Type) (p : Parser) (m : Outcome A)
      (k : A -> Parser -> Outcome B) :
  framed R p m ->
  (forall a q, R p q -> framed R p (k a q)) ->
  framed R p (bind m k).
Proof.
  destruct m as [| err q | a q]; simpl; auto.
Qed.

Lemma framed_from (A : Type) (p q : Parser) (r : Outcome A) :
  R p q -> framed R q r -> framed R p r.
Proof.
  intros Hpq. destruct r as [| err q' | a q']; simpl; auto;
    apply R_trans; exact Hpq.
Qed.

Lemma R_peekError (ext : External) (p : Parser) (t : TokenType) :
  R p (peekError ext p t).
Proof. apply R_addError. Qed.

(** Name the parser reached by one step, and keep that it is related to
    the starting one. *)
Ltac frame_absorb :=
  match goal with
  | Hq : R ?p ?q |- context [nextToken ?q] =>
      is_var q;
      let H := fresh "Hq" in
      let q' := fresh "q" in
      pose proof (R_trans _ _ _ Hq (R_nextToken q)) as H;
      set (q' := nextToken q) in *; clearbody q'
  | Hq : R ?p ?q |- context [pool ?ev ?q] =>
      is_var q;
      let H := fresh "Hq" in
      let q' := fresh "q" in
      pose proof (R_trans _ _ _ Hq (R_pool ev q ltac:(assumption))) as H;
      set (q' := pool ev q) in *; clearbody q'
  | Hq : R ?p ?q |- context [peekError ?ext ?q ?t] =>
      is_var q;
      let H := fresh "Hq" in
      let q' := fresh "q" in
      pose proof (R_trans _ _ _ Hq (R_peekError ext q t)) as H;
      set (q' := peekError ext q t) in *; clearbody q'
  end.

(** A run that has ended. *)
Ltac frame_finish :=
  match goal with
  | |- framed _ _ Diverged => exact I
  | |- framed _ _ (Failed _ _) => simpl; assumption
  | |- framed _ _ (Returned _ _) => simpl; assumption
  end.

(** Follow both branches of a test. *)
Ltac frame_branch :=
  match goal with
  | |- framed _ _ (match ?c with _ => _ end) =>
      first
        [ match c with
          | context [curTokenIs ?q ?T] => destruct (curTokenIs q T) eqn:?
          end
        | match c with
          | context [peekTokenIs ?q ?T] => destruct (peekTokenIs q T) eqn:?
          end
        | destruct c eqn:? ];
      cbn [negb andb orb]
  end.

(** A method called from a parser reached earlier. *)
Ltac frame_from :=
  match goal with
  | Hq : R ?p ?q |- framed R ?p (?f ?q) =>
      apply (@framed_from _ p q (f q) Hq)
  end.

Ltac frame_call lemma :=
  eapply framed_bind; [ frame_from; apply lemma | intros ? ? ? ].

Ltac frame_tail lemma := frame_from; apply lemma.

Ltac frame_work := repeat (frame_branch; cbv zeta; repeat frame_absorb; try frame_finish).

Section ExpressionsFrame.

Variable ext : External.
Variable rec : Parser -> Outcome Expression.
Variable fuel : nat.
Hypothesis rec_framed : forall q, framed R q (rec q).
Hypothesis tolerated_column : tolerated (Get KColumnReference).
Hypothesis tolerated_binary : tolerated (Get KBinaryExpression).

Lemma parseFunctionCall_loop_framed (n : nat) :
  forall (arguments : list Expression) (p : Parser),
    framed R p (parseFunctionCall_loop rec n arguments p).
Proof.
  induction n as [| n IH]; intros arguments p; simpl;
    pose proof (R_refl p).
  - frame_branch; frame_finish.
  - frame_branch; [| frame_finish]. cbv zeta. frame_absorb.
    frame_call rec_framed. frame_tail IH.
Qed.

Lemma parsePrimaryExpression_framed (p : Parser) :
  framed R p (parsePrimaryExpression ext rec fuel p).
Proof.
  pose proof (R_refl p).
  unfold parsePrimaryExpression, parseIdentifierExpression,
    parseFunctionCall, parseNumberLiteral, parseStringLiteral,
    parseGroupedExpression, expectPeek.
  frame_branch; cbv zeta; repeat frame_absorb; try frame_finish.
  - (* IDENT *)
    repeat (frame_branch; cbv zeta; repeat frame_absorb; try frame_finish).
    eapply framed_bind.
    + frame_branch; [frame_finish |]. frame_call rec_framed.
      frame_tail parseFunctionCall_loop_framed.
    + intros. frame_work.
  - (* NUMBER *) frame_work.
  - (* LPAREN *) frame_call rec_framed. frame_work.
Qed.

Lemma parseInfixExpression_loop_framed (n : nat) :
  forall (left : Expression) (p : Parser),
    framed R p (parseInfixExpression_loop ext rec fuel n left p).
Proof.
  induction n as [| n IH]; intros left p; simpl; pose proof (R_refl p).
  - frame_branch; frame_finish.
  - frame_branch; [| frame_finish]. cbv zeta. frame_absorb.
    frame_call parsePrimaryExpression_framed. frame_absorb. frame_tail IH.
Qed.

Lemma parseInfixExpression_framed (p : Parser) :
  framed R p (parseInfixExpression ext rec fuel p).
Proof.
  pose proof (R_refl p). unfold parseInfixExpression.
  frame_call parsePrimaryExpression_framed.
  frame_tail parseInfixExpression_loop_framed.
Qed.

End ExpressionsFrame.

Lemma parseExpression_framed (ext : External)
      (tolerated_column : tolerated (Get KColumnReference))
      (tolerated_binary : tolerated (Get KBinaryExpression)) (fuel : nat) :
  forall p : Parser, framed R p (parseExpression ext fuel p).
Proof.
  induction fuel as [| fuel IH]; intros p; [exact I |].
  simpl. now apply parseInfixExpression_framed.
Qed.

Section StatementsFrame.

Variable ext : External.
Variable fuel : nat.
Hypothesis tolerated_column : tolerated (Get KColumnReference).
Hypothesis tolerated_binary : tolerated (Get KBinaryExpression).

Lemma parseExpression_framed' (p : Parser) :
  framed R p (parseExpression ext fuel p).
Proof. now apply parseExpression_framed. Qed.

Lemma parseTopClause_framed (p : Parser) :
  framed R p (parseTopClause ext p).
Proof.
  pose proof (R_refl p). unfold parseTopClause. frame_work.
Qed.

Lemma parseSelectList_loop_framed (n : nat) :
  forall (columns : list Expression) (p : Parser),
    framed R p (parseSelectList_loop ext fuel n columns p).
Proof.
  induction n as [| n IH]; intros columns p; simpl; pose proof (R_refl p).
  - frame_branch; frame_finish.
  - frame_branch; [| frame_finish]. cbv zeta. frame_absorb. frame_branch.
    + frame_absorb. frame_tail IH.
    + frame_call parseExpression_framed'. frame_tail IH.
Qed.

Lemma parseSelectList_framed (p : Parser) :
  framed R p (parseSelectList ext fuel p).
Proof.
  pose proof (R_refl p). unfold parseSelectList. frame_branch.
  - frame_absorb. frame_finish.
  - frame_call parseExpression_framed'. frame_tail parseSelectList_loop_framed.
Qed.

Lemma parseTableReference_framed (p : Parser) :
  framed R p (parseTableReference p).
Proof.
  pose proof (R_refl p). unfold parseTableReference.
  frame_branch; [| frame_finish]. cbv zeta. frame_absorb.
  eapply framed_bind.
  - frame_work.
  - intros. frame_work.
Qed.

Lemma parseFromClause_loop_framed (n : nat) :
  forall (tables : list TableReference) (p : Parser),
    framed R p (parseFromClause_loop n tables p).
Proof.
  induction n as [| n IH]; intros tables p; simpl; pose proof (R_refl p).
  - frame_branch; frame_finish.
  - frame_branch; [| frame_finish]. cbv zeta. frame_absorb.
    frame_call parseTableReference_framed. frame_tail IH.
Qed.

Lemma parseFromClause_framed (p : Parser) :
  framed R p (parseFromClause fuel p).
Proof.
  pose proof (R_refl p). unfold parseFromClause.
  frame_branch; [| frame_finish]. cbv zeta. frame_absorb.
  frame_call parseTableReference_framed. frame_call parseFromClause_loop_framed.
  frame_finish.
Qed.

Lemma parseGroupByClause_loop_framed (n : nat) :
  forall (expressions : list Expression) (p : Parser),
    framed R p (parseGroupByClause_loop ext fuel n expressions p).
Proof.
  induction n as [| n IH]; intros expressions p; simpl;
    pose proof (R_refl p).
  - frame_branch; frame_finish.
  - frame_branch; [| frame_finish]. cbv zeta. frame_absorb.
    frame_call parseExpression_framed'. frame_tail IH.
Qed.

Lemma parseGroupByClause_framed (p : Parser) :
  framed R p (parseGroupByClause ext fuel p).
Proof.
  pose proof (R_refl p). unfold parseGroupByClause, expectPeek.
  frame_branch; [| frame_finish]. cbv zeta. frame_absorb.
  frame_branch; cbv iota beta; cbn [negb]; repeat frame_absorb; [| frame_finish].
  frame_call parseExpression_framed'. frame_tail parseGroupByClause_loop_framed.
Qed.

Lemma parseOrderByItem_framed (p : Parser) :
  framed R p (parseOrderByItem ext fuel p).
Proof.
  pose proof (R_refl p). unfold parseOrderByItem.
  frame_call parseExpression_framed'. frame_work.
Qed.

Lemma parseOrderByClause_loop_framed (n : nat) :
  forall (clauses : list OrderByClause) (p : Parser),
    framed R p (parseOrderByClause_loop ext fuel n clauses p).
Proof.
  induction n as [| n IH]; intros clauses p; simpl; pose proof (R_refl p).
  - frame_branch; frame_finish.
  - frame_branch; [| frame_finish]. cbv zeta. frame_absorb.
    frame_call parseOrderByItem_framed. frame_tail IH.
Qed.

Lemma parseOrderByClause_framed (p : Parser) :
  framed R p (parseOrderByClause ext fuel p).
Proof.
  pose proof (R_refl p). unfold parseOrderByClause, expectPeek.
  frame_branch; [| frame_finish]. cbv zeta. frame_absorb.
  frame_branch; cbv iota beta; cbn [negb]; repeat frame_absorb; [| frame_finish].
  frame_call parseOrderByItem_framed. frame_tail parseOrderByClause_loop_framed.
Qed.

Hypothesis tolerated_join_get : tolerated (Get KJoinClause).
Hypothesis tolerated_join_put : tolerated (Put KJoinClause).

Lemma parseJoinClause_framed (p : Parser) :
  framed R p (parseJoinClause ext fuel p).
Proof.
  pose proof (R_refl p).
  unfold parseJoinClause, parseJoinClause_typed, expectPeek.
  cbv zeta. frame_absorb.
  eapply framed_bind.
  - frame_work.
  - intros joinType r Hr.
    pose proof (@framed_from _ p r _ Hr (parseTableReference_framed r))
      as Htable.
    destruct (parseTableReference r) as [| err r1 | table r1];
      [exact I | simpl in Htable; frame_absorb; frame_finish |].
    simpl in Htable.
    frame_branch; cbv zeta; repeat frame_absorb; [| frame_finish].
    match goal with
    | Hq : R p ?r2 |- context [parseExpression ext fuel ?r2] =>
        pose proof (@framed_from _ p r2 _ Hq (parseExpression_framed' r2))
          as Hcond;
        destruct (parseExpression ext fuel r2) as [| err r3 | cond r3];
        [exact I | simpl in Hcond; frame_absorb; frame_finish
        | simpl in Hcond; frame_finish]
    end.
Qed.

Lemma parseSelectStatement_joins_framed (n : nat) :
  forall (joins : list JoinClause) (p : Parser),
    framed R p (parseSelectStatement_joins ext fuel n joins p).
Proof.
  induction n as [| n IH]; intros joins p; simpl; pose proof (R_refl p).
  - destruct (isJoinStart p); frame_finish.
  - destruct (isJoinStart p); [| frame_finish].
    frame_call parseJoinClause_framed. frame_tail IH.
Qed.

(** What [parseSelectStatement] does after it has obtained its node and
    found SELECT. *)
Lemma parseSelectStatement_body_framed (p : Parser) :
  curTokenIs p SELECT = true ->
  framed R (pool (Get KSelectStatement) p) (parseSelectStatement ext fuel p).
Proof.
  intros Hselect. unfold parseSelectStatement. cbv zeta.
  change (curTokenIs (pool (Get KSelectStatement) p) SELECT)
    with (curTokenIs p SELECT).
  rewrite Hselect. cbn [negb].
  pose proof (R_refl (pool (Get KSelectStatement) p)) as H0.
  set (p0 := pool (Get KSelectStatement) p) in *. clearbody p0.
  frame_absorb.
  frame_branch; cbv iota beta; repeat frame_absorb;
    (eapply framed_bind;
     [ frame_branch; [| frame_finish]; frame_call parseTopClause_framed; frame_finish |]);
    intros top r2 Hr2;
    frame_call parseSelectList_framed;
    (eapply framed_bind;
     [ frame_branch; [| frame_finish]; frame_call parseFromClause_framed; frame_finish |]);
    intros from_ r4 Hr4;
    frame_call parseSelectStatement_joins_framed;
    (eapply framed_bind;
     [ frame_branch; [| frame_finish]; cbv zeta; frame_absorb;
       frame_call parseExpression_framed'; frame_finish |]);
    intros where_ r6 Hr6;
    (eapply framed_bind;
     [ frame_branch; [| frame_finish]; frame_tail parseGroupByClause_framed |]);
    intros groupBy r7 Hr7;
    (eapply framed_bind;
     [ frame_branch; [| frame_finish]; cbv zeta; frame_absorb;
       frame_call parseExpression_framed'; frame_finish |]);
    intros having r8 Hr8;
    (eapply framed_bind;
     [ frame_branch; [| frame_finish]; frame_tail parseOrderByClause_framed |]);
    intros orderBy r9 Hr9; frame_finish.
Qed.

End StatementsFrame.

End Frame.

(* ================================================================== *)
(** ** Object pools                                                     *)
(* ================================================================== *)

(** C8: on [SELECT TOP x] the statement node is not given back.
    [parseSelectStatement] obtains it from the pool and returns the error
    of [parseTopClause] as it is: one [Get] and no [Put]. *)
Theorem select_statement_is_leaked (ext : External) (fuel : nat) :
  exists p',
    ParseStatement ext fuel (New Scenario.topWithoutNumber)
    = Failed "expected number after TOP, got x" p'
    /\ pools p' = [Get KSelectStatement]
    /\ outstanding KSelectStatement (pools p') = 1%Z.
Proof.
  eexists. split; [vm_compute; reflexivity |].
  split; reflexivity.
Qed.

Lemma pools_nextToken (p : Parser) : pools (nextToken p) = pools p.
Proof.
  unfold nextToken. destruct (isDone (ctx p)); [reflexivity |].
  destruct (NextToken (l p)). reflexivity.
Qed.

Lemma outstanding_pool (k : NodeKind) (ev : PoolEvent) (p : Parser) :
  outstanding k (pools (pool ev p))
  = (outstanding k (pools p)
     + (if PoolEvent_eq_dec ev (Get k) then 1 else 0)
     - (if PoolEvent_eq_dec ev (Put k) then 1 else 0))%Z.
Proof.
  unfold outstanding, pool. simpl. rewrite !count_occ_app. simpl.
  destruct (PoolEvent_eq_dec ev (Get k)), (PoolEvent_eq_dec ev (Put k));
    lia.
Qed.

Lemma sameOutstanding_pool (k : NodeKind) (ev : PoolEvent) (p : Parser) :
  kindOf ev <> k -> sameOutstanding k p (pool ev p).
Proof.
  intros Hkind. unfold sameOutstanding. rewrite outstanding_pool.
  destruct (PoolEvent_eq_dec ev (Get k)) as [-> |];
    [now contradiction Hkind |].
  destruct (PoolEvent_eq_dec ev (Put k)) as [-> |];
    [now contradiction Hkind |].
  lia.
Qed.

Lemma sameOutstanding_nextToken (k : NodeKind) (p : Parser) :
  sameOutstanding k p (nextToken p).
Proof. unfold sameOutstanding. now rewrite pools_nextToken. Qed.

Lemma sameOutstanding_trans (k : NodeKind) (p q r : Parser) :
  sameOutstanding k p q -> sameOutstanding k q r -> sameOutstanding k p r.
Proof. unfold sameOutstanding. congruence. Qed.

Lemma sameOutstanding_refl (k : NodeKind) (p : Parser) :
  sameOutstanding k p p.
Proof. reflexivity. Qed.

Lemma sameOutstanding_addError (k : NodeKind) (p : Parser) (msg : string) :
  sameOutstanding k p (addError p msg).
Proof. reflexivity. Qed.

Ltac same_outstanding :=
  first [ apply sameOutstanding_refl | apply sameOutstanding_trans
        | apply sameOutstanding_nextToken | apply sameOutstanding_addError
        | apply sameOutstanding_pool | discriminate ].

(** Every failure of [parseSelectStatement] that comes after the SELECT
    keyword leaves the statement node outstanding. *)
Lemma select_statement_is_never_given_back (ext : External) (fuel : nat)
      (p p' : Parser) (err : string) :
  curTokenIs p SELECT = true ->
  parseSelectStatement ext fuel p = Failed err p' ->
  outstanding KSelectStatement (pools p')
  = (outstanding KSelectStatement (pools p) + 1)%Z.
Proof.
  intros Hselect Hrun.
  assert (H : framed (sameOutstanding KSelectStatement)
                     (pool (Get KSelectStatement) p)
                     (parseSelectStatement ext fuel p)).
  { apply (@parseSelectStatement_body_framed
             (sameOutstanding KSelectStatement)
             (fun ev => kindOf ev <> KSelectStatement));
      solve [same_outstanding | exact Hselect]. }
  rewrite Hrun in H. simpl in H. unfold sameOutstanding in H.
  rewrite H, outstanding_pool. simpl. lia.
Qed.

(** X22: on every failure [parseJoinClause] has given its node back to
    the pool, and it keeps it when it returns the clause. *)
Lemma join_clause_is_given_back (ext : External) (fuel : nat) (p : Parser) :
  match parseJoinClause ext fuel p with
  | Diverged => True
  | Failed _ p' =>
      outstanding KJoinClause (pools p') = outstanding KJoinClause (pools p)
  | Returned _ p' =>
      outstanding KJoinClause (pools p')
      = (outstanding KJoinClause (pools p) + 1)%Z
  end.
Proof.
  set (R := sameOutstanding KJoinClause).
  assert (Hexpr : forall q, framed R q (parseExpression ext fuel q)).
  { intros q.
    apply (@parseExpression_framed R (fun ev => kindOf ev <> KJoinClause));
      same_outstanding. }
  assert (Htable : forall q, framed R q (parseTableReference q)).
  { intros q. apply parseTableReference_framed; same_outstanding. }
  unfold parseJoinClause, parseJoinClause_typed, expectPeek. cbv zeta.
  set (p0 := pool (Get KJoinClause) p).
  assert (H0 : outstanding KJoinClause (pools p0)
               = (outstanding KJoinClause (pools p) + 1)%Z).
  { unfold p0. rewrite outstanding_pool. simpl. lia. }
  clearbody p0.
  assert (Htail : forall joinType q,
             outstanding KJoinClause (pools q)
             = (outstanding KJoinClause (pools p) + 1)%Z ->
             match
               match parseTableReference q with
               | Diverged => Diverged
               | Failed err p1 => Failed err (pool (Put KJoinClause) p1)
               | Returned table p1 =>
                   if negb (curTokenIs p1 ON)
                   then
                     let p2 := pool (Put KJoinClause) p1 in
                     Failed ("expected ON after JOIN table, got "
                             ++ Literal (curToken p2)) p2
                   else
                     let p2 := nextToken p1 in
                     match parseExpression ext fuel p2 with
                     | Diverged => Diverged
                     | Failed err p3 =>
                         Failed err (pool (Put KJoinClause) p3)
                     | Returned condition p3 =>
                         Returned (mkJoinClause joinType table
                                                (Some condition)) p3
                     end
               end
             with
             | Diverged => True
             | Failed _ p' =>
                 outstanding KJoinClause (pools p')
                 = outstanding KJoinClause (pools p)
             | Returned _ p' =>
                 outstanding KJoinClause (pools p')
                 = (outstanding KJoinClause (pools p) + 1)%Z
             end).
  { intros joinType q Hq. specialize (Htable q).
    destruct (parseTableReference q) as [| err q1 | table q1];
      simpl in Htable; unfold R, sameOutstanding in Htable; [exact I | |].
    - rewrite outstanding_pool. simpl. lia.
    - destruct (curTokenIs q1 ON); cbn [negb]; cbv iota zeta.
      + specialize (Hexpr (nextToken q1)).
        pose proof (pools_nextToken q1) as Hnext.
        destruct (parseExpression ext fuel (nextToken q1))
          as [| err q3 | cond q3];
          simpl in Hexpr; unfold R, sameOutstanding in Hexpr; [exact I | |].
        * rewrite outstanding_pool. simpl. rewrite Hexpr, Hnext. lia.
        * rewrite Hexpr, Hnext. lia.
      + rewrite outstanding_pool. simpl. lia. }
  assert (Htyped : forall keyword,
             match
               (let (ok, p1) :=
                  if peekTokenIs (nextToken p0) JOIN
                  then (true, nextToken (nextToken p0))
                  else (false, peekError ext (nextToken p0) JOIN) in
                if negb ok
                then Failed ("expected JOIN after " ++ keyword)
                            (pool (Put KJoinClause) p1)
                else Returned keyword p1)
             with
             | Diverged => False
             | Failed _ p' =>
                 outstanding KJoinClause (pools p')
                 = outstanding KJoinClause (pools p)
             | Returned _ p' =>
                 outstanding KJoinClause (pools p')
                 = (outstanding KJoinClause (pools p) + 1)%Z
             end).
  { intros keyword.
    destruct (peekTokenIs (nextToken p0) JOIN); cbn [negb]; cbv iota beta.
    - rewrite !pools_nextToken. exact H0.
    - rewrite outstanding_pool.
      change (pools (peekError ext (nextToken p0) JOIN))
        with (pools (nextToken p0)).
      rewrite pools_nextToken. simpl. lia. }
  repeat match goal with
         | |- context [if curTokenIs p0 ?T then _ else _] =>
             destruct (curTokenIs p0 T)
         end;
    try (match goal with
         | |- context [Failed ("expected JOIN after " ++ ?kw)] =>
             specialize (Htyped kw)
         end;
         match type of Htyped with
         | match ?r with _ => _ end =>
             destruct r as [| err q | jt q]; simpl;
             [contradiction | exact Htyped | apply Htail; exact Htyped]
         end).
  - simpl. apply Htail. rewrite pools_nextToken. exact H0.
  - simpl. apply Htail. exact H0.
Qed.

(* ================================================================== *)
(** ** Cancellation                                                     *)
(* ================================================================== *)

(** C5, as the code has it: once the context is done, every call of
    [nextToken] leaves both tokens, the lexer and the token count as they
    are and appends one cancellation error, so [n] calls append [n]. *)
Theorem nextToken_after_cancellation (n : nat) (p : Parser) :
  isDone (ctx p) = true ->
  let p' := Nat.iter n nextToken p in
  curToken p' = curToken p
  /\ peekToken p' = peekToken p
  /\ l p' = l p
  /\ tokenCount p' = tokenCount p
  /\ ctx p' = ctx p
  /\ errors p' = errors p ++ repeat cancelled n.
Proof.
  intros Hdone. induction n as [| n IH]; simpl.
  - repeat split. now rewrite app_nil_r.
  - destruct IH as (Hcur & Hpeek & Hl & Hcount & Hctx & Herr).
    rewrite nextToken_done by (rewrite Hctx; exact Hdone).
    simpl. repeat split; try assumption.
    rewrite Herr, <- app_assoc. f_equal.
    symmetry. apply repeat_cons.
Qed.

Lemma nextToken_after_cancellation_witness :
  let p := NewWithContext (DoneAfter 2) Scenario.topTen in
  isDone (ctx p) = true
  /\ curToken (Nat.iter 3 nextToken p) = curToken p
  /\ errors (Nat.iter 3 nextToken p) = [cancelled; cancelled; cancelled].
Proof.
  split; [reflexivity |].
  pose proof (nextToken_after_cancellation 3
                (NewWithContext (DoneAfter 2) Scenario.topTen) eq_refl)
    as (Hcur & _ & _ & _ & _ & Herr).
  split; [exact Hcur | exact Herr].
Defined.

(** C5, as stated, fails on [SELECT TOP 10 *] when the context is done
    after four advances: the parse makes two more attempts, returns a
    statement, and the error list holds two cancellation errors. *)
Lemma two_cancellation_errors :
  exists stmt p',
    ParseStatement Scenario.scenarioExt 1
      (NewWithContext (DoneAfter 4) Scenario.topTen)
    = Returned stmt p'
    /\ cancellationErrors p' = 2%nat
    /\ cancellationErrors p' <> 1%nat.
Proof.
  eexists. eexists. split; [vm_compute; reflexivity |].
  split; [reflexivity | vm_compute; discriminate].
Qed.

(** With the context done and [*] as the current token, the loop of
    [parseInfixExpression] never ends: [*] is an infix operator and a
    primary, and no attempt to advance moves past it. *)
Lemma asterisk_loop_diverges (ext : External)
      (rec : Parser -> Outcome Expression) (fuel n : nat) :
  forall (left : Expression) (p : Parser),
    isDone (ctx p) = true ->
    Type_ (curToken p) = ASTERISK ->
    parseInfixExpression_loop ext rec fuel n left p = Diverged.
Proof.
  induction n as [| n IH]; intros left p Hdone Hcur; simpl; rewrite Hcur;
    simpl; [reflexivity |].
  rewrite nextToken_done by exact Hdone.
  unfold parsePrimaryExpression. simpl. rewrite Hcur. simpl.
  apply IH; simpl.
  - rewrite nextToken_done by exact Hdone. exact Hdone.
  - rewrite nextToken_done by exact Hdone. exact Hcur.
Qed.

(** C4: on [SELECT a * b], with a context that is done after four
    advances, [ParseStatement] does not return, whatever the fuel: the
    cancellation is observed with [*] as the current token, inside the
    loop of [parseInfixExpression]. *)
Theorem cancelled_parse_diverges (ext : External) (fuel : nat) :
  ParseStatement ext fuel (NewWithContext (DoneAfter 4) Scenario.product)
  = Diverged.
Proof.
  destruct fuel as [| fuel]; [reflexivity |].
  unfold ParseStatement, parseSelectStatement, parseSelectList. simpl.
  unfold parseInfixExpression at 1.
  unfold parsePrimaryExpression at 1. simpl.
  rewrite asterisk_loop_diverges; reflexivity.
Qed.

Lemma frozen_trans (p q r : Parser) : frozen p q -> frozen q r -> frozen p r.
Proof.
  unfold frozen. intros Hpq Hqr Hdone.
  destruct (Hpq Hdone) as (Hc & Hp & Hl & Ht & Hx).
  assert (Hdone' : isDone (ctx q) = true) by (rewrite Hx; exact Hdone).
  destruct (Hqr Hdone') as (Hc' & Hp' & Hl' & Ht' & Hx').
  repeat split; congruence.
Qed.

Lemma frozen_nextToken (p : Parser) : frozen p (nextToken p).
Proof.
  intros Hdone. rewrite nextToken_done by exact Hdone. repeat split.
Qed.

(** X23: once the context is done, a whole run of [ParseStatement]
    leaves the two tokens, the lexer and the token count as they are. *)
Lemma parse_is_frozen_after_cancellation (ext : External) (fuel : nat)
      (p : Parser) :
  framed frozen p (ParseStatement ext fuel p).
Proof.
  assert (Hrefl : forall q, frozen q q) by (intros q _; repeat split).
  assert (Herr : forall q msg, frozen q (addError q msg))
    by (intros q msg _; repeat split).
  assert (Hpool : forall ev q, True -> frozen q (pool ev q))
    by (intros ev q _ _; repeat split).
  unfold ParseStatement, parseInsertStatement, parseUpdateStatement,
    parseDeleteStatement.
  destruct (Type_ (curToken p)) eqn:Hcur; simpl; try apply Hrefl.
  pose proof (@parseSelectStatement_body_framed
                frozen (fun _ => True) Hrefl frozen_trans frozen_nextToken
                Herr Hpool ext fuel I I I I p
                ltac:(unfold curTokenIs; rewrite Hcur; reflexivity)) as H.
  destruct (parseSelectStatement ext fuel p) as [| err q | stmt q];
    simpl in *; [exact I | |];
    (eapply frozen_trans; [apply (Hpool (Get KSelectStatement) p I) |]);
    exact H.
Qed.

(* ================================================================== *)
(** ** Parsing under context.Background() returns                        *)
(* ================================================================== *)

(** Every advance made on a token that is not an end-of-input token
    lowers [weight]; every loop and every nested expression starts with
    such an advance.  With more fuel than [weight], no run is cut short. *)

Lemma live_of_type (t : Token) (ty : TokenType) :
  Type_ t = ty -> ty <> EOF -> live t = 1.
Proof.
  unfold live. intros -> Hne. now rewrite TokenType_eqb_diff.
Qed.

Lemma live_curTokenIs (p : Parser) (ty : TokenType) :
  curTokenIs p ty = true -> ty <> EOF -> live (curToken p) = 1.
Proof.
  intros H Hne. apply live_of_type with (ty := ty); [| exact Hne].
  now apply curTokenIs_true.
Qed.

Lemma live_infix (p : Parser) :
  isInfixOperator (Type_ (curToken p)) = true -> live (curToken p) = 1.
Proof.
  intros H. unfold live.
  destruct (Type_ (curToken p)); try discriminate; reflexivity.
Qed.

Lemma live_le_weight (p : Parser) : live (curToken p) <= weight p.
Proof. unfold weight. lia. Qed.

Lemma nextToken_quiet (p : Parser) :
  ctx p = Background ->
  ctx (nextToken p) = Background
  /\ errors (nextToken p) = errors p
  /\ weight (nextToken p) + live (curToken p) = weight p.
Proof.
  intros Hctx. unfold nextToken, NextToken, weight. rewrite Hctx. simpl.
  destruct (pending (l p)) as [| t rest] eqn:Hpending; simpl;
    repeat split; try reflexivity.
  - rewrite Hpending.
    change (live (mkToken EOF "" (eofLine (l p)) (eofColumn (l p)))) with 0.
    simpl. lia.
  - lia.
Qed.

Lemma bounded_bind (A B : Type) (e : list string) (w w' : nat)
      (m : Outcome A) (k : A -> Parser -> Outcome B) :
  bounded e w m ->
  (forall a p', ctx p' = Background -> errors p' = e -> weight p' <= w ->
                bounded e w' (k a p')) ->
  bounded e w' (bind m k).
Proof.
  destruct m as [| err p' | a p']; simpl; intros H Hk; auto.
  destruct H as (Hc & He & Hw). now apply Hk.
Qed.

Lemma bounded_weaken (A : Type) (e e' : list string) (w w' : nat)
      (r : Outcome A) :
  bounded e w r -> e = e' -> w <= w' -> bounded e' w' r.
Proof.
  destruct r; simpl; auto. intros (Hc & He & Hw) <- Hle.
  repeat split; auto. lia.
Qed.

(** Forget how a state was reached and keep what matters of it. *)
Ltac absorb :=
  match goal with
  | |- context [nextToken ?q] =>
      is_var q;
      let Hc := fresh "Hc" in
      let He := fresh "He" in
      let Hw := fresh "Hw" in
      let q' := fresh "q" in
      destruct (nextToken_quiet q ltac:(congruence)) as (Hc & He & Hw);
      set (q' := nextToken q) in *; clearbody q'
  | |- context [pool ?ev ?q] =>
      is_var q;
      let Hc := fresh "Hc" in
      let He := fresh "He" in
      let Hw := fresh "Hw" in
      let Ht := fresh "Ht" in
      let q' := fresh "q" in
      assert (Hc : ctx (pool ev q) = ctx q) by reflexivity;
      assert (He : errors (pool ev q) = errors q) by reflexivity;
      assert (Hw : weight (pool ev q) = weight q) by reflexivity;
      assert (Ht : curToken (pool ev q) = curToken q) by reflexivity;
      set (q' := pool ev q) in *; clearbody q'
  | |- context [peekError ?ext ?q ?t] =>
      is_var q;
      let q' := fresh "q" in
      set (q' := peekError ext q t) in *; clearbody q'
  end.

(** What is known of the current tokens: those whose kind is known are
    not end-of-input tokens. *)
Ltac live_facts :=
  repeat match goal with
  | H : curTokenIs ?q ?T = true |- _ =>
      lazymatch goal with
      | _ : live (curToken q) = 1 |- _ => fail
      | _ => pose proof (live_curTokenIs q T H ltac:(discriminate))
      end
  | H : Type_ (curToken ?q) = ?T |- _ =>
      lazymatch goal with
      | _ : live (curToken q) = 1 |- _ => fail
      | _ => pose proof (@live_of_type (curToken q) T H ltac:(discriminate))
      end
  | H : isInfixOperator (Type_ (curToken ?q)) = true |- _ =>
      lazymatch goal with
      | _ : live (curToken q) = 1 |- _ => fail
      | _ => pose proof (live_infix q H)
      end
  end;
  repeat match goal with
  | H : curToken ?q' = curToken ?q |- _ => rewrite H in *; clear H
  end;
  repeat match goal with
  | q : Parser |- _ =>
      lazymatch goal with
      | _ : live (curToken q) <= weight q |- _ => fail
      | _ => pose proof (live_le_weight q)
      end
  end.

(** A run that has ended. *)
Ltac finish :=
  match goal with
  | |- bounded _ _ (Failed _ _) => exact I
  | |- bounded _ _ Diverged => exfalso; live_facts; lia
  | |- bounded _ _ (Returned _ _) =>
      simpl; split; [congruence | split; [congruence | live_facts; lia]]
  end.

(** Follow both branches of a test. *)
Ltac branch :=
  match goal with
  | |- bounded _ _ (match ?c with _ => _ end) =>
      first
        [ match c with
          | context [curTokenIs ?q ?T] => destruct (curTokenIs q T) eqn:?
          end
        | match c with
          | context [peekTokenIs ?q ?T] => destruct (peekTokenIs q T) eqn:?
          end
        | destruct c eqn:? ];
      cbn [negb andb orb]
  end.

Ltac side := first [ congruence | live_facts; lia ].

(** A method called in the middle of a body, and one called last. *)
Ltac call lemma :=
  eapply bounded_bind;
  [ eapply bounded_weaken;
    [ eapply lemma; side | congruence | apply Nat.le_refl ]
  | intros ? ? ? ? ? ].

Ltac tail lemma :=
  eapply bounded_weaken; [ eapply lemma; side | congruence | side ].

Section ExpressionsReturn.

Variable ext : External.
Variable rec : Parser -> Outcome Expression.
Variable fuel m : nat.
Hypothesis rec_ok :
  forall q, ctx q = Background -> weight q < m ->
            bounded (errors q) (weight q) (rec q).

Lemma parseFunctionCall_loop_ok (n : nat) :
  forall (arguments : list Expression) (p : Parser),
    ctx p = Background -> weight p <= n -> weight p <= m ->
    bounded (errors p) (weight p)
            (parseFunctionCall_loop rec n arguments p).
Proof.
  induction n as [| n IH]; intros arguments p Hctx Hn Hm; simpl.
  - branch; finish.
  - branch; [| finish]. cbv zeta. absorb.
    call rec_ok. tail IH.
Qed.

Lemma parsePrimaryExpression_ok (p : Parser) :
  ctx p = Background -> weight p <= fuel -> weight p <= m ->
  bounded (errors p) (weight p) (parsePrimaryExpression ext rec fuel p).
Proof.
  intros Hctx Hfuel Hm.
  unfold parsePrimaryExpression, parseIdentifierExpression,
    parseFunctionCall, parseNumberLiteral, parseStringLiteral,
    parseGroupedExpression, expectPeek.
  branch; cbv zeta; repeat absorb; try finish.
  - (* IDENT *)
    repeat (branch; cbv zeta; repeat absorb; try finish).
    match goal with
    | |- context [rec ?q] => eapply bounded_bind with (w := weight q)
    end.
    + branch; [finish |]. call rec_ok. tail parseFunctionCall_loop_ok.
    + intros. repeat (branch; cbv zeta; repeat absorb; try finish).
  - (* NUMBER *)
    repeat (branch; cbv zeta; repeat absorb; try finish).
  - (* LPAREN *)
    call rec_ok.
    repeat (branch; cbv zeta; repeat absorb; try finish).
Qed.

Lemma parseInfixExpression_loop_ok (n : nat) :
  forall (left : Expression) (p : Parser),
    ctx p = Background -> weight p <= n -> weight p <= fuel ->
    weight p <= m ->
    bounded (errors p) (weight p)
            (parseInfixExpression_loop ext rec fuel n left p).
Proof.
  induction n as [| n IH]; intros left p Hctx Hn Hfuel Hm; simpl.
  - branch; finish.
  - branch; [| finish]. cbv zeta. absorb.
    call parsePrimaryExpression_ok. absorb. tail IH.
Qed.

Lemma parseInfixExpression_ok (p : Parser) :
  ctx p = Background -> weight p <= fuel -> weight p <= m ->
  bounded (errors p) (weight p) (parseInfixExpression ext rec fuel p).
Proof.
  intros Hctx Hfuel Hm. unfold parseInfixExpression.
  call parsePrimaryExpression_ok. tail parseInfixExpression_loop_ok.
Qed.

End ExpressionsReturn.

Lemma parseExpression_ok (ext : External) (fuel : nat) :
  forall p : Parser,
    ctx p = Background -> weight p < fuel ->
    bounded (errors p) (weight p) (parseExpression ext fuel p).
Proof.
  induction fuel as [| fuel IH]; intros p Hctx Hfuel; [lia |].
  simpl. apply parseInfixExpression_ok with (m := fuel); auto; lia.
Qed.

Section StatementsReturn.

Variable ext : External.
Variable fuel : nat.

Ltac work := repeat (branch; cbv zeta; repeat absorb; try finish).

Lemma parseTopClause_ok (p : Parser) :
  ctx p = Background ->
  bounded (errors p) (weight p) (parseTopClause ext p).
Proof.
  intros Hctx. unfold parseTopClause. work.
Qed.

Lemma parseSelectList_loop_ok (n : nat) :
  forall (columns : list Expression) (p : Parser),
    ctx p = Background -> weight p <= n -> weight p < fuel ->
    bounded (errors p) (weight p) (parseSelectList_loop ext fuel n columns p).
Proof.
  induction n as [| n IH]; intros columns p Hctx Hn Hfuel; simpl.
  - branch; finish.
  - branch; [| finish]. cbv zeta. absorb. branch.
    + absorb. tail IH.
    + call parseExpression_ok. tail IH.
Qed.

Lemma parseSelectList_ok (p : Parser) :
  ctx p = Background -> weight p < fuel ->
  bounded (errors p) (weight p) (parseSelectList ext fuel p).
Proof.
  intros Hctx Hfuel. unfold parseSelectList. branch.
  - absorb. finish.
  - call parseExpression_ok. tail parseSelectList_loop_ok.
Qed.

Lemma parseTableReference_ok (p : Parser) :
  ctx p = Background ->
  bounded (errors p) (pred (weight p)) (parseTableReference p).
Proof.
  intros Hctx. unfold parseTableReference.
  branch; [| finish]. cbv zeta. absorb.
  eapply bounded_bind with (w := pred (weight p)).
  - work.
  - intros. work.
Qed.

Lemma parseFromClause_loop_ok (n : nat) :
  forall (tables : list TableReference) (p : Parser),
    ctx p = Background -> weight p <= n ->
    bounded (errors p) (weight p) (parseFromClause_loop n tables p).
Proof.
  induction n as [| n IH]; intros tables p Hctx Hn; simpl.
  - branch; finish.
  - branch; [| finish]. cbv zeta. absorb.
    call parseTableReference_ok. tail IH.
Qed.

Lemma parseFromClause_ok (p : Parser) :
  ctx p = Background -> weight p < fuel ->
  bounded (errors p) (weight p) (parseFromClause fuel p).
Proof.
  intros Hctx Hfuel. unfold parseFromClause.
  branch; [| finish]. cbv zeta. absorb.
  call parseTableReference_ok. call parseFromClause_loop_ok. finish.
Qed.

Lemma live_isJoinStart (p : Parser) :
  isJoinStart p = true -> live (curToken p) = 1.
Proof.
  unfold isJoinStart. intros H.
  repeat (apply orb_true_iff in H; destruct H as [H | H]);
    eapply live_curTokenIs; try exact H; discriminate.
Qed.

Lemma parseJoinClause_ok (p : Parser) :
  ctx p = Background -> weight p < fuel ->
  bounded (errors p) (pred (weight p)) (parseJoinClause ext fuel p).
Proof.
  intros Hctx Hfuel.
  unfold parseJoinClause, parseJoinClause_typed, expectPeek.
  cbv zeta. absorb.
  eapply bounded_bind with (w := weight p).
  - work.
  - intros joinType r Hr Her Hwr.
    pose proof (parseTableReference_ok r Hr) as Htable.
    destruct (parseTableReference r) as [| err r1 | table r1];
      [contradiction | exact I |].
    destruct Htable as (Hr1 & Her1 & Hwr1).
    branch; [| finish]. cbv zeta. absorb.
    match goal with
    | |- context [parseExpression ext fuel ?r2] =>
        pose proof (@parseExpression_ok ext fuel r2 ltac:(congruence)
                      ltac:(live_facts; lia)) as Hcond;
        destruct (parseExpression ext fuel r2) as [| err r3 | cond r3];
        [contradiction | exact I |]
    end.
    destruct Hcond as (Hr3 & Her3 & Hwr3). finish.
Qed.

Lemma parseSelectStatement_joins_ok (n : nat) :
  forall (joins : list JoinClause) (p : Parser),
    ctx p = Background -> weight p <= n -> weight p < fuel ->
    bounded (errors p) (weight p)
            (parseSelectStatement_joins ext fuel n joins p).
Proof.
  induction n as [| n IH]; intros joins p Hctx Hn Hfuel; simpl.
  - destruct (isJoinStart p) eqn:Hjoin; [| finish].
    apply live_isJoinStart in Hjoin. finish.
  - destruct (isJoinStart p) eqn:Hjoin; [| finish].
    apply live_isJoinStart in Hjoin.
    call parseJoinClause_ok. tail IH.
Qed.

Lemma parseGroupByClause_loop_ok (n : nat) :
  forall (expressions : list Expression) (p : Parser),
    ctx p = Background -> weight p <= n -> weight p < fuel ->
    bounded (errors p) (weight p)
            (parseGroupByClause_loop ext fuel n expressions p).
Proof.
  induction n as [| n IH]; intros expressions p Hctx Hn Hfuel; simpl.
  - branch; finish.
  - branch; [| finish]. cbv zeta. absorb.
    call parseExpression_ok. tail IH.
Qed.

Lemma parseGroupByClause_ok (p : Parser) :
  ctx p = Background -> weight p < fuel ->
  bounded (errors p) (weight p) (parseGroupByClause ext fuel p).
Proof.
  intros Hctx Hfuel. unfold parseGroupByClause, expectPeek.
  branch; [| finish]. cbv zeta. absorb.
  branch; cbv iota beta; cbn [negb]; [| finish]. repeat absorb.
  call parseExpression_ok. tail parseGroupByClause_loop_ok.
Qed.

Lemma parseOrderByItem_ok (p : Parser) :
  ctx p = Background -> weight p < fuel ->
  bounded (errors p) (weight p) (parseOrderByItem ext fuel p).
Proof.
  intros Hctx Hfuel. unfold parseOrderByItem.
  call parseExpression_ok. work.
Qed.

Lemma parseOrderByClause_loop_ok (n : nat) :
  forall (clauses : list OrderByClause) (p : Parser),
    ctx p = Background -> weight p <= n -> weight p < fuel ->
    bounded (errors p) (weight p)
            (parseOrderByClause_loop ext fuel n clauses p).
Proof.
  induction n as [| n IH]; intros clauses p Hctx Hn Hfuel; simpl.
  - branch; finish.
  - branch; [| finish]. cbv zeta. absorb.
    call parseOrderByItem_ok. tail IH.
Qed.

Lemma parseOrderByClause_ok (p : Parser) :
  ctx p = Background -> weight p < fuel ->
  bounded (errors p) (weight p) (parseOrderByClause ext fuel p).
Proof.
  intros Hctx Hfuel. unfold parseOrderByClause, expectPeek.
  branch; [| finish]. cbv zeta. absorb.
  branch; cbv iota beta; cbn [negb]; [| finish]. repeat absorb.
  call parseOrderByItem_ok. tail parseOrderByClause_loop_ok.
Qed.

Lemma parseSelectStatement_ok (p : Parser) :
  ctx p = Background -> weight p < fuel ->
  bounded (errors p) (weight p) (parseSelectStatement ext fuel p).
Proof.
  intros Hctx Hfuel. unfold parseSelectStatement.
  cbv zeta. absorb. branch; [| absorb; finish]. absorb.
  branch; cbv iota beta; repeat absorb;
    (eapply bounded_bind with (w := weight p);
     [ branch; [| finish]; call parseTopClause_ok; finish |]);
    intros top r2 Hr2 Her2 Hwr2;
    call parseSelectList_ok;
    (eapply bounded_bind with (w := weight p);
     [ branch; [| finish]; call parseFromClause_ok; finish |]);
    intros from_ r4 Hr4 Her4 Hwr4;
    call parseSelectStatement_joins_ok;
    (eapply bounded_bind with (w := weight p);
     [ branch; [| finish]; cbv zeta; absorb; call parseExpression_ok; finish
     |]);
    intros where_ r6 Hr6 Her6 Hwr6;
    (eapply bounded_bind with (w := weight p);
     [ branch; [| finish]; tail parseGroupByClause_ok |]);
    intros groupBy r7 Hr7 Her7 Hwr7;
    (eapply bounded_bind with (w := weight p);
     [ branch; [| finish]; cbv zeta; absorb; call parseExpression_ok; finish
     |]);
    intros having r8 Hr8 Her8 Hwr8;
    (eapply bounded_bind with (w := weight p);
     [ branch; [| finish]; tail parseOrderByClause_ok |]);
    intros orderBy r9 Hr9 Her9 Hwr9; finish.
Qed.

Lemma ParseStatement_ok (p : Parser) :
  ctx p = Background -> weight p < fuel ->
  bounded (errors p) (weight p) (ParseStatement ext fuel p).
Proof.
  intros Hctx Hfuel.
  unfold ParseStatement, parseInsertStatement, parseUpdateStatement,
    parseDeleteStatement.
  branch; try finish.
  call parseSelectStatement_ok. finish.
Qed.

End StatementsReturn.

Lemma New_quiet (input : Lexer) :
  ctx (New input) = Background
  /\ errors (New input) = []
  /\ weight (New input) <= List.length (pending input).
Proof.
  unfold New, NewWithContext.
  set (p0 := mkParser input zeroToken zeroToken [] 0 Background []).
  destruct (nextToken_quiet p0 eq_refl) as (Hc1 & He1 & Hw1).
  destruct (nextToken_quiet (nextToken p0) Hc1) as (Hc2 & He2 & Hw2).
  assert (Hcur : live (curToken (nextToken p0)) = 1).
  { unfold nextToken. simpl. destruct (NextToken input). reflexivity. }
  assert (Hp0 : weight p0 = 2 + list_sum (map live (pending input)))
    by reflexivity.
  assert (Hsum : forall ts, list_sum (map live ts) <= List.length ts).
  { induction ts as [| t ts IH]; simpl; [lia |].
    unfold live at 1. destruct (TokenType_eqb (Type_ t) EOF); lia. }
  specialize (Hsum (pending input)).
  change (live (curToken p0)) with 1 in Hw1.
  split; [exact Hc2 |]. split; [now rewrite He2, He1 | lia].
Qed.

(** Under [context.Background()] the result of [ParseStatement] is the
    same for every amount of fuel above the number of tokens. *)
Lemma ParseStatement_settles (ext : External) (input : Lexer) :
  exists r,
    r <> Diverged
    /\ forall fuel, List.length (pending input) < fuel ->
                    ParseStatement ext fuel (New input) = r.
Proof.
  destruct (New_quiet input) as (Hc & He & Hw).
  exists (ParseStatement ext (S (List.length (pending input))) (New input)).
  pose proof (@ParseStatement_ok ext (S (List.length (pending input)))
                (New input) Hc ltac:(lia)) as Hok.
  split.
  - intros Hcut. rewrite Hcut in Hok. exact Hok.
  - intros fuel Hfuel.
    destruct (@ParseStatement_fuel ext (S (List.length (pending input)))
                fuel ltac:(lia) (New input)) as [Hcut | Hsame];
      [| exact Hsame].
    rewrite Hcut in Hok. contradiction.
Qed.

(** X27: under [context.Background()] and for every token sequence,
    [ParseStatement] returns (with fuel above the number of tokens), and
    when it returns without an error the list of [Errors] is empty;
    nothing is said here of the list when it returns an error. *)
Theorem ParseStatement_returns (ext : External) (input : Lexer) (k : nat) :
  statementOrError
    (ParseStatement ext (S (List.length (pending input)) + k) (New input)).
Proof.
  destruct (New_quiet input) as (Hc & He & Hw).
  pose proof (@ParseStatement_ok ext (S (List.length (pending input)) + k)
                (New input) Hc ltac:(lia)) as H.
  destruct (ParseStatement ext (S (List.length (pending input)) + k)
                           (New input))
    as [| err p' | stmt p']; simpl in *; auto.
  destruct H as (_ & H & _). unfold Errors. congruence.
Qed.

(* ================================================================== *)
(** ** What ParseStatement returns                                      *)
(* ================================================================== *)

(** C3: on [SELECT TOP x] the parse fails and no diagnostic is recorded.
    [parseTopClause] returns the error "expected number after TOP, got x"
    without a word to the error list, so that [Errors] is empty; and the
    [Statement] that [ParseStatement] returns beside the error is not nil,
    but an interface that holds the nil [*SelectStatement]. *)
Theorem failed_parse_records_nothing (ext : External) (fuel : nat) :
  exists p',
    ParseStatement ext fuel (New Scenario.topWithoutNumber)
    = Failed "expected number after TOP, got x" p'
    /\ Errors p' = []
    /\ returnedStatement ext fuel (New Scenario.topWithoutNumber)
       = Some (NilPointer SelectPointer)
    /\ isNil (NilPointer SelectPointer) = false.
Proof.
  eexists. split; [reflexivity |].
  repeat split.
Qed.

(** The same in the words of the specification: the result on
    [SELECT TOP x] is neither a statement with an empty list of
    diagnostics nor a failure with a list that is not empty. *)
Lemma failure_without_diagnostics :
  exists p',
    ParseStatement Scenario.scenarioExt 1 (New Scenario.topWithoutNumber)
    = Failed "expected number after TOP, got x" p'
    /\ Errors p' = []
    /\ ~ statementOrDiagnostics
          (ParseStatement Scenario.scenarioExt 1
                          (New Scenario.topWithoutNumber)).
Proof.
  eexists. split; [vm_compute; reflexivity |].
  split; [reflexivity |].
  vm_compute. intros H. apply H. reflexivity.
Qed.

(** The returned error does not tell where the offending token stands:
    the same statement laid out over other lines and columns fails with
    the same text, and with an empty list of [Errors] as well. *)
Example failure_without_position :
  exists p',
    ParseStatement Scenario.scenarioExt 1
                   (New Scenario.topWithoutNumberElsewhere)
    = Failed "expected number after TOP, got x" p'
    /\ Errors p' = [].
Proof.
  eexists. split; [vm_compute; reflexivity | reflexivity].
Qed.

(* ================================================================== *)
(** ** Infix chains                                                     *)
(* ================================================================== *)

Lemma isInfixOperator_spec (t : TokenType) :
  isInfixOperator t = true <-> In t infixOperators.
Proof.
  unfold infixOperators. split.
  - destruct t; simpl; intros H; try discriminate; tauto.
  - simpl. intros H.
    repeat (destruct H as [<- | H]; [reflexivity |]). contradiction.
Qed.

Lemma parseInfixExpression_loop_chain (ext : External)
      (rec : Parser -> Outcome Expression) (fuel : nat)
      (rest : list (string * Expression)) :
  forall (n : nat) (left : Expression) (q q_end : Parser),
    chained ext rec fuel q rest q_end ->
    isInfixOperator (Type_ (curToken q_end)) = false ->
    List.length rest <= n ->
    parseInfixExpression_loop ext rec fuel n left q
    = Returned (leftNested left rest) q_end.
Proof.
  induction rest as [| [operator operand] rest IH];
    intros n left q q_end Hchain Hend Hn.
  - simpl in Hchain. subst q_end.
    destruct n; simpl; rewrite Hend; reflexivity.
  - destruct Hchain as (Hop & -> & q' & Hprimary & Hchain).
    destruct n as [| n]; simpl in Hn; [lia |].
    simpl. rewrite Hop, Hprimary. simpl.
    apply IH; [exact Hchain | exact Hend | lia].
Qed.

(** When the first primary is parsed as [p1], and each infix operator
    that follows is followed by a primary that is parsed (as listed in
    [rest], whatever the operators are), [parseInfixExpression] returns the
    left-nested tree over [p1] and [rest], and stops at the first token
    that is not an infix operator. *)
Theorem infix_chain_is_left_nested (ext : External)
        (rec : Parser -> Outcome Expression) (fuel : nat)
        (p q q_end : Parser) (p1 : Expression)
        (rest : list (string * Expression)) :
  parsePrimaryExpression ext rec fuel p = Returned p1 q ->
  chained ext rec fuel q rest q_end ->
  isInfixOperator (Type_ (curToken q_end)) = false ->
  List.length rest <= fuel ->
  parseInfixExpression ext rec fuel p = Returned (leftNested p1 rest) q_end.
Proof.
  intros Hfirst Hchain Hend Hfuel.
  unfold parseInfixExpression. rewrite Hfirst. simpl.
  now apply parseInfixExpression_loop_chain.
Qed.

(** [a + b * c] is parsed as [(a + b) * c]. *)
Lemma infix_chain_is_left_nested_witness :
  exists q_end,
    parseExpression Scenario.scenarioExt 2 (New Scenario.sumProduct)
    = Returned
        (BinaryExpression
           (BinaryExpression (ColumnReference "" "a") "+"
                             (ColumnReference "" "b"))
           "*" (ColumnReference "" "c"))
        q_end
    /\ Type_ (curToken q_end) = EOF.
Proof.
  eexists. split.
  - change (parseExpression Scenario.scenarioExt 2 ?p)
      with (parseInfixExpression Scenario.scenarioExt
              (parseExpression Scenario.scenarioExt 1) 2 p).
    eapply (@infix_chain_is_left_nested Scenario.scenarioExt
              (parseExpression Scenario.scenarioExt 1) 2
              (New Scenario.sumProduct) _ _ (ColumnReference "" "a")
              [("+", ColumnReference "" "b"); ("*", ColumnReference "" "c")]).
    + vm_compute. reflexivity.
    + simpl. split; [reflexivity |]. split; [reflexivity |].
      eexists. split; [vm_compute; reflexivity |].
      split; [reflexivity |]. split; [reflexivity |].
      eexists. split; [vm_compute; reflexivity |]. reflexivity.
    + reflexivity.
    + simpl. lia.
  - reflexivity.
Defined.

(** C6: a chain with a parenthesised primary is not built.  On
    [SELECT a + (b) FROM t] the primary after [+] is refused: once [b] is
    read the current token is the closing parenthesis, and
    [parseGroupedExpression] asks for it as the token after the current
    one, which is FROM.  On [SELECT (a) + b FROM t] the first primary is
    refused in the same way, the token after the parenthesis being [+].
    Both statements fail with "expected ')' to close grouped expression"
    and one syntax error, and no [BinaryExpression] is returned. *)
Theorem parenthesised_operand_is_rejected (ext : External) (fuel : nat) :
  (exists p',
      ParseStatement ext (S (S fuel)) (New Scenario.sumWithGrouped)
      = Failed "expected ')' to close grouped expression" p'
      /\ Type_ (curToken p') = RPAREN
      /\ Type_ (peekToken p') = FROM
      /\ Errors p' = [SyntaxErrorText ext (TokenTypeString ext RPAREN)
                        (TokenTypeString ext FROM) 1 16])
  /\ (exists p',
         ParseStatement ext (S (S fuel)) (New Scenario.groupedPlus)
         = Failed "expected ')' to close grouped expression" p'
         /\ Type_ (curToken p') = RPAREN
         /\ Type_ (peekToken p') = PLUS
         /\ Errors p' = [SyntaxErrorText ext (TokenTypeString ext RPAREN)
                           (TokenTypeString ext PLUS) 1 12]).
Proof.
  split; (eexists; split; [vm_compute; reflexivity | repeat split]).
Qed.

Lemma ahead_nextToken (p : Parser) (k : nat) :
  ctx p = Background -> ahead (nextToken p) k = ahead p (S k).
Proof.
  intros Hctx. unfold ahead, nextToken, NextToken. rewrite Hctx. simpl.
  destruct (pending (l p)) as [| t rest] eqn:Hpending; simpl.
  - rewrite Hpending. destruct k as [| [| k]]; simpl; try reflexivity.
    destruct k; reflexivity.
  - reflexivity.
Qed.

Lemma sees_nextToken {p : Parser} {t : Token} {ts : list Token} :
  ctx p = Background -> sees p (t :: ts) -> sees (nextToken p) ts.
Proof.
  intros Hctx Hsees k t' Hk. rewrite ahead_nextToken by exact Hctx.
  apply Hsees. exact Hk.
Qed.

Lemma sees_head {p : Parser} {t : Token} {ts : list Token} :
  sees p (t :: ts) -> curToken p = t.
Proof. intros Hsees. exact (Hsees 0 t eq_refl). Qed.

Lemma sees_pool (ev : PoolEvent) {p : Parser} {ts : list Token} :
  sees p ts -> sees (pool ev p) ts.
Proof. intros Hsees k t Hk. exact (Hsees k t Hk). Qed.

Lemma identifier_is_column (ext : External)
      (rec : Parser -> Outcome Expression) (fuel : nat)
      (p : Parser) (x next : Token) (ts : list Token) :
  ctx p = Background ->
  sees p (x :: next :: ts) ->
  Type_ x = IDENT ->
  Type_ next <> DOT -> Type_ next <> LPAREN ->
  parsePrimaryExpression ext rec fuel p
  = Returned (ColumnReference "" (Literal x))
             (pool (Get KColumnReference) (nextToken p)).
Proof.
  intros Hctx Hsees Hident Hdot Hparen.
  pose proof (sees_head Hsees) as Hcur.
  pose proof (sees_head (sees_nextToken Hctx Hsees)) as Hnext.
  unfold parsePrimaryExpression, parseIdentifierExpression.
  rewrite Hcur, Hident. cbv zeta. unfold curTokenIs. rewrite Hnext.
  rewrite !TokenType_eqb_diff by assumption. reflexivity.
Qed.

Lemma identifier_chain_loop (ext : External)
      (rec : Parser -> Outcome Expression) (fuel : nat) (t_end : Token)
      (more : list Token) (steps : list (Token * Token)) :
  forall (n : nat) (left : Expression) (p : Parser),
    ctx p = Background ->
    sees p (chainTokens steps ++ t_end :: more) ->
    Forall wellFormedStep steps ->
    isInfixOperator (Type_ t_end) = false ->
    Type_ t_end <> DOT -> Type_ t_end <> LPAREN ->
    List.length steps <= n ->
    exists p',
      parseInfixExpression_loop ext rec fuel n left p
      = Returned (leftNested left (chainOperands steps)) p'
      /\ curToken p' = t_end.
Proof.
  induction steps as [| [op x] steps IH];
    intros n left p Hctx Hsees Hsteps Hend Hdot Hparen Hn.
  - simpl in Hsees. pose proof (sees_head Hsees) as Hcur.
    exists p. split; [| exact Hcur].
    destruct n; simpl; rewrite Hcur, Hend; reflexivity.
  - destruct n as [| n]; simpl in Hn; [lia |].
    inversion Hsteps as [| step steps' [Hop Hident] Hrest]; subst.
    simpl in Hop, Hident. simpl in Hsees.
    pose proof (sees_head Hsees) as Hcur.
    pose proof (sees_nextToken Hctx Hsees) as Hsees1.
    destruct (nextToken_quiet p Hctx) as (Hctx1 & _ & _).
    assert (Hnext : exists next ts,
               chainTokens steps ++ t_end :: more = next :: ts
               /\ Type_ next <> DOT /\ Type_ next <> LPAREN).
    { destruct steps as [| [op' x'] steps'].
      - exists t_end, more. simpl. auto.
      - exists op', (x' :: chainTokens steps' ++ t_end :: more).
        inversion Hrest as [| step' rest' [Hop' _] _]; subst.
        simpl in Hop'. simpl.
        split; [reflexivity |].
        split; intros Heq; rewrite Heq in Hop'; discriminate. }
    destruct Hnext as (next & ts & Hshape & Hnodot & Hnoparen).
    assert (Hprimary :
              parsePrimaryExpression ext rec fuel (nextToken p)
              = Returned (ColumnReference "" (Literal x))
                         (pool (Get KColumnReference)
                               (nextToken (nextToken p)))).
    { apply identifier_is_column with (next := next) (ts := ts); auto.
      rewrite <- Hshape. exact Hsees1. }
    simpl. rewrite Hcur, Hop, Hprimary. simpl.
    destruct (nextToken_quiet (nextToken p) Hctx1) as (Hctx2 & _ & _).
    apply IH; auto; [| lia].
    apply sees_pool. apply sees_pool.
    eapply sees_nextToken; [exact Hctx1 | exact Hsees1].
Qed.

(** X26: no operator binds tighter than another.  Identifiers joined by
    infix operators, whichever they are, followed by a token that is not
    one, are read as the left-nested tree of the column references. *)
Theorem identifier_chain_is_left_nested (ext : External) (fuel : nat)
        (p : Parser) (x1 t_end : Token) (steps : list (Token * Token))
        (more : list Token) :
  ctx p = Background ->
  sees p (x1 :: chainTokens steps ++ t_end :: more) ->
  Type_ x1 = IDENT ->
  Forall wellFormedStep steps ->
  isInfixOperator (Type_ t_end) = false ->
  Type_ t_end <> DOT -> Type_ t_end <> LPAREN ->
  List.length steps <= fuel ->
  exists p',
    parseExpression ext (S fuel) p
    = Returned (leftNested (ColumnReference "" (Literal x1))
                           (chainOperands steps)) p'
    /\ curToken p' = t_end.
Proof.
  intros Hctx Hsees Hident Hsteps Hend Hdot Hparen Hfuel.
  assert (Hnext : exists next ts,
             chainTokens steps ++ t_end :: more = next :: ts
             /\ Type_ next <> DOT /\ Type_ next <> LPAREN).
  { destruct steps as [| [op' x'] steps'].
    - exists t_end, more. simpl. auto.
    - exists op', (x' :: chainTokens steps' ++ t_end :: more).
      inversion Hsteps as [| step' rest' [Hop' _] _]; subst.
      simpl in Hop'. simpl.
      split; [reflexivity |].
      split; intros Heq; rewrite Heq in Hop'; discriminate. }
  destruct Hnext as (next & ts & Hshape & Hnodot & Hnoparen).
  change (parseExpression ext (S fuel) p)
    with (parseInfixExpression ext (parseExpression ext fuel) (S fuel) p).
  unfold parseInfixExpression.
  rewrite identifier_is_column with (x := x1) (next := next) (ts := ts);
    auto; [| rewrite <- Hshape; exact Hsees].
  cbn [bind].
  destruct (nextToken_quiet p Hctx) as (Hctx1 & _ & _).
  apply identifier_chain_loop with (more := more); auto.
  apply sees_pool. eapply sees_nextToken; [exact Hctx | exact Hsees].
Qed.

Example identifier_chain_example :
  exists p',
    parseExpression Scenario.scenarioExt 3 (New Scenario.sumProduct)
    = Returned
        (BinaryExpression
           (BinaryExpression (ColumnReference "" "a") "+"
                             (ColumnReference "" "b"))
           "*" (ColumnReference "" "c"))
        p'
    /\ curToken p' = mkToken EOF "" 1 10.
Proof.
  apply (identifier_chain_is_left_nested Scenario.scenarioExt 2
           (New Scenario.sumProduct) (Scenario.tok IDENT "a" 1)
           (mkToken EOF "" 1 10)
           [(Scenario.tok PLUS "+" 3, Scenario.tok IDENT "b" 5);
            (Scenario.tok ASTERISK "*" 7, Scenario.tok IDENT "c" 9)] []).
  - reflexivity.
  - intros k t Hk.
    do 6 (destruct k as [| k]; [inversion Hk; reflexivity |]).
    destruct k; discriminate Hk.
  - reflexivity.
  - repeat constructor.
  - reflexivity.
  - discriminate.
  - discriminate.
  - simpl. lia.
Defined.

(* ================================================================== *)
(** ** Standing in front of tokens                                      *)
(* ================================================================== *)

Lemma sees_cons (p : Parser) (t : Token) (ts : list Token) :
  ctx p = Background ->
  curToken p = t -> sees (nextToken p) ts -> sees p (t :: ts).
Proof.
  intros Hctx Hcur Hrest [| k] t' Hk; simpl in Hk.
  - inversion Hk; subst. reflexivity.
  - rewrite <- ahead_nextToken by exact Hctx. now apply Hrest.
Qed.

Lemma sees_nil (p : Parser) : sees p [].
Proof. intros [| k] t Hk; discriminate Hk. Qed.

Lemma sees_prefix (p : Parser) (ts more : list Token) :
  sees p (ts ++ more) -> sees p ts.
Proof.
  intros Hsees k t Hk. apply Hsees.
  rewrite nth_error_app1; [exact Hk |].
  apply nth_error_Some. congruence.
Qed.

Lemma ctx_New (input : Lexer) : ctx (New input) = Background.
Proof. exact (proj1 (New_quiet input)). Qed.

Lemma sees_New (input : Lexer) : sees (New input) (pending input).
Proof.
  intros k t Hk. unfold New, NewWithContext.
  rewrite !ahead_nextToken.
  - unfold ahead. simpl. apply nth_error_nth. exact Hk.
  - reflexivity.
  - unfold nextToken. simpl. destruct (NextToken input). reflexivity.
Qed.

(** X1: [New] reads two tokens: the parser it returns stands in front of
    the tokens of the input, the first one as current token, with the
    rest of the input still in the lexer, an empty error list and a token
    count of two. *)
Theorem New_primes_the_lookahead (input : Lexer) :
  sees (New input) (pending input)
  /\ pending (l (New input)) = skipn 2 (pending input)
  /\ Errors (New input) = []
  /\ tokenCount (New input) = 2%Z
  /\ ctx (New input) = Background.
Proof.
  split; [apply sees_New |].
  destruct input as [tokens line column].
  destruct tokens as [| t1 [| t2 rest]]; repeat split.
Qed.

(* ================================================================== *)
(** ** Error recovery                                                   *)
(* ================================================================== *)

Lemma keyword_is_live (t : Token) :
  statementKeyword (Type_ t) = true -> TokenType_eqb (Type_ t) EOF = false.
Proof. destruct (Type_ t); simpl; intros H; try discriminate; reflexivity. Qed.

Lemma synchronize_loop_skips (s : Token) (more skip : list Token) :
  forall (n : nat) (p : Parser),
    ctx p = Background ->
    sees p (skip ++ s :: more) ->
    forallb passedOver skip = true ->
    passedOver s = false ->
    List.length skip < n ->
    exists p',
      synchronize_loop n p = Returned tt p'
      /\ ctx p' = Background
      /\ errors p' = errors p
      /\ sees p' (if TokenType_eqb (Type_ s) SEMICOLON then more
                  else s :: more).
Proof.
  induction skip as [| t skip IH]; intros n p Hctx Hsees Hskip Hstop Hn;
    (destruct n as [| n]; [simpl in Hn; lia |]); simpl in Hsees;
    pose proof (sees_head Hsees) as Hcur;
    destruct (nextToken_quiet p Hctx) as (Hctx1 & Herr1 & _).
  - simpl. unfold curTokenIs. rewrite Hcur.
    unfold passedOver, resumes in Hstop.
    destruct (TokenType_eqb (Type_ s) EOF) eqn:Heof; simpl.
    + assert (Hsemi : TokenType_eqb (Type_ s) SEMICOLON = false).
      { apply TokenType_eqb_true in Heof. rewrite Heof. reflexivity. }
      rewrite Hsemi. eauto.
    + destruct (TokenType_eqb (Type_ s) SEMICOLON) eqn:Hsemi.
      * exists (nextToken p). repeat split; auto.
        eapply sees_nextToken; [exact Hctx | exact Hsees].
      * simpl in Hstop. rewrite andb_true_r in Hstop.
        apply negb_false_iff in Hstop.
        exists p.
        destruct (Type_ s); try discriminate Hstop; repeat split; auto.
  - simpl in Hskip. apply andb_true_iff in Hskip.
    destruct Hskip as [Ht Hskip].
    unfold passedOver, resumes in Ht. apply andb_true_iff in Ht.
    destruct Ht as [Hres Hsemi]. apply negb_true_iff in Hres, Hsemi.
    apply orb_false_iff in Hres. destruct Hres as [Heof Hkey].
    assert (Hnext : exists p',
               synchronize_loop n (nextToken p) = Returned tt p'
               /\ ctx p' = Background
               /\ errors p' = errors (nextToken p)
               /\ sees p' (if TokenType_eqb (Type_ s) SEMICOLON then more
                           else s :: more)).
    { apply IH; auto; [| simpl in Hn; lia].
      eapply sees_nextToken; [exact Hctx | exact Hsees]. }
    destruct Hnext as (p' & Hrun & Hctx' & Herr' & Hsees').
    exists p'. simpl. unfold curTokenIs. rewrite Hcur, Heof, Hsemi. simpl.
    split; [| repeat split; auto; congruence].
    destruct (Type_ t); try discriminate Hkey; exact Hrun.
Qed.

(** X2: under [context.Background()], [synchronize] drops the current
    token and every token after it up to the first semicolon, statement
    keyword or end of input.  The semicolon is consumed; a keyword or the
    end of input is left as the current token; no error is recorded. *)
Theorem synchronize_skips_to_boundary (fuel : nat) (p : Parser)
        (t0 s : Token) (skip more : list Token) :
  ctx p = Background ->
  sees p (t0 :: skip ++ s :: more) ->
  forallb passedOver skip = true ->
  passedOver s = false ->
  List.length skip < fuel ->
  exists p',
    synchronize fuel p = Returned tt p'
    /\ Errors p' = Errors p
    /\ sees p' (if TokenType_eqb (Type_ s) SEMICOLON then more
                else s :: more).
Proof.
  intros Hctx Hsees Hskip Hstop Hfuel.
  destruct (nextToken_quiet p Hctx) as (Hctx1 & Herr1 & _).
  destruct (synchronize_loop_skips s more skip fuel (nextToken p))
    as (p' & Hrun & _ & Herr & Hsees'); auto.
  - eapply sees_nextToken; [exact Hctx | exact Hsees].
  - exists p'. unfold synchronize, Errors. repeat split; auto. congruence.
Qed.

Lemma synchronize_skips_to_boundary_witness :
  exists p',
    synchronize 3 (New Scenario.twoStatements) = Returned tt p'
    /\ Errors p' = []
    /\ sees p' [Scenario.tok SELECT "SELECT" 16; Scenario.tok NUMBER "2" 23].
Proof.
  apply (synchronize_skips_to_boundary 3 (New Scenario.twoStatements)
           (Scenario.tok SELECT "SELECT" 1)
           (Scenario.tok SEMICOLON ";" 14)
           [Scenario.tok NUMBER "1" 8; Scenario.tok FROM "FROM" 10]
           [Scenario.tok SELECT "SELECT" 16; Scenario.tok NUMBER "2" 23]).
  - reflexivity.
  - apply sees_prefix
      with (more := [Scenario.tok FROM "FROM" 25; Scenario.tok IDENT "t" 30]).
    exact (sees_New Scenario.twoStatements).
  - reflexivity.
  - reflexivity.
  - simpl. lia.
Defined.

Lemma synchronize_loop_stops (n : nat) :
  forall q : Parser,
    ctx q = Background -> weight q <= n ->
    exists q' j,
      synchronize_loop n q = Returned tt q'
      /\ ctx q' = Background
      /\ errors q' = errors q
      /\ (forall i, i < j -> passedOver (ahead q i) = true)
      /\ passedOver (ahead q j) = false
      /\ forall i,
          ahead q' i
          = ahead q ((if hasType (ahead q j) SEMICOLON then S j else j) + i).
Proof.
  induction n as [| n IH]; intros q Hctx Hn;
    pose proof (live_le_weight q) as Hlive; simpl;
    unfold curTokenIs at 1;
    destruct (TokenType_eqb (Type_ (curToken q)) EOF) eqn:Heof; simpl.
  - exists q, 0. change (ahead q 0) with (curToken q).
    assert (Hsemi : hasType (curToken q) SEMICOLON = false).
    { unfold hasType. apply TokenType_eqb_true in Heof. now rewrite Heof. }
    rewrite Hsemi. unfold passedOver, resumes. rewrite Heof.
    repeat split; auto. intros i Hi. lia.
  - unfold live in Hlive. rewrite Heof in Hlive. lia.
  - exists q, 0. change (ahead q 0) with (curToken q).
    assert (Hsemi : hasType (curToken q) SEMICOLON = false).
    { unfold hasType. apply TokenType_eqb_true in Heof. now rewrite Heof. }
    rewrite Hsemi. unfold passedOver, resumes. rewrite Heof.
    repeat split; auto. intros i Hi. lia.
  - destruct (nextToken_quiet q Hctx) as (Hctx1 & Herr1 & Hw1).
    assert (Hone : live (curToken q) = 1) by (unfold live; now rewrite Heof).
    destruct (curTokenIs q SEMICOLON) eqn:Hsemi.
    + exists (nextToken q), 0. change (ahead q 0) with (curToken q).
      unfold hasType. unfold curTokenIs in Hsemi. rewrite Hsemi.
      unfold passedOver. rewrite Hsemi, andb_false_r.
      repeat split; auto; [intros i Hi; lia |].
      intros i. now apply ahead_nextToken.
    + destruct (statementKeyword (Type_ (curToken q))) eqn:Hkey.
      * exists q, 0. change (ahead q 0) with (curToken q).
        unfold hasType. unfold curTokenIs in Hsemi. rewrite Hsemi.
        unfold passedOver, resumes. rewrite Hkey, orb_true_r.
        destruct (Type_ (curToken q)) eqn:Hty; try discriminate Hkey;
          (repeat split; auto; intros i Hi; lia).
      * assert (Hgo : exists q' j,
                   synchronize_loop n (nextToken q) = Returned tt q'
                   /\ ctx q' = Background
                   /\ errors q' = errors q
                   /\ (forall i, i < j -> passedOver (ahead q i) = true)
                   /\ passedOver (ahead q j) = false
                   /\ forall i,
                       ahead q' i
                       = ahead q ((if hasType (ahead q j) SEMICOLON
                                   then S j else j) + i)).
        { destruct (IH (nextToken q) Hctx1 ltac:(lia))
            as (q' & j & Hrun & Hc & He & Hskip & Hstop & Hahead).
          exists q', (S j).
          rewrite <- (ahead_nextToken q j Hctx).
          repeat split; auto; [congruence | |].
          - intros [| i] Hi.
            + change (ahead q 0) with (curToken q).
              unfold passedOver, resumes. unfold curTokenIs in Hsemi.
              now rewrite Heof, Hkey, Hsemi.
            + rewrite <- (ahead_nextToken q i Hctx). apply Hskip. lia.
          - intros i. rewrite Hahead.
            rewrite (ahead_nextToken q _ Hctx).
            destruct (hasType (ahead (nextToken q) j) SEMICOLON);
              reflexivity. }
        destruct (Type_ (curToken q)); try discriminate Hkey; exact Hgo.
Qed.

(** X3: under [context.Background()], [synchronize] returns for every
    parser (fuel: the number of tokens ahead), records no error, and
    stops at the first token after the current one that is a semicolon, a
    statement keyword or the end of input.  With that token the [j]-th
    after the current one, every token between them is passed over, and
    the parser it leaves has advanced [1 + j] tokens, or [2 + j] when the
    token is a semicolon, which is consumed. *)
Theorem synchronize_returns (fuel : nat) (p : Parser) :
  ctx p = Background ->
  weight p <= fuel ->
  exists p' j,
    synchronize fuel p = Returned tt p'
    /\ Errors p' = Errors p
    /\ (forall i, i < j -> passedOver (ahead p (S i)) = true)
    /\ passedOver (ahead p (S j)) = false
    /\ forall i,
        ahead p' i
        = ahead p ((if hasType (ahead p (S j)) SEMICOLON
                    then 2 + j else 1 + j) + i).
Proof.
  intros Hctx Hfuel.
  destruct (nextToken_quiet p Hctx) as (Hctx1 & Herr1 & Hw1).
  destruct (synchronize_loop_stops fuel (nextToken p) Hctx1 ltac:(lia))
    as (p' & j & Hrun & _ & Herr & Hskip & Hstop & Hahead).
  exists p', j. unfold synchronize, Errors.
  rewrite <- (ahead_nextToken p j Hctx).
  repeat split; auto; [congruence | |].
  - intros i Hi. rewrite <- (ahead_nextToken p i Hctx). now apply Hskip.
  - intros i. rewrite Hahead. rewrite (ahead_nextToken p _ Hctx).
    destruct (hasType (ahead (nextToken p) j) SEMICOLON); reflexivity.
Qed.

Lemma synchronize_returns_witness :
  exists p' j,
    synchronize 8 (New Scenario.twoStatements) = Returned tt p'
    /\ Errors p' = Errors (New Scenario.twoStatements)
    /\ (forall i, i < j ->
          passedOver (ahead (New Scenario.twoStatements) (S i)) = true)
    /\ passedOver (ahead (New Scenario.twoStatements) (S j)) = false
    /\ forall i,
        ahead p' i
        = ahead (New Scenario.twoStatements)
                ((if hasType (ahead (New Scenario.twoStatements) (S j))
                             SEMICOLON
                  then 2 + j else 1 + j) + i).
Proof.
  apply (synchronize_returns 8 (New Scenario.twoStatements)).
  - reflexivity.
  - vm_compute. lia.
Defined.

Lemma synchronize_loop_stuck (n : nat) :
  forall p : Parser,
    isDone (ctx p) = true ->
    passedOver (curToken p) = true ->
    synchronize_loop n p = Diverged.
Proof.
  induction n as [| n IH]; intros p Hdone Hpassed;
    unfold passedOver, resumes in Hpassed;
    apply andb_true_iff in Hpassed; destruct Hpassed as [Hres Hsemi];
    apply negb_true_iff in Hres, Hsemi;
    apply orb_false_iff in Hres; destruct Hres as [Heof Hkey];
    simpl; unfold curTokenIs; rewrite Heof; simpl; [reflexivity |].
  rewrite Hsemi.
  assert (Hgo : synchronize_loop n (nextToken p) = Diverged).
  { rewrite nextToken_done by exact Hdone. apply IH; [exact Hdone |].
    unfold passedOver, resumes. simpl. now rewrite Heof, Hkey, Hsemi. }
  destruct (Type_ (curToken p)); try discriminate Hkey; exact Hgo.
Qed.

(** X4: once the context is done, [synchronize] does not return when the
    current token is not a semicolon, a statement keyword or the end of
    input: no attempt to advance moves past it, and the loop has no other
    exit. *)
Theorem synchronize_cancelled_diverges (fuel : nat) (p : Parser) :
  isDone (ctx p) = true ->
  passedOver (curToken p) = true ->
  synchronize fuel p = Diverged.
Proof.
  intros Hdone Hpassed. unfold synchronize.
  rewrite nextToken_done by exact Hdone.
  apply synchronize_loop_stuck; [exact Hdone | exact Hpassed].
Qed.

Lemma synchronize_cancelled_diverges_witness :
  isDone (ctx (nextToken (NewWithContext (DoneAfter 3)
                                         Scenario.twoStatements))) = true
  /\ passedOver
       (curToken (nextToken (NewWithContext (DoneAfter 3)
                                            Scenario.twoStatements))) = true
  /\ synchronize 100 (nextToken (NewWithContext (DoneAfter 3)
                                                Scenario.twoStatements))
     = Diverged.
Proof.
  split; [reflexivity |]. split; [reflexivity |].
  apply synchronize_cancelled_diverges; reflexivity.
Defined.

(* ================================================================== *)
(** ** Table references and FROM                                        *)
(* ================================================================== *)

(** One advance under [context.Background()], seen from the tokens. *)
Lemma sees_step (p : Parser) (t : Token) (ts : list Token) :
  ctx p = Background ->
  sees p (t :: ts) ->
  curToken p = t
  /\ ctx (nextToken p) = Background
  /\ errors (nextToken p) = errors p
  /\ pools (nextToken p) = pools p
  /\ sees (nextToken p) ts.
Proof.
  intros Hctx Hsees.
  destruct (nextToken_quiet p Hctx) as (Hctx1 & Herr1 & _).
  repeat split; auto.
  - exact (sees_head Hsees).
  - apply pools_nextToken.
  - exact (sees_nextToken Hctx Hsees).
Qed.

Lemma curTokenIs_hasType (p : Parser) (t : Token) (ty : TokenType) :
  curToken p = t -> curTokenIs p ty = hasType t ty.
Proof. intros <-. reflexivity. Qed.

Lemma hasType_other (t : Token) (ty ty' : TokenType) :
  hasType t ty = true -> ty <> ty' -> hasType t ty' = false.
Proof.
  unfold hasType. intros H Hne. apply TokenType_eqb_true in H.
  rewrite H. now apply TokenType_eqb_diff.
Qed.

(** Advance symbolically over the token the parser stands on. *)
Ltac step_over H :=
  match type of H with
  | sees ?q (?t :: ?ts) =>
      lazymatch goal with
      | _ : curToken q = _ |- _ => fail
      | _ => idtac
      end;
      let Hcur := fresh "Hcur" in
      let Hc := fresh "Hctx" in
      let He := fresh "Herr" in
      let Hp := fresh "Hpools" in
      let Hs := fresh "Hsees" in
      destruct (sees_step q t ts ltac:(assumption) H)
        as (Hcur & Hc & He & Hp & Hs)
  end.

Ltac decide_tests :=
  repeat match goal with
  | Hcur : curToken ?q = ?t |- context [curTokenIs ?q ?ty] =>
      rewrite (curTokenIs_hasType q t ty Hcur)
  end;
  repeat match goal with
  | H : hasType ?t ?ty = true |- context [hasType ?t ?ty'] =>
      first [ rewrite H
            | rewrite (hasType_other t ty ty' H) by discriminate ]
  | H : hasType ?t ?ty = false |- context [hasType ?t ?ty] => rewrite H
  end;
  cbn [negb andb orb].

Lemma parseTableReference_reads (p : Parser) (s : TableSpelling)
      (next : Token) (more : list Token) :
  ctx p = Background ->
  wellSpelled s = true ->
  endsTable s next = true ->
  sees p (spellingTokens s ++ next :: more) ->
  exists p',
    parseTableReference p = Returned (spelled s) p'
    /\ ctx p' = Background
    /\ errors p' = errors p
    /\ pools p' = pools p
    /\ sees p' (next :: more).
Proof.
  intros Hctx Hwell Hends Hsees.
  destruct s as [[[schema dot] |] name [[[as_ |] alias] |]];
    unfold wellSpelled, endsTable, spellingTokens, spelled in *;
    cbn [schemaPart namePart aliasPart app] in *;
    repeat match goal with
           | H : _ && _ = true |- _ =>
               apply andb_true_iff in H; destruct H
           | H : negb _ = true |- _ => apply negb_true_iff in H
           end;
    unfold parseTableReference;
    repeat (match goal with
            | H : sees _ (_ :: _) |- _ => step_over H
            end);
    decide_tests; cbv zeta; decide_tests; cbn [bind fst snd];
    decide_tests; cbv zeta; decide_tests;
    eexists; (split; [repeat f_equal; congruence |]);
    repeat split; try congruence; assumption.
Qed.

(** X5: a table reference is read off its tokens.  In front of
    [schema.name AS alias], where the schema and the alias may be left
    out and AS may be left out before the alias, followed by a token that
    does not continue the reference, [parseTableReference] returns the
    reference with these three texts, stops at that token and records no
    error. *)
Theorem table_reference_is_read (p : Parser) (s : TableSpelling)
        (next : Token) (more : list Token) :
  ctx p = Background ->
  wellSpelled s = true ->
  endsTable s next = true ->
  sees p (spellingTokens s ++ next :: more) ->
  exists p',
    parseTableReference p = Returned (spelled s) p'
    /\ Errors p' = Errors p
    /\ sees p' (next :: more).
Proof.
  intros Hctx Hwell Hends Hsees.
  destruct (parseTableReference_reads p s next more Hctx Hwell Hends Hsees)
    as (p' & Hrun & _ & Herr & _ & Hsees').
  exists p'. auto.
Qed.

Lemma table_reference_is_read_witness :
  exists p',
    parseTableReference (New Scenario.qualifiedTable)
    = Returned (mkTableReference "dbo" "users" "u") p'
    /\ Errors p' = []
    /\ sees p' [Scenario.tok WHERE "WHERE" 13].
Proof.
  apply (table_reference_is_read
           (New Scenario.qualifiedTable)
           (mkTableSpelling
              (Some (Scenario.tok IDENT "dbo" 1, Scenario.tok DOT "." 4))
              (Scenario.tok IDENT "users" 5)
              (Some (None, Scenario.tok IDENT "u" 11)))
           (Scenario.tok WHERE "WHERE" 13) []).
  - reflexivity.
  - reflexivity.
  - reflexivity.
  - apply sees_New.
Defined.

Lemma endsTable_comma (s : TableSpelling) (comma : Token) :
  hasType comma COMMA = true -> endsTable s comma = true.
Proof.
  intros H. unfold endsTable.
  rewrite !(hasType_other comma COMMA) by (exact H || discriminate).
  destruct (aliasPart s), (schemaPart s); reflexivity.
Qed.

Lemma endsTable_closes (s : TableSpelling) (next : Token) :
  closesTables next = true -> endsTable s next = true.
Proof.
  unfold closesTables, endsTable. intros H.
  repeat (apply andb_true_iff in H; destruct H as [H ?]).
  rewrite H. destruct (aliasPart s), (schemaPart s); simpl;
    repeat match goal with H : _ = true |- _ => rewrite H end; reflexivity.
Qed.

Lemma parseFromClause_loop_reads (next : Token) (more : list Token)
      (rest : list (Token * TableSpelling)) :
  closesTables next = true ->
  forallb (fun item => hasType (fst item) COMMA && wellSpelled (snd item))
          rest = true ->
  forall (n : nat) (tables : list TableReference) (p : Parser),
    ctx p = Background ->
    sees p (moreTables rest ++ next :: more) ->
    List.length rest <= n ->
    exists p',
      parseFromClause_loop n tables p
      = Returned (tables ++ map (fun item => spelled (snd item)) rest) p'
      /\ ctx p' = Background
      /\ errors p' = errors p
      /\ pools p' = pools p
      /\ sees p' (next :: more).
Proof.
  intros Hnext. induction rest as [| [comma s] rest IH];
    intros Hrest n tables p Hctx Hsees Hn.
  - simpl in *. rewrite app_nil_r.
    pose proof (sees_head Hsees) as Hcur.
    assert (Hcomma : curTokenIs p COMMA = false).
    { rewrite (curTokenIs_hasType p next COMMA Hcur).
      unfold closesTables in Hnext.
      apply andb_true_iff in Hnext. destruct Hnext as [_ H].
      now apply negb_true_iff in H. }
    exists p. destruct n; simpl; rewrite Hcomma; auto.
  - simpl in Hrest. apply andb_true_iff in Hrest.
    destruct Hrest as [Hitem Hrest].
    apply andb_true_iff in Hitem. destruct Hitem as [Hcomma Hwell].
    destruct n as [| n]; [simpl in Hn; lia |].
    unfold moreTables in Hsees. simpl in Hsees.
    fold (moreTables rest) in Hsees.
    step_over Hsees.
    simpl. rewrite (curTokenIs_hasType p comma COMMA Hcur), Hcomma.
    rewrite <- app_assoc in Hsees0.
    assert (Hends : endsTable s
                      (hd next (moreTables rest)) = true).
    { destruct rest as [| [comma' s'] rest']; simpl.
      - now apply endsTable_closes.
      - apply endsTable_comma. simpl in Hrest.
        apply andb_true_iff in Hrest. destruct Hrest as [Hrest _].
        apply andb_true_iff in Hrest. tauto. }
    assert (Hshape : moreTables rest ++ next :: more
                     = hd next (moreTables rest)
                       :: tl (moreTables rest ++ next :: more)).
    { destruct rest as [| [comma' s'] rest']; reflexivity. }
    rewrite Hshape in Hsees0.
    destruct (parseTableReference_reads _ s _ _ Hctx0 Hwell Hends Hsees0)
      as (q & Hrun & Hctxq & Herrq & Hpoolsq & Hseesq).
    rewrite Hrun. simpl. rewrite <- Hshape in Hseesq.
    destruct (IH Hrest n (tables ++ [spelled s]) q Hctxq Hseesq
                 ltac:(simpl in Hn; lia))
      as (p' & Hloop & Hctx' & Herr' & Hpools' & Hsees').
    exists p'. rewrite Hloop, <- app_assoc. simpl.
    repeat split; try congruence; assumption.
Qed.

Lemma parseFromClause_reads (fuel : nat) (p : Parser) (from : Token)
      (first : TableSpelling) (rest : list (Token * TableSpelling))
      (next : Token) (more : list Token) :
  ctx p = Background ->
  hasType from FROM = true ->
  wellSpelled first = true ->
  forallb (fun item => hasType (fst item) COMMA && wellSpelled (snd item))
          rest = true ->
  closesTables next = true ->
  sees p (from :: spellingTokens first ++ moreTables rest ++ next :: more) ->
  List.length rest <= fuel ->
  exists p',
    parseFromClause fuel p
    = Returned (mkFromClause
                  (spelled first
                   :: map (fun item => spelled (snd item)) rest)) p'
    /\ ctx p' = Background
    /\ errors p' = errors p
    /\ pools p' = pools p
    /\ sees p' (next :: more).
Proof.
  intros Hctx Hfrom Hwell Hrest Hnext Hsees Hfuel.
  step_over Hsees.
  unfold parseFromClause.
  rewrite (curTokenIs_hasType p from FROM Hcur), Hfrom. cbn [negb].
  cbv zeta.
  assert (Hends : endsTable first (hd next (moreTables rest)) = true).
  { destruct rest as [| [comma' s'] rest']; simpl.
    - now apply endsTable_closes.
    - apply endsTable_comma. simpl in Hrest.
      apply andb_true_iff in Hrest. destruct Hrest as [Hrest _].
      apply andb_true_iff in Hrest. tauto. }
  assert (Hshape : moreTables rest ++ next :: more
                   = hd next (moreTables rest)
                     :: tl (moreTables rest ++ next :: more)).
  { destruct rest as [| [comma' s'] rest']; reflexivity. }
  rewrite Hshape in Hsees0.
  destruct (parseTableReference_reads _ first _ _ Hctx0 Hwell Hends Hsees0)
    as (q & Hrun & Hctxq & Herrq & Hpoolsq & Hseesq).
  rewrite Hrun. simpl. rewrite <- Hshape in Hseesq.
  destruct (parseFromClause_loop_reads next more rest Hnext Hrest fuel
              [spelled first] q Hctxq Hseesq Hfuel)
    as (p' & Hloop & Hctx' & Herr' & Hpools' & Hsees').
  exists p'. rewrite Hloop. simpl.
  repeat split; try congruence; assumption.
Qed.

(** X6: a FROM clause lists its tables in order.  In front of
    [FROM t1, t2, ..., tn] followed by a token that continues neither a
    table reference nor the list, [parseFromClause] returns the [n]
    table references in the order written, stops at that token and
    records no error. *)
Theorem from_clause_lists_tables (fuel : nat) (p : Parser) (from : Token)
        (first : TableSpelling) (rest : list (Token * TableSpelling))
        (next : Token) (more : list Token) :
  ctx p = Background ->
  hasType from FROM = true ->
  wellSpelled first = true ->
  forallb (fun item => hasType (fst item) COMMA && wellSpelled (snd item))
          rest = true ->
  closesTables next = true ->
  sees p (from :: spellingTokens first ++ moreTables rest ++ next :: more) ->
  List.length rest <= fuel ->
  exists p',
    parseFromClause fuel p
    = Returned (mkFromClause
                  (spelled first
                   :: map (fun item => spelled (snd item)) rest)) p'
    /\ Errors p' = Errors p
    /\ sees p' (next :: more).
Proof.
  intros Hctx Hfrom Hwell Hrest Hnext Hsees Hfuel.
  destruct (parseFromClause_reads fuel p from first rest next more
              Hctx Hfrom Hwell Hrest Hnext Hsees Hfuel)
    as (p' & Hrun & _ & Herr & _ & Hsees').
  exists p'. auto.
Qed.

Lemma from_clause_lists_tables_witness :
  exists p',
    parseFromClause 2 (New Scenario.fromList)
    = Returned (mkFromClause [mkTableReference "" "a" "";
                              mkTableReference "dbo" "b" "x";
                              mkTableReference "" "c" "y"]) p'
    /\ Errors p' = []
    /\ sees p' [Scenario.tok WHERE "WHERE" 25].
Proof.
  apply (from_clause_lists_tables 2 (New Scenario.fromList)
           (Scenario.tok FROM "FROM" 1)
           (mkTableSpelling None (Scenario.tok IDENT "a" 6) None)
           [(Scenario.tok COMMA "," 7,
             mkTableSpelling
               (Some (Scenario.tok IDENT "dbo" 9, Scenario.tok DOT "." 12))
               (Scenario.tok IDENT "b" 13)
               (Some (Some (Scenario.tok AS "AS" 15),
                      Scenario.tok IDENT "x" 18)));
            (Scenario.tok COMMA "," 19,
             mkTableSpelling None (Scenario.tok IDENT "c" 21)
               (Some (None, Scenario.tok IDENT "y" 23)))]
           (Scenario.tok WHERE "WHERE" 25) []).
  - reflexivity.
  - reflexivity.
  - reflexivity.
  - reflexivity.
  - reflexivity.
  - apply sees_New.
  - simpl. lia.
Defined.

(* ================================================================== *)
(** ** TOP                                                              *)
(* ================================================================== *)

(** X7: a TOP clause is read off its tokens.  In front of [TOP n] with a
    number [n] that [strconv.Atoi] converts, [parseTopClause] returns the
    count; the clause is a percentage exactly when the next token is an
    identifier that reads PERCENT in upper case, and that identifier is
    then consumed, while any other token is left in place. *)
Theorem top_clause_is_read (ext : External) (p : Parser)
        (top number next : Token) (more : list Token) (count : Z) :
  ctx p = Background ->
  sees p (top :: number :: next :: more) ->
  hasType top TOP = true ->
  hasType number NUMBER = true ->
  Atoi ext (Literal number) = Some count ->
  exists p',
    parseTopClause ext p
    = Returned (mkTopClause count (isPercent ext next)) p'
    /\ Errors p' = Errors p
    /\ sees p' (if isPercent ext next then more else next :: more).
Proof.
  intros Hctx Hsees Htop Hnumber Hcount.
  step_over Hsees. step_over Hsees0. step_over Hsees1.
  unfold parseTopClause.
  rewrite (curTokenIs_hasType p top TOP Hcur), Htop. cbn [negb]. cbv zeta.
  rewrite (curTokenIs_hasType _ number NUMBER Hcur0), Hnumber. cbn [negb].
  rewrite Hcur0, Hcount.
  rewrite (curTokenIs_hasType _ next IDENT Hcur1), Hcur1.
  fold (isPercent ext next).
  destruct (isPercent ext next); eexists; (split; [reflexivity |]);
    split; try assumption; unfold Errors; congruence.
Qed.

Lemma top_clause_is_read_witness :
  exists p',
    parseTopClause Scenario.scenarioExt (New Scenario.topPercent)
    = Returned (mkTopClause 10 true) p'
    /\ Errors p' = []
    /\ sees p' [Scenario.tok IDENT "a" 16].
Proof.
  apply (top_clause_is_read Scenario.scenarioExt (New Scenario.topPercent)
           (Scenario.tok TOP "TOP" 1) (Scenario.tok NUMBER "10" 5)
           (Scenario.tok IDENT "percent" 8) [Scenario.tok IDENT "a" 16] 10).
  - reflexivity.
  - apply sees_New.
  - reflexivity.
  - reflexivity.
  - reflexivity.
Defined.

(* ================================================================== *)
(** ** GROUP BY                                                         *)
(* ================================================================== *)

(** X8: while the context is open, a GROUP BY clause is refused whenever
    the second token after GROUP is not BY, that is, whenever a grouping
    expression follows [GROUP BY]: [parseGroupByClause] advances past
    GROUP and then asks for BY as the token after the current one.  It
    fails with "expected BY after GROUP" and records one syntax error. *)
Theorem group_by_is_refused (ext : External) (fuel : nat) (p : Parser) :
  curTokenIs p GROUP = true ->
  isDone (ctx p) = false ->
  Type_ (ahead p 2) <> BY ->
  parseGroupByClause ext fuel p
  = Failed "expected BY after GROUP" (peekError ext (nextToken p) BY)
  /\ Errors (peekError ext (nextToken p) BY)
     = Errors p ++ [SyntaxErrorText ext (TokenTypeString ext BY)
                      (TokenTypeString ext (Type_ (ahead p 2)))
                      (Line (ahead p 2)) (Column (ahead p 2))].
Proof.
  intros Hgroup Hopen Hthird.
  pose proof (peekToken_nextToken p Hopen) as Hpeek.
  split.
  - unfold parseGroupByClause, expectPeek, peekTokenIs.
    rewrite Hgroup. cbv zeta. simpl negb. cbv iota.
    rewrite Hpeek.
    rewrite TokenType_eqb_diff by exact Hthird. reflexivity.
  - unfold peekError, Errors, addError. simpl. rewrite Hpeek.
    f_equal. unfold nextToken. rewrite Hopen.
    destruct (NextToken (l p)). reflexivity.
Qed.

Lemma group_by_is_refused_witness :
  parseGroupByClause Scenario.scenarioExt 2 (New Scenario.groupByClause)
  = Failed "expected BY after GROUP"
           (peekError Scenario.scenarioExt
                      (nextToken (New Scenario.groupByClause)) BY)
  /\ Errors (peekError Scenario.scenarioExt
                       (nextToken (New Scenario.groupByClause)) BY)
     = ["syntax error at line 1, column 10: expected BY, got IDENT"].
Proof.
  apply (group_by_is_refused Scenario.scenarioExt 2
           (New Scenario.groupByClause)).
  - reflexivity.
  - reflexivity.
  - discriminate.
Defined.

(* ================================================================== *)
(** ** Identifiers, qualified columns and function calls                *)
(* ================================================================== *)

Lemma nextToken_pool (ev : PoolEvent) (p : Parser) :
  nextToken (pool ev p) = pool ev (nextToken p).
Proof.
  unfold nextToken, pool. simpl. destruct (isDone (ctx p)); [reflexivity |].
  destruct (NextToken (l p)). reflexivity.
Qed.

(** X9: a qualified column is read off its tokens.  In front of
    [table.column] or [table.*], [parseIdentifierExpression] returns the
    column reference with both texts, or the star of that table, stops
    after the three tokens and records no error. *)
Theorem qualified_column_is_read (rec : Parser -> Outcome Expression)
        (fuel : nat) (p : Parser) (table dot column : Token)
        (more : list Token) :
  ctx p = Background ->
  sees p (table :: dot :: column :: more) ->
  hasType dot DOT = true ->
  hasType column IDENT || hasType column ASTERISK = true ->
  exists p',
    parseIdentifierExpression rec fuel p
    = Returned (if hasType column ASTERISK
                then StarExpression (Literal table)
                else ColumnReference (Literal table) (Literal column)) p'
    /\ Errors p' = Errors p
    /\ sees p' more.
Proof.
  intros Hctx Hsees Hdot Hcolumn.
  step_over Hsees. step_over Hsees0. step_over Hsees1.
  unfold parseIdentifierExpression. cbv zeta.
  rewrite (curTokenIs_hasType _ dot DOT Hcur0), Hdot.
  rewrite (curTokenIs_hasType _ column IDENT Hcur1).
  rewrite (curTokenIs_hasType _ column ASTERISK Hcur1).
  rewrite Hcur, Hcur1.
  destruct (hasType column ASTERISK) eqn:Hstar.
  - rewrite andb_false_r. eexists. split; [reflexivity |].
    split; [unfold Errors; congruence | assumption].
  - rewrite orb_false_r in Hcolumn. rewrite Hcolumn. cbn [negb andb].
    rewrite nextToken_pool.
    change (curToken (pool (Get KColumnReference)
                           (nextToken (nextToken p))))
      with (curToken (nextToken (nextToken p))).
    rewrite Hcur1.
    eexists. split; [reflexivity |].
    split; [unfold Errors; simpl; congruence |].
    apply sees_pool. exact Hsees2.
Qed.

Lemma qualified_column_is_read_witness :
  exists p',
    parseIdentifierExpression
      (parseExpression Scenario.scenarioExt 1) 1
      (New Scenario.qualifiedColumn)
    = Returned (ColumnReference "t" "c") p'
    /\ Errors p' = []
    /\ sees p' [Scenario.tok FROM "FROM" 5].
Proof.
  apply (qualified_column_is_read
           (parseExpression Scenario.scenarioExt 1) 1
           (New Scenario.qualifiedColumn)
           (Scenario.tok IDENT "t" 1) (Scenario.tok DOT "." 2)
           (Scenario.tok IDENT "c" 3) [Scenario.tok FROM "FROM" 5]).
  - reflexivity.
  - apply sees_New.
  - reflexivity.
  - reflexivity.
Defined.

(** An identifier followed by a token that is no operator, no dot and no
    opening parenthesis is an expression of its own. *)
Lemma identifier_is_expression (ext : External) (fuel : nat) (p : Parser)
      (x next : Token) (ts : list Token) :
  ctx p = Background ->
  sees p (x :: next :: ts) ->
  hasType x IDENT = true ->
  isInfixOperator (Type_ next) = false ->
  hasType next DOT = false ->
  hasType next LPAREN = false ->
  exists p',
    parseExpression ext (S fuel) p
    = Returned (ColumnReference "" (Literal x)) p'
    /\ ctx p' = Background
    /\ errors p' = errors p
    /\ sees p' (next :: ts).
Proof.
  intros Hctx Hsees Hident Hinfix Hdot Hparen.
  assert (Hne : forall ty, hasType next ty = false -> Type_ next <> ty).
  { intros ty H Heq. unfold hasType in H. rewrite Heq in H.
    now rewrite TokenType_eqb_refl in H. }
  cbn [parseExpression]. unfold parseInfixExpression.
  rewrite (identifier_is_column ext _ _ p x next ts Hctx Hsees
             (TokenType_eqb_true _ _ Hident) (Hne _ Hdot) (Hne _ Hparen)).
  step_over Hsees.
  cbn [bind parseInfixExpression_loop].
  change (curToken (pool (Get KColumnReference) (nextToken p)))
    with (curToken (nextToken p)).
  rewrite (sees_head Hsees0), Hinfix.
  eexists. split; [reflexivity |].
  repeat split; assumption.
Qed.

Lemma separator_facts (t : Token) :
  hasType t COMMA = true \/ hasType t RPAREN = true ->
  isInfixOperator (Type_ t) = false
  /\ hasType t DOT = false /\ hasType t LPAREN = false.
Proof.
  unfold hasType.
  intros [H | H]; apply TokenType_eqb_true in H; rewrite H;
    repeat split.
Qed.

Lemma parseFunctionCall_loop_reads (ext : External) (fuel : nat)
      (rparen : Token) (more : list Token) (rest : list (Token * Token)) :
  hasType rparen RPAREN = true ->
  forallb commaThenIdentifier rest = true ->
  forall (n : nat) (arguments : list Expression) (p : Parser),
    ctx p = Background ->
    sees p (chainTokens rest ++ rparen :: more) ->
    List.length rest <= n ->
    exists p',
      parseFunctionCall_loop (parseExpression ext (S fuel)) n arguments p
      = Returned (arguments
                  ++ map (fun step => ColumnReference "" (Literal (snd step)))
                         rest) p'
      /\ ctx p' = Background
      /\ errors p' = errors p
      /\ sees p' (rparen :: more).
Proof.
  intros Hrparen. induction rest as [| [comma x] rest IH];
    intros Hrest n arguments p Hctx Hsees Hn.
  - simpl in *. rewrite app_nil_r.
    assert (Hcomma : curTokenIs p COMMA = false).
    { rewrite (curTokenIs_hasType p rparen COMMA (sees_head Hsees)).
      now apply (hasType_other rparen RPAREN COMMA). }
    exists p. destruct n; simpl; rewrite Hcomma; auto.
  - simpl in Hrest. apply andb_true_iff in Hrest.
    destruct Hrest as [Hstep Hrest].
    apply andb_true_iff in Hstep. cbn [fst snd] in Hstep.
    destruct Hstep as [Hcomma Hident].
    destruct n as [| n]; [simpl in Hn; lia |].
    cbn [chainTokens flat_map fst snd app] in Hsees.
    fold (chainTokens rest) in Hsees.
    step_over Hsees.
    assert (Hshape : exists sep ts,
               chainTokens rest ++ rparen :: more = sep :: ts
               /\ (hasType sep COMMA = true \/ hasType sep RPAREN = true)).
    { destruct rest as [| [comma' x'] rest'].
      - exists rparen, more. auto.
      - simpl in Hrest. apply andb_true_iff in Hrest.
        destruct Hrest as [Hstep' _].
        apply andb_true_iff in Hstep'. cbn [fst snd] in Hstep'.
        eexists. eexists. split; [reflexivity |]. tauto. }
    destruct Hshape as (sep & ts & Hshape & Hsep).
    destruct (separator_facts sep Hsep) as (Hinfix & Hdot & Hparen).
    rewrite Hshape in Hsees0.
    destruct (identifier_is_expression ext fuel _ x sep ts Hctx0 Hsees0
                Hident Hinfix Hdot Hparen)
      as (q & Hrun & Hctxq & Herrq & Hseesq).
    cbn [parseFunctionCall_loop].
    rewrite (curTokenIs_hasType p comma COMMA Hcur), Hcomma.
    cbv zeta. rewrite Hrun. cbn [bind]. rewrite <- Hshape in Hseesq.
    destruct (IH Hrest n (arguments ++ [ColumnReference "" (Literal x)]) q
                 Hctxq Hseesq ltac:(simpl in Hn; lia))
      as (p' & Hloop & Hctx' & Herr' & Hsees').
    exists p'. rewrite Hloop, <- app_assoc. simpl.
    repeat split; try congruence; assumption.
Qed.

(** X10: a function call lists its arguments in order.  In front of
    [name(x1, x2, ..., xn)] with identifiers for arguments, followed by a
    token that is no operator, [parseExpression] returns the call of that
    name with the [n] column references in the order written, stops after
    the closing parenthesis and records no error. *)
Theorem function_call_lists_arguments (ext : External) (fuel : nat)
        (p : Parser) (name lparen first : Token)
        (rest : list (Token * Token)) (rparen next : Token)
        (more : list Token) :
  ctx p = Background ->
  sees p (name :: lparen :: first
          :: chainTokens rest ++ rparen :: next :: more) ->
  hasType name IDENT = true ->
  hasType lparen LPAREN = true ->
  hasType first IDENT = true ->
  forallb commaThenIdentifier rest = true ->
  hasType rparen RPAREN = true ->
  isInfixOperator (Type_ next) = false ->
  List.length rest <= fuel ->
  exists p',
    parseExpression ext (2 + fuel) p
    = Returned (FunctionCall (Literal name) (columnsOf first rest)) p'
    /\ Errors p' = Errors p
    /\ sees p' (next :: more).
Proof.
  intros Hctx Hsees Hname Hlparen Hfirst Hrest Hrparen Hnext Hfuel.
  step_over Hsees. step_over Hsees0.
  assert (Hshape : exists sep ts,
             chainTokens rest ++ rparen :: next :: more = sep :: ts
             /\ (hasType sep COMMA = true \/ hasType sep RPAREN = true)).
  { destruct rest as [| [comma' x'] rest'].
    - exists rparen, (next :: more). auto.
    - simpl in Hrest. apply andb_true_iff in Hrest.
      destruct Hrest as [Hstep' _].
      apply andb_true_iff in Hstep'. cbn [fst snd] in Hstep'.
      eexists. eexists. split; [reflexivity |]. tauto. }
  destruct Hshape as (sep & ts & Hshape & Hsep).
  destruct (separator_facts sep Hsep) as (Hinfix & Hdot & Hparen).
  rewrite Hshape in Hsees1.
  destruct (identifier_is_expression ext fuel _ first sep ts Hctx1 Hsees1
              Hfirst Hinfix Hdot Hparen)
    as (q & Hrun & Hctxq & Herrq & Hseesq).
  rewrite <- Hshape in Hseesq.
  destruct (parseFunctionCall_loop_reads ext fuel rparen (next :: more) rest
              Hrparen Hrest (2 + fuel)
              [ColumnReference "" (Literal first)] q Hctxq Hseesq
              ltac:(lia))
    as (q' & Hloop & Hctx' & Herr' & Hsees').
  step_over Hsees'.
  change (parseExpression ext (2 + fuel) p)
    with (parseInfixExpression ext (parseExpression ext (S fuel))
            (2 + fuel) p).
  unfold parseInfixExpression, parsePrimaryExpression.
  rewrite Hcur. apply TokenType_eqb_true in Hname. rewrite Hname.
  unfold parseIdentifierExpression. cbv zeta.
  rewrite (curTokenIs_hasType _ lparen DOT Hcur0).
  rewrite (hasType_other lparen LPAREN DOT Hlparen) by discriminate.
  rewrite (curTokenIs_hasType _ lparen LPAREN Hcur0), Hlparen.
  unfold parseFunctionCall.
  rewrite (curTokenIs_hasType _ lparen LPAREN Hcur0), Hlparen.
  cbn [negb]. cbv zeta.
  rewrite (curTokenIs_hasType _ first RPAREN (sees_head Hsees1)).
  rewrite (hasType_other first IDENT RPAREN Hfirst) by discriminate.
  cbn [negb]. rewrite Hrun. cbn [bind]. rewrite Hloop. cbn [bind].
  rewrite (curTokenIs_hasType _ rparen RPAREN Hcur1), Hrparen. cbn [negb].
  cbv zeta. cbn [bind].
  change (2 + fuel) with (S (S fuel)). cbn [parseInfixExpression_loop].
  rewrite (sees_head Hsees2), Hnext, Hcur.
  eexists. split; [reflexivity |].
  split; [unfold Errors; congruence | assumption].
Qed.

Lemma function_call_lists_arguments_witness :
  exists p',
    parseExpression Scenario.scenarioExt 3 (New Scenario.functionCall)
    = Returned (FunctionCall "f" [ColumnReference "" "a";
                                  ColumnReference "" "b"]) p'
    /\ Errors p' = []
    /\ sees p' [Scenario.tok FROM "FROM" 9].
Proof.
  apply (function_call_lists_arguments Scenario.scenarioExt 1
           (New Scenario.functionCall)
           (Scenario.tok IDENT "f" 1) (Scenario.tok LPAREN "(" 2)
           (Scenario.tok IDENT "a" 3)
           [(Scenario.tok COMMA "," 4, Scenario.tok IDENT "b" 6)]
           (Scenario.tok RPAREN ")" 7) (Scenario.tok FROM "FROM" 9) []).
  - reflexivity.
  - apply sees_New.
  - reflexivity.
  - reflexivity.
  - reflexivity.
  - reflexivity.
  - reflexivity.
  - reflexivity.
  - simpl. lia.
Defined.

(* ================================================================== *)
(** ** What a returned statement holds                                  *)
(* ================================================================== *)

Lemma parseSelectList_loop_grows (ext : External) (fuel : nat) :
  forall (n : nat) (columns : list Expression) (p : Parser)
         (columns' : list Expression) (p' : Parser),
    parseSelectList_loop ext fuel n columns p = Returned columns' p' ->
    columns <> [] -> columns' <> [].
Proof.
  induction n as [| n IH]; intros columns p columns' p' Hrun Hne;
    simpl in Hrun; destruct (curTokenIs p COMMA);
    try discriminate; try (injection Hrun as <- _; exact Hne).
  destruct (curTokenIs (nextToken p) ASTERISK).
  - eapply IH; [exact Hrun |]. now destruct columns.
  - destruct (parseExpression ext fuel (nextToken p)) as [| err q | e q];
      simpl in Hrun; try discriminate.
    eapply IH; [exact Hrun |]. now destruct columns.
Qed.

Lemma parseSelectList_nonempty (ext : External) (fuel : nat) (p : Parser)
      (columns : list Expression) (p' : Parser) :
  parseSelectList ext fuel p = Returned columns p' -> columns <> [].
Proof.
  unfold parseSelectList. destruct (curTokenIs p ASTERISK).
  - intros H. injection H as <- _. discriminate.
  - destruct (parseExpression ext fuel p) as [| err q | e q]; simpl;
      try discriminate.
    intros H. eapply parseSelectList_loop_grows; [exact H | discriminate].
Qed.

Lemma parseFromClause_loop_grows :
  forall (n : nat) (tables : list TableReference) (p : Parser)
         (tables' : list TableReference) (p' : Parser),
    parseFromClause_loop n tables p = Returned tables' p' ->
    tables <> [] -> tables' <> [].
Proof.
  induction n as [| n IH]; intros tables p tables' p' Hrun Hne;
    simpl in Hrun; destruct (curTokenIs p COMMA);
    try discriminate; try (injection Hrun as <- _; exact Hne).
  destruct (parseTableReference (nextToken p)) as [| err q | t q];
    simpl in Hrun; try discriminate.
  eapply IH; [exact Hrun |]. now destruct tables.
Qed.

Lemma parseFromClause_nonempty (fuel : nat) (p : Parser)
      (fromClause : FromClause) (p' : Parser) :
  parseFromClause fuel p = Returned fromClause p' ->
  Tables fromClause <> [].
Proof.
  unfold parseFromClause. destruct (curTokenIs p FROM); simpl;
    try discriminate.
  destruct (parseTableReference (nextToken p)) as [| err q | t q]; simpl;
    try discriminate.
  destruct (parseFromClause_loop fuel [t] q) as [| err q' | ts q'] eqn:Hloop;
    simpl; try discriminate.
  intros H. injection H as <- _. simpl.
  eapply parseFromClause_loop_grows; [exact Hloop | discriminate].
Qed.

(** A join clause that is returned was written with a bare JOIN, or,
    when [parseJoinClause] is entered on another token, has no type. *)
Lemma parseJoinClause_returned (ext : External) (fuel : nat) (p : Parser)
      (joinClause : JoinClause) (p' : Parser) :
  parseJoinClause ext fuel p = Returned joinClause p' ->
  JoinType joinClause = (if curTokenIs p JOIN then "INNER" else "")
  /\ Condition joinClause <> None.
Proof.
  intros Hrun.
  destruct (typedJoin (Type_ (curToken p))) eqn:Htyped.
  { destruct (typed_join_never_parses ext fuel p Htyped) as (err & q & H).
    congruence. }
  unfold parseJoinClause in Hrun. cbv zeta in Hrun.
  change (curTokenIs (pool (Get KJoinClause) p))
    with (curTokenIs p) in Hrun.
  unfold curTokenIs in *.
  destruct (Type_ (curToken p)) eqn:Hty; try discriminate;
    repeat (rewrite TokenType_eqb_diff in Hrun by discriminate);
    repeat (rewrite TokenType_eqb_diff by discriminate);
    rewrite ?TokenType_eqb_refl in *;
    cbv iota in Hrun; cbn [bind] in Hrun;
    match type of Hrun with
    | match parseTableReference ?q with _ => _ end = _ =>
        destruct (parseTableReference q) as [| err q1 | table q1];
        try discriminate
    end;
    destruct (negb (TokenType_eqb (Type_ (curToken q1)) ON));
    try discriminate;
    cbv zeta in Hrun;
    match type of Hrun with
    | match parseExpression ?e ?f ?q with _ => _ end = _ =>
        destruct (parseExpression e f q) as [| err q2 | condition q2];
        try discriminate
    end;
    injection Hrun as <- _; (split; [reflexivity | discriminate]).
Qed.

Lemma parseSelectStatement_joins_inner (ext : External) (fuel : nat) :
  forall (n : nat) (joins : list JoinClause) (p : Parser)
         (joins' : list JoinClause) (p' : Parser),
    parseSelectStatement_joins ext fuel n joins p = Returned joins' p' ->
    Forall (fun j => JoinType j = "INNER" /\ Condition j <> None) joins ->
    Forall (fun j => JoinType j = "INNER" /\ Condition j <> None) joins'.
Proof.
  induction n as [| n IH]; intros joins p joins' p' Hrun Hall;
    simpl in Hrun; destruct (isJoinStart p) eqn:Hstart;
    try discriminate; try (injection Hrun as <- _; exact Hall).
  destruct (parseJoinClause ext fuel p) as [| err q | j q] eqn:Hjoin;
    simpl in Hrun; try discriminate.
  eapply IH; [exact Hrun |].
  apply Forall_app. split; [exact Hall |].
  constructor; [| constructor].
  destruct (parseJoinClause_returned ext fuel p j q Hjoin) as [Htype Hcond].
  split; [| exact Hcond].
  destruct (curTokenIs p JOIN) eqn:Hbare; [exact Htype |].
  assert (Htyped : typedJoin (Type_ (curToken p)) = true).
  { unfold isJoinStart, curTokenIs in *.
    destruct (Type_ (curToken p)); try discriminate; reflexivity. }
  destruct (typed_join_never_parses ext fuel p Htyped) as (err & q' & H).
  congruence.
Qed.

(** The runs of the select list, of the FROM clause and of the joins
    behind a statement that [parseSelectStatement] returns. *)
Lemma parseSelectStatement_returned (ext : External) (fuel : nat)
      (p : Parser) (stmt : SelectStatement) (p' : Parser) :
  parseSelectStatement ext fuel p = Returned stmt p' ->
  (exists q1 q2, parseSelectList ext fuel q1 = Returned (Columns stmt) q2)
  /\ (forall fromClause, From stmt = Some fromClause ->
        exists q2 q3, parseFromClause fuel q2 = Returned fromClause q3)
  /\ (exists q3 q4,
        parseSelectStatement_joins ext fuel fuel [] q3
        = Returned (Joins stmt) q4).
Proof.
  unfold parseSelectStatement. cbv zeta.
  destruct (negb _); [discriminate |].
  match goal with
  | |- context [let (distinct, _) := ?c in _] => destruct c as [distinct q0]
  end.
  match goal with
  | |- bind ?m _ = _ -> _ => destruct m as [| err q | top q];
                               cbn [bind]; try discriminate
  end.
  destruct (parseSelectList ext fuel q) as [| err q1 | columns q1] eqn:Hlist;
    cbn [bind]; try discriminate.
  match goal with
  | |- bind ?m _ = _ -> _ =>
      destruct m as [| err q2 | from_ q2] eqn:Hfrom;
      cbn [bind]; try discriminate
  end.
  destruct (parseSelectStatement_joins ext fuel fuel [] q2)
    as [| err q3 | joins q3] eqn:Hjoins; cbn [bind]; try discriminate.
  repeat match goal with
         | |- bind ?m _ = _ -> _ =>
             destruct m as [| ? ? | ? ?]; cbn [bind]; try discriminate
         end.
  intros H. injection H as <- _. cbn [Columns From Joins].
  split; [eauto |]. split; [| eauto].
  intros fromClause ->.
  destruct (curTokenIs q1 FROM); [| discriminate].
  destruct (parseFromClause fuel q1) as [| err q' | fc q'] eqn:Hrun;
    cbn [bind] in Hfrom; try discriminate.
  injection Hfrom as <- _. eauto.
Qed.

(** X11: a statement that [ParseStatement] returns has at least one
    column, and when it has a FROM clause that clause has at least one
    table. *)
Theorem returned_statement_has_columns (ext : External) (fuel : nat)
        (p p' : Parser) (stmt : SelectStatement) :
  ParseStatement ext fuel p = Returned (StmtSelect stmt) p' ->
  Columns stmt <> []
  /\ forall fromClause, From stmt = Some fromClause ->
                        Tables fromClause <> [].
Proof.
  unfold ParseStatement, parseInsertStatement, parseUpdateStatement,
    parseDeleteStatement.
  destruct (Type_ (curToken p)); try discriminate.
  destruct (parseSelectStatement ext fuel p) as [| err q | s q] eqn:Hrun;
    cbn [bind]; try discriminate.
  intros H. injection H as -> _.
  destruct (parseSelectStatement_returned ext fuel p stmt q Hrun)
    as ((q1 & q2 & Hlist) & Hfrom & _).
  split.
  - exact (parseSelectList_nonempty ext fuel q1 _ q2 Hlist).
  - intros fromClause Hsome.
    destruct (Hfrom fromClause Hsome) as (q3 & q4 & Hclause).
    exact (parseFromClause_nonempty fuel q3 fromClause q4 Hclause).
Qed.

Lemma returned_statement_has_columns_witness :
  exists stmt p',
    ParseStatement Scenario.scenarioExt 2 (New Scenario.bareJoin)
    = Returned (StmtSelect stmt) p'
    /\ Columns stmt <> []
    /\ forall fromClause, From stmt = Some fromClause ->
                          Tables fromClause <> [].
Proof.
  eexists. eexists. split; [vm_compute; reflexivity |].
  eapply (returned_statement_has_columns Scenario.scenarioExt 2
            (New Scenario.bareJoin)).
  vm_compute. reflexivity.
Defined.

(** X12: every join of a statement that [ParseStatement] returns is an
    INNER join with a condition: the joins written with INNER, LEFT,
    RIGHT or FULL are refused, and a bare JOIN is recorded as INNER and
    needs its ON. *)
Theorem returned_joins_are_inner (ext : External) (fuel : nat)
        (p p' : Parser) (stmt : SelectStatement) :
  ParseStatement ext fuel p = Returned (StmtSelect stmt) p' ->
  Forall (fun j => JoinType j = "INNER" /\ Condition j <> None)
         (Joins stmt).
Proof.
  unfold ParseStatement, parseInsertStatement, parseUpdateStatement,
    parseDeleteStatement.
  destruct (Type_ (curToken p)); try discriminate.
  destruct (parseSelectStatement ext fuel p) as [| err q | s q] eqn:Hrun;
    cbn [bind]; try discriminate.
  intros H. injection H as -> _.
  destruct (parseSelectStatement_returned ext fuel p stmt q Hrun)
    as (_ & _ & (q3 & q4 & Hjoins)).
  eapply parseSelectStatement_joins_inner; [exact Hjoins | constructor].
Qed.

Lemma returned_joins_are_inner_witness :
  exists stmt p',
    ParseStatement Scenario.scenarioExt 2 (New Scenario.bareJoin)
    = Returned (StmtSelect stmt) p'
    /\ List.length (Joins stmt) = 1
    /\ Forall (fun j => JoinType j = "INNER" /\ Condition j <> None)
              (Joins stmt).
Proof.
  eexists. eexists. split; [vm_compute; reflexivity |].
  split; [reflexivity |].
  eapply (returned_joins_are_inner Scenario.scenarioExt 2
            (New Scenario.bareJoin)).
  vm_compute. reflexivity.
Defined.

(* ================================================================== *)
(** ** Where a statement ends                                           *)
(* ================================================================== *)

Lemma clauseStart_false (t : Token) (ty : TokenType) :
  clauseStart (Type_ t) = false ->
  clauseStart ty = true ->
  hasType t ty = false.
Proof.
  intros Hno Hyes. unfold hasType. apply TokenType_eqb_diff.
  intros Heq. rewrite Heq in Hno. congruence.
Qed.

Lemma curTokenIs_pool (ev : PoolEvent) (p : Parser) (t : TokenType) :
  curTokenIs (pool ev p) t = curTokenIs p t.
Proof. reflexivity. Qed.

(** With no join ahead, the loop of the joins leaves the parser as it
    is, whatever the fuel. *)
Lemma parseSelectStatement_joins_none (ext : External) (fuel n : nat)
      (p : Parser) :
  isJoinStart p = false ->
  parseSelectStatement_joins ext fuel n [] p = Returned [] p.
Proof. intros H. destruct n; simpl; rewrite H; reflexivity. Qed.

(** X13: [ParseStatement] does not look for the end of the statement.
    In front of [SELECT *] followed by any token that starts no clause (a
    comma, an identifier, a closing parenthesis, ...), it returns the
    statement [SELECT *] without a FROM clause, stops at that token and
    records no error: what follows is neither read nor reported. *)
Theorem select_star_leaves_the_rest (ext : External) (fuel : nat)
        (p : Parser) (select star next : Token) (more : list Token) :
  ctx p = Background ->
  sees p (select :: star :: next :: more) ->
  hasType select SELECT = true ->
  hasType star ASTERISK = true ->
  clauseStart (Type_ next) = false ->
  exists p',
    ParseStatement ext fuel p
    = Returned (StmtSelect
                  (mkSelectStatement false None [StarExpression ""] None []
                                     None [] None [])) p'
    /\ Errors p' = Errors p
    /\ sees p' (next :: more).
Proof.
  intros Hctx Hsees Hselect Hstar Hnext.
  step_over Hsees. step_over Hsees0. step_over Hsees1.
  assert (Hno : forall ty, clauseStart ty = true ->
                           curTokenIs (nextToken (nextToken p)) ty = false).
  { intros ty Hty. rewrite (curTokenIs_hasType _ next ty Hcur1).
    now apply clauseStart_false. }
  assert (Hsel : Type_ (curToken p) = SELECT).
  { rewrite Hcur. now apply TokenType_eqb_true. }
  assert (Hjoins : parseSelectStatement_joins ext fuel fuel []
                     (pool (Get KSelectStatement)
                           (nextToken (nextToken p)))
                   = Returned [] (pool (Get KSelectStatement)
                                       (nextToken (nextToken p)))).
  { apply parseSelectStatement_joins_none. unfold isJoinStart.
    rewrite !curTokenIs_pool, !Hno by reflexivity. reflexivity. }
  unfold ParseStatement. rewrite Hsel.
  unfold parseSelectStatement, parseSelectList. cbv zeta.
  rewrite ?nextToken_pool, ?curTokenIs_pool.
  rewrite (curTokenIs_hasType p select SELECT Hcur), Hselect.
  rewrite (curTokenIs_hasType _ star DISTINCT Hcur0).
  rewrite (hasType_other star ASTERISK DISTINCT Hstar) by discriminate.
  cbn [negb]. cbv iota beta.
  rewrite ?nextToken_pool, ?curTokenIs_pool.
  rewrite (curTokenIs_hasType _ star TOP Hcur0).
  rewrite (hasType_other star ASTERISK TOP Hstar) by discriminate.
  cbn [bind]. rewrite ?curTokenIs_pool.
  rewrite (curTokenIs_hasType _ star ASTERISK Hcur0), Hstar.
  cbn [bind]. rewrite ?nextToken_pool, ?curTokenIs_pool.
  rewrite (Hno FROM) by reflexivity. cbn [bind].
  rewrite Hjoins. cbn [bind]. rewrite ?curTokenIs_pool.
  rewrite (Hno WHERE) by reflexivity. cbn [bind].
  rewrite ?curTokenIs_pool.
  rewrite (Hno GROUP) by reflexivity. cbn [bind].
  rewrite ?curTokenIs_pool.
  rewrite (Hno HAVING) by reflexivity. cbn [bind].
  rewrite ?curTokenIs_pool.
  rewrite (Hno ORDER) by reflexivity. cbn [bind].
  eexists. split; [reflexivity |].
  split; [unfold Errors; simpl; congruence |].
  apply sees_pool. exact Hsees1.
Qed.

Lemma select_star_leaves_the_rest_witness :
  exists p',
    ParseStatement Scenario.scenarioExt 0 (New Scenario.starThenColumn)
    = Returned (StmtSelect
                  (mkSelectStatement false None [StarExpression ""] None []
                                     None [] None [])) p'
    /\ Errors p' = []
    /\ sees p' [Scenario.tok COMMA "," 9; Scenario.tok IDENT "a" 11;
                Scenario.tok FROM "FROM" 13; Scenario.tok IDENT "t" 18].
Proof.
  apply (select_star_leaves_the_rest Scenario.scenarioExt 0
           (New Scenario.starThenColumn)
           (Scenario.tok SELECT "SELECT" 1) (Scenario.tok ASTERISK "*" 8)
           (Scenario.tok COMMA "," 9)
           [Scenario.tok IDENT "a" 11; Scenario.tok FROM "FROM" 13;
            Scenario.tok IDENT "t" 18]).
  - reflexivity.
  - apply sees_New.
  - reflexivity.
  - reflexivity.
  - reflexivity.
Defined.

(* ================================================================== *)
(** ** What a whole parse leaves related                                *)
(* ================================================================== *)

Section StatementFrame.

Variable R : Parser -> Parser -> Prop.
Variable tolerated : PoolEvent -> Prop.
Hypothesis R_refl : forall p, R p p.
Hypothesis R_trans : forall p q r, R p q -> R q r -> R p r.
Hypothesis R_nextToken : forall p, R p (nextToken p).
Hypothesis R_addError : forall p msg, R p (addError p msg).
Hypothesis R_pool : forall ev p, tolerated ev -> R p (pool ev p).
Hypothesis tolerated_get : forall k, tolerated (Get k).
Hypothesis tolerated_join_put : tolerated (Put KJoinClause).

Lemma ParseStatement_framed (ext : External) (fuel : nat) (p : Parser) :
  framed R p (ParseStatement ext fuel p).
Proof.
  unfold ParseStatement, parseInsertStatement, parseUpdateStatement,
    parseDeleteStatement.
  destruct (Type_ (curToken p)) eqn:Hcur; simpl; try apply R_refl.
  pose proof (@parseSelectStatement_body_framed
                R tolerated R_refl R_trans R_nextToken R_addError R_pool
                ext fuel (tolerated_get _) (tolerated_get _)
                (tolerated_get _) tolerated_join_put p
                ltac:(unfold curTokenIs; rewrite Hcur; reflexivity)) as H.
  destruct (parseSelectStatement ext fuel p) as [| err q | stmt q];
    simpl in *; [exact I | |];
    (eapply R_trans;
     [apply (R_pool (Get KSelectStatement) p (tolerated_get _)) |]);
    exact H.
Qed.

End StatementFrame.

(** X14: a parse only adds to the error list.  Whatever the context and
    the tokens, the list that [Errors] returns after [ParseStatement]
    starts with the list it returned before: no entry is removed,
    changed or reordered. *)
Theorem errors_only_grow (ext : External) (fuel : nat) (p : Parser) :
  framed errorsGrow p (ParseStatement ext fuel p).
Proof.
  apply (ParseStatement_framed errorsGrow (fun _ => True)).
  - intros q. exists []. now rewrite app_nil_r.
  - intros q1 q2 q3 [a Ha] [b Hb]. exists (a ++ b).
    now rewrite Hb, Ha, app_assoc.
  - intros q. unfold nextToken.
    destruct (isDone (ctx q)).
    + exists [cancelled]. reflexivity.
    + destruct (NextToken (l q)). exists []. simpl. now rewrite app_nil_r.
  - intros q msg. exists [msg]. reflexivity.
  - intros ev q _. exists []. simpl. now rewrite app_nil_r.
  - exact (fun _ => I).
  - exact I.
Qed.

(** X15: of the nodes it obtains from the pools, [ParseStatement] gives
    back join clauses only.  Whatever the context and the tokens, the
    calls it makes to the pools are [Get]s and [PutJoinClause]s: no
    select statement, column reference or binary expression is given
    back, on success or on failure. *)
Theorem only_join_clauses_are_given_back (ext : External) (fuel : nat)
        (p : Parser) :
  framed onlyJoinsGivenBack p (ParseStatement ext fuel p).
Proof.
  apply (ParseStatement_framed onlyJoinsGivenBack
           (fun ev => forall k, ev = Put k -> k = KJoinClause)).
  - intros q. exists []. split; [now rewrite app_nil_r | constructor].
  - intros q1 q2 q3 (a & Ha & Hall) (b & Hb & Hall'). exists (a ++ b).
    split; [now rewrite Hb, Ha, app_assoc |].
    apply Forall_app. now split.
  - intros q. exists []. rewrite pools_nextToken.
    split; [now rewrite app_nil_r | constructor].
  - intros q msg. exists []. split; [simpl; now rewrite app_nil_r |].
    constructor.
  - intros ev q Hev. exists [ev]. split; [reflexivity |].
    constructor; [exact Hev | constructor].
  - intros k k' H. discriminate.
  - intros k H. now injection H as <-.
Qed.



(* ================================================================== *)
(** ** How many diagnostics a parse records                             *)
(* ================================================================== *)

(** Under [context.Background()] the error list is written by a failed
    [expectPeek] only, and every method that sees [expectPeek] fail
    returns its error at once. *)

Lemma quiet_nextToken (e : list string) (p : Parser) :
  quiet e p -> quiet e (nextToken p).
Proof.
  intros [Hctx Herr]. destruct (nextToken_quiet p Hctx) as (H1 & H2 & _).
  split; congruence.
Qed.

Lemma quiet_pool (e : list string) (ev : PoolEvent) (p : Parser) :
  quiet e p -> quiet e (pool ev p).
Proof. intros H. exact H. Qed.

Lemma quiet_errors (e : list string) (p : Parser) :
  quiet e p -> errors p = e.
Proof. intros [_ H]. exact H. Qed.

Lemma atMostOneError_bind (A B : Type) (e : list string) (m : Outcome A)
      (k : A -> Parser -> Outcome B) :
  atMostOneError e m ->
  (forall a q, quiet e q -> atMostOneError e (k a q)) ->
  atMostOneError e (bind m k).
Proof.
  destruct m as [| err q | a q]; simpl; auto.
Qed.

Create HintDb quietly.

#[local] Hint Resolve quiet_nextToken quiet_pool : quietly.

Ltac quiet_state := solve [auto 20 with quietly].

Ltac quiet_leaf :=
  lazymatch goal with
  | |- atMostOneError _ Diverged => exact I
  | |- atMostOneError _ (Returned _ _) =>
      change (atMostOneError ?e (Returned _ ?q)) with (quiet e q);
      quiet_state
  | |- atMostOneError _ (Failed _ _) =>
      cbn [atMostOneError errors pool peekError addError];
      first [ left; apply quiet_errors; quiet_state
            | right; eexists; apply (f_equal (fun es => es ++ _));
              apply quiet_errors; quiet_state ]
  end.

Section ExpressionsQuiet.

Variable ext : External.
Variable rec : Parser -> Outcome Expression.
Variable fuel : nat.
Hypothesis rec_quiet :
  forall e p, quiet e p -> atMostOneError e (rec p).

Lemma parseFunctionCall_loop_quiet (e : list string) (n : nat) :
  forall (arguments : list Expression) (p : Parser),
    quiet e p ->
    atMostOneError e (parseFunctionCall_loop rec n arguments p).
Proof.
  induction n as [| n IH]; intros arguments p Hp; simpl;
    destruct (curTokenIs p COMMA); try quiet_leaf.
  apply atMostOneError_bind; [apply rec_quiet; quiet_state |].
  intros a q Hq. apply IH. exact Hq.
Qed.

Lemma parsePrimaryExpression_quiet (e : list string) (p : Parser) :
  quiet e p ->
  atMostOneError e (parsePrimaryExpression ext rec fuel p).
Proof.
  intros Hp.
  unfold parsePrimaryExpression, parseIdentifierExpression,
    parseFunctionCall, parseNumberLiteral, parseStringLiteral,
    parseGroupedExpression.
  cbv zeta.
  destruct (Type_ (curToken p)); try quiet_leaf.
  - (* IDENT *)
    destruct (curTokenIs (nextToken p) DOT).
    + destruct (_ && _); [quiet_leaf |].
      destruct (curTokenIs _ ASTERISK); quiet_leaf.
    + destruct (curTokenIs (nextToken p) LPAREN); [| quiet_leaf].
      destruct (negb _); [quiet_leaf |].
      apply atMostOneError_bind.
      * destruct (negb _); [| quiet_leaf].
        apply atMostOneError_bind; [apply rec_quiet; quiet_state |].
        intros a q Hq. apply parseFunctionCall_loop_quiet. exact Hq.
      * intros a q Hq. destruct (negb _); quiet_leaf.
  - (* NUMBER *)
    destruct (containsDot _).
    + destruct (ParseFloat _ _); quiet_leaf.
    + destruct (ParseInt _ _); quiet_leaf.
  - (* LPAREN *)
    apply atMostOneError_bind; [apply rec_quiet; quiet_state |].
    intros a q Hq. unfold expectPeek.
    destruct (peekTokenIs q RPAREN); cbn [negb]; quiet_leaf.
Qed.

Lemma parseInfixExpression_loop_quiet (e : list string) (n : nat) :
  forall (left : Expression) (p : Parser),
    quiet e p ->
    atMostOneError e (parseInfixExpression_loop ext rec fuel n left p).
Proof.
  induction n as [| n IH]; intros left p Hp; simpl;
    destruct (isInfixOperator _); try quiet_leaf.
  apply atMostOneError_bind;
    [apply parsePrimaryExpression_quiet; quiet_state |].
  intros a q Hq. apply IH. quiet_state.
Qed.

Lemma parseInfixExpression_quiet (e : list string) (p : Parser) :
  quiet e p ->
  atMostOneError e (parseInfixExpression ext rec fuel p).
Proof.
  intros Hp. unfold parseInfixExpression.
  apply atMostOneError_bind; [now apply parsePrimaryExpression_quiet |].
  intros a q Hq. now apply parseInfixExpression_loop_quiet.
Qed.

End ExpressionsQuiet.

Lemma parseExpression_quiet (ext : External) (fuel : nat) :
  forall (e : list string) (p : Parser),
    quiet e p -> atMostOneError e (parseExpression ext fuel p).
Proof.
  induction fuel as [| fuel IH]; intros e p Hp; simpl; [exact I |].
  apply parseInfixExpression_quiet; assumption.
Qed.

Section StatementsQuiet.

Variable ext : External.
Variable fuel : nat.

Lemma parseTopClause_quiet (e : list string) (p : Parser) :
  quiet e p -> atMostOneError e (parseTopClause ext p).
Proof.
  intros Hp. unfold parseTopClause. cbv zeta.
  destruct (negb _); [quiet_leaf |].
  destruct (negb _); [quiet_leaf |].
  destruct (Atoi _ _); [| quiet_leaf].
  destruct (_ && _); quiet_leaf.
Qed.

Lemma parseSelectList_loop_quiet (e : list string) (n : nat) :
  forall (columns : list Expression) (p : Parser),
    quiet e p ->
    atMostOneError e (parseSelectList_loop ext fuel n columns p).
Proof.
  induction n as [| n IH]; intros columns p Hp; simpl;
    destruct (curTokenIs p COMMA); try quiet_leaf.
  destruct (curTokenIs _ ASTERISK).
  - apply IH. quiet_state.
  - apply atMostOneError_bind;
      [apply parseExpression_quiet; quiet_state |].
    intros a q Hq. now apply IH.
Qed.

Lemma parseSelectList_quiet (e : list string) (p : Parser) :
  quiet e p -> atMostOneError e (parseSelectList ext fuel p).
Proof.
  intros Hp. unfold parseSelectList.
  destruct (curTokenIs p ASTERISK); [quiet_leaf |].
  apply atMostOneError_bind; [now apply parseExpression_quiet |].
  intros a q Hq. now apply parseSelectList_loop_quiet.
Qed.

Lemma parseTableReference_quiet (e : list string) (p : Parser) :
  quiet e p -> atMostOneError e (parseTableReference p).
Proof.
  intros Hp. unfold parseTableReference. cbv zeta.
  destruct (negb _); [quiet_leaf |].
  apply atMostOneError_bind.
  - destruct (curTokenIs _ DOT); [| quiet_leaf].
    destruct (negb _); quiet_leaf.
  - intros a q Hq. destruct (curTokenIs q AS).
    + destruct (negb _); quiet_leaf.
    + destruct (curTokenIs q IDENT); quiet_leaf.
Qed.

Lemma parseFromClause_loop_quiet (e : list string) (n : nat) :
  forall (tables : list TableReference) (p : Parser),
    quiet e p ->
    atMostOneError e (parseFromClause_loop n tables p).
Proof.
  induction n as [| n IH]; intros tables p Hp; simpl;
    destruct (curTokenIs p COMMA); try quiet_leaf.
  apply atMostOneError_bind;
    [apply parseTableReference_quiet; quiet_state |].
  intros a q Hq. now apply IH.
Qed.

Lemma parseFromClause_quiet (e : list string) (p : Parser) :
  quiet e p -> atMostOneError e (parseFromClause fuel p).
Proof.
  intros Hp. unfold parseFromClause. cbv zeta.
  destruct (negb _); [quiet_leaf |].
  apply atMostOneError_bind;
    [apply parseTableReference_quiet; quiet_state |].
  intros a q Hq.
  apply atMostOneError_bind; [now apply parseFromClause_loop_quiet |].
  intros tables q' Hq'. quiet_leaf.
Qed.

Lemma parseJoinClause_quiet (e : list string) (p : Parser) :
  quiet e p -> atMostOneError e (parseJoinClause ext fuel p).
Proof.
  intros Hp. unfold parseJoinClause. cbv zeta.
  apply atMostOneError_bind.
  - unfold parseJoinClause_typed, expectPeek. cbv zeta.
    repeat match goal with
           | |- atMostOneError _ (if curTokenIs _ _ then _ else _) =>
               destruct (curTokenIs _ _)
           end;
      try (destruct (peekTokenIs _ JOIN); cbn [negb]); quiet_leaf.
  - intros joinType q Hq.
    pose proof (parseTableReference_quiet e q Hq) as Htable.
    destruct (parseTableReference q) as [| err q1 | table q1];
      [exact I | exact Htable |].
    simpl in Htable.
    destruct (negb _); [quiet_leaf |]. cbv zeta.
    pose proof (parseExpression_quiet ext fuel e (nextToken q1)
                  (quiet_nextToken e q1 Htable)) as Hcond.
    destruct (parseExpression ext fuel (nextToken q1))
      as [| err q2 | condition q2];
      [exact I | exact Hcond | exact Hcond].
Qed.

Lemma parseSelectStatement_joins_quiet (e : list string) (n : nat) :
  forall (joins : list JoinClause) (p : Parser),
    quiet e p ->
    atMostOneError e (parseSelectStatement_joins ext fuel n joins p).
Proof.
  induction n as [| n IH]; intros joins p Hp; simpl;
    destruct (isJoinStart p); try quiet_leaf.
  apply atMostOneError_bind; [now apply parseJoinClause_quiet |].
  intros a q Hq. now apply IH.
Qed.

Lemma parseGroupByClause_loop_quiet (e : list string) (n : nat) :
  forall (expressions : list Expression) (p : Parser),
    quiet e p ->
    atMostOneError e (parseGroupByClause_loop ext fuel n expressions p).
Proof.
  induction n as [| n IH]; intros expressions p Hp; simpl;
    destruct (curTokenIs p COMMA); try quiet_leaf.
  apply atMostOneError_bind;
    [apply parseExpression_quiet; quiet_state |].
  intros a q Hq. now apply IH.
Qed.

Lemma parseGroupByClause_quiet (e : list string) (p : Parser) :
  quiet e p -> atMostOneError e (parseGroupByClause ext fuel p).
Proof.
  intros Hp. unfold parseGroupByClause, expectPeek. cbv zeta.
  destruct (negb _); [quiet_leaf |].
  destruct (peekTokenIs _ BY); cbn [negb]; [| quiet_leaf].
  apply atMostOneError_bind;
    [apply parseExpression_quiet; quiet_state |].
  intros a q Hq. now apply parseGroupByClause_loop_quiet.
Qed.

Lemma parseOrderByItem_quiet (e : list string) (p : Parser) :
  quiet e p -> atMostOneError e (parseOrderByItem ext fuel p).
Proof.
  intros Hp. unfold parseOrderByItem.
  apply atMostOneError_bind; [now apply parseExpression_quiet |].
  intros a q Hq. cbv zeta.
  destruct (curTokenIs q IDENT); [| quiet_leaf].
  destruct (_ || _); quiet_leaf.
Qed.

Lemma parseOrderByClause_loop_quiet (e : list string) (n : nat) :
  forall (clauses : list OrderByClause) (p : Parser),
    quiet e p ->
    atMostOneError e (parseOrderByClause_loop ext fuel n clauses p).
Proof.
  induction n as [| n IH]; intros clauses p Hp; simpl;
    destruct (curTokenIs p COMMA); try quiet_leaf.
  apply atMostOneError_bind;
    [apply parseOrderByItem_quiet; quiet_state |].
  intros a q Hq. now apply IH.
Qed.

Lemma parseOrderByClause_quiet (e : list string) (p : Parser) :
  quiet e p -> atMostOneError e (parseOrderByClause ext fuel p).
Proof.
  intros Hp. unfold parseOrderByClause, expectPeek. cbv zeta.
  destruct (negb _); [quiet_leaf |].
  destruct (peekTokenIs _ BY); cbn [negb]; [| quiet_leaf].
  apply atMostOneError_bind;
    [apply parseOrderByItem_quiet; quiet_state |].
  intros a q Hq. now apply parseOrderByClause_loop_quiet.
Qed.

Lemma parseSelectStatement_quiet (e : list string) (p : Parser) :
  quiet e p -> atMostOneError e (parseSelectStatement ext fuel p).
Proof.
  intros Hp. unfold parseSelectStatement. cbv zeta.
  destruct (negb _); [quiet_leaf |].
  match goal with
  | |- context [let (distinct, _) := ?c in _] =>
      assert (Hc : quiet e (snd c))
        by (destruct (curTokenIs _ DISTINCT); simpl; quiet_state);
      destruct c as [distinct q0]
  end.
  simpl in Hc.
  apply atMostOneError_bind.
  { destruct (curTokenIs q0 TOP); [| quiet_leaf].
    apply atMostOneError_bind; [now apply parseTopClause_quiet |].
    intros a q Hq. quiet_leaf. }
  intros top q1 Hq1.
  apply atMostOneError_bind; [now apply parseSelectList_quiet |].
  intros columns q2 Hq2.
  apply atMostOneError_bind.
  { destruct (curTokenIs q2 FROM); [| quiet_leaf].
    apply atMostOneError_bind; [now apply parseFromClause_quiet |].
    intros a q Hq. quiet_leaf. }
  intros from_ q3 Hq3.
  apply atMostOneError_bind; [now apply parseSelectStatement_joins_quiet |].
  intros joins q4 Hq4.
  apply atMostOneError_bind.
  { destruct (curTokenIs q4 WHERE); [| quiet_leaf].
    apply atMostOneError_bind;
      [apply parseExpression_quiet; quiet_state |].
    intros a q Hq. quiet_leaf. }
  intros where_ q5 Hq5.
  apply atMostOneError_bind.
  { destruct (curTokenIs q5 GROUP); [| quiet_leaf].
    now apply parseGroupByClause_quiet. }
  intros groupBy q6 Hq6.
  apply atMostOneError_bind.
  { destruct (curTokenIs q6 HAVING); [| quiet_leaf].
    apply atMostOneError_bind;
      [apply parseExpression_quiet; quiet_state |].
    intros a q Hq. quiet_leaf. }
  intros having q7 Hq7.
  apply atMostOneError_bind.
  { destruct (curTokenIs q7 ORDER); [| quiet_leaf].
    now apply parseOrderByClause_quiet. }
  intros orderBy q8 Hq8. quiet_leaf.
Qed.

End StatementsQuiet.

(** X17: under [context.Background()] a parse records at most one
    diagnostic.  When [ParseStatement] returns a statement the list of
    [Errors] is as it was before, and when it fails the list is as it was
    or has one entry more (the syntax error of a failed [expectPeek]). *)
Theorem at_most_one_diagnostic (ext : External) (fuel : nat) (p : Parser) :
  ctx p = Background ->
  atMostOneError (Errors p) (ParseStatement ext fuel p).
Proof.
  intros Hctx.
  assert (Hp : quiet (Errors p) p) by (split; [exact Hctx | reflexivity]).
  unfold ParseStatement, parseInsertStatement, parseUpdateStatement,
    parseDeleteStatement.
  destruct (Type_ (curToken p)); try quiet_leaf.
  apply atMostOneError_bind; [now apply parseSelectStatement_quiet |].
  intros stmt q Hq. quiet_leaf.
Qed.

Lemma at_most_one_diagnostic_witness :
  atMostOneError [] (ParseStatement Scenario.scenarioExt 3
                                    (New Scenario.orderByDesc)).
Proof.
  apply (at_most_one_diagnostic Scenario.scenarioExt 3
           (New Scenario.orderByDesc)).
  reflexivity.
Defined.

(* ================================================================== *)
(** ** Select lists and whole statements                                *)
(* ================================================================== *)

Lemma endsList_facts (next : Token) :
  endsList next = true ->
  isInfixOperator (Type_ next) = false
  /\ hasType next DOT = false
  /\ hasType next LPAREN = false
  /\ hasType next COMMA = false.
Proof.
  unfold endsList. intros H.
  repeat (apply andb_true_iff in H; destruct H as [H ?]).
  repeat match goal with
         | H : negb _ = true |- _ => apply negb_true_iff in H
         end.
  auto.
Qed.

Lemma endsList_of_type (t : Token) (ty : TokenType) :
  hasType t ty = true ->
  isInfixOperator ty = false ->
  ty <> DOT -> ty <> LPAREN -> ty <> COMMA ->
  endsList t = true.
Proof.
  unfold endsList, hasType. intros H Hinfix Hdot Hparen Hcomma.
  apply TokenType_eqb_true in H. rewrite H, Hinfix.
  rewrite !TokenType_eqb_diff by assumption. reflexivity.
Qed.

Lemma parseSelectList_loop_reads (ext : External) (fuel : nat)
      (next : Token) (more : list Token) (rest : list (Token * Token)) :
  endsList next = true ->
  forallb commaThenColumn rest = true ->
  forall (n : nat) (columns : list Expression) (p : Parser),
    ctx p = Background ->
    sees p (chainTokens rest ++ next :: more) ->
    List.length rest <= n ->
    exists p',
      parseSelectList_loop ext (S fuel) n columns p
      = Returned (columns ++ map (fun step => columnOf (snd step)) rest) p'
      /\ ctx p' = Background
      /\ errors p' = errors p
      /\ sees p' (next :: more).
Proof.
  intros Hnext.
  destruct (endsList_facts next Hnext) as (Hinfix & Hdot & Hparen & Hcomma).
  induction rest as [| [comma x] rest IH];
    intros Hrest n columns p Hctx Hsees Hn.
  - simpl in *. rewrite app_nil_r.
    assert (Hcur : curTokenIs p COMMA = false).
    { now rewrite (curTokenIs_hasType p next COMMA (sees_head Hsees)). }
    exists p. destruct n; simpl; rewrite Hcur; auto.
  - simpl in Hrest. apply andb_true_iff in Hrest.
    destruct Hrest as [Hstep Hrest].
    apply andb_true_iff in Hstep. cbn [fst snd] in Hstep.
    destruct Hstep as [Hcomma' Hcolumn].
    destruct n as [| n]; [simpl in Hn; lia |].
    cbn [chainTokens flat_map fst snd app] in Hsees.
    fold (chainTokens rest) in Hsees.
    step_over Hsees. step_over Hsees0.
    cbn [parseSelectList_loop].
    rewrite (curTokenIs_hasType p comma COMMA Hcur), Hcomma'. cbv zeta.
    rewrite (curTokenIs_hasType _ x ASTERISK Hcur0).
    cbn [map snd].
    destruct (hasType x ASTERISK) eqn:Hstar.
    + destruct (IH Hrest n (columns ++ [StarExpression ""]) _ Hctx1 Hsees1
                   ltac:(simpl in Hn; lia))
        as (p' & Hloop & Hctx' & Herr' & Hsees').
      exists p'. rewrite Hloop, <- app_assoc.
      replace (columnOf x) with (StarExpression "")
        by (unfold columnOf; now rewrite Hstar).
      split; [reflexivity |].
      repeat split; try congruence; assumption.
    + rewrite orb_false_r in Hcolumn.
      assert (Hshape : exists sep ts,
                 chainTokens rest ++ next :: more = sep :: ts
                 /\ isInfixOperator (Type_ sep) = false
                 /\ hasType sep DOT = false
                 /\ hasType sep LPAREN = false).
      { destruct rest as [| [comma'' x''] rest'].
        - exists next, more. auto.
        - simpl in Hrest. apply andb_true_iff in Hrest.
          destruct Hrest as [Hstep' _].
          apply andb_true_iff in Hstep'. cbn [fst snd] in Hstep'.
          eexists. eexists. split; [reflexivity |].
          apply separator_facts. tauto. }
      destruct Hshape as (sep & ts & Hshape & Hi & Hd & Hl).
      rewrite Hshape in Hsees0.
      destruct (identifier_is_expression ext fuel _ x sep ts Hctx0 Hsees0
                  Hcolumn Hi Hd Hl)
        as (q & Hrun & Hctxq & Herrq & Hseesq).
      rewrite Hrun. cbn [bind]. rewrite <- Hshape in Hseesq.
      destruct (IH Hrest n (columns ++ [ColumnReference "" (Literal x)]) q
                   Hctxq Hseesq ltac:(simpl in Hn; lia))
        as (p' & Hloop & Hctx' & Herr' & Hsees').
      exists p'. rewrite Hloop, <- app_assoc.
      replace (columnOf x) with (ColumnReference "" (Literal x))
        by (unfold columnOf; now rewrite Hstar).
      split; [reflexivity |].
      repeat split; try congruence; assumption.
Qed.

Lemma parseSelectList_reads (ext : External) (fuel : nat) (p : Parser)
      (first : Token) (rest : list (Token * Token)) (next : Token)
      (more : list Token) :
  ctx p = Background ->
  sees p (first :: chainTokens rest ++ next :: more) ->
  hasType first IDENT = true ->
  forallb commaThenColumn rest = true ->
  endsList next = true ->
  List.length rest <= S fuel ->
  exists p',
    parseSelectList ext (S fuel) p
    = Returned (selectColumns first rest) p'
    /\ ctx p' = Background
    /\ errors p' = errors p
    /\ sees p' (next :: more).
Proof.
  intros Hctx Hsees Hfirst Hrest Hnext Hfuel.
  destruct (endsList_facts next Hnext) as (Hinfix & Hdot & Hparen & Hcomma).
  assert (Hshape : exists sep ts,
             chainTokens rest ++ next :: more = sep :: ts
             /\ isInfixOperator (Type_ sep) = false
             /\ hasType sep DOT = false
             /\ hasType sep LPAREN = false).
  { destruct rest as [| [comma'' x''] rest'].
    - exists next, more. auto.
    - simpl in Hrest. apply andb_true_iff in Hrest.
      destruct Hrest as [Hstep' _].
      apply andb_true_iff in Hstep'. cbn [fst snd] in Hstep'.
      eexists. eexists. split; [reflexivity |].
      apply separator_facts. tauto. }
  destruct Hshape as (sep & ts & Hshape & Hi & Hd & Hl).
  pose proof Hsees as Hsees_. rewrite Hshape in Hsees_.
  destruct (identifier_is_expression ext fuel p first sep ts Hctx Hsees_
              Hfirst Hi Hd Hl)
    as (q & Hrun & Hctxq & Herrq & Hseesq).
  rewrite <- Hshape in Hseesq.
  destruct (parseSelectList_loop_reads ext fuel next more rest Hnext Hrest
              (S fuel) [ColumnReference "" (Literal first)] q Hctxq Hseesq
              Hfuel)
    as (p' & Hloop & Hctx' & Herr' & Hsees').
  unfold parseSelectList.
  rewrite (curTokenIs_hasType p first ASTERISK (sees_head Hsees)).
  rewrite (hasType_other first IDENT ASTERISK Hfirst) by discriminate.
  rewrite Hrun. cbn [bind]. rewrite Hloop.
  exists p'. repeat split; try congruence; assumption.
Qed.

(** X18: a select list lists its columns in order.  In front of
    [x1, x2, ..., xn] where [x1] is an identifier and the others are
    identifiers or stars, followed by a token that continues neither an
    identifier nor the list, [parseSelectList] returns the [n] columns in
    the order written, stops at that token and records no error. *)
Theorem select_list_lists_columns (ext : External) (fuel : nat)
        (p : Parser) (first : Token) (rest : list (Token * Token))
        (next : Token) (more : list Token) :
  ctx p = Background ->
  sees p (first :: chainTokens rest ++ next :: more) ->
  hasType first IDENT = true ->
  forallb commaThenColumn rest = true ->
  endsList next = true ->
  List.length rest <= S fuel ->
  exists p',
    parseSelectList ext (S fuel) p
    = Returned (selectColumns first rest) p'
    /\ Errors p' = Errors p
    /\ sees p' (next :: more).
Proof.
  intros Hctx Hsees Hfirst Hrest Hnext Hfuel.
  destruct (parseSelectList_reads ext fuel p first rest next more
              Hctx Hsees Hfirst Hrest Hnext Hfuel)
    as (p' & Hrun & _ & Herr & Hsees').
  exists p'. auto.
Qed.

Lemma select_list_lists_columns_witness :
  exists p',
    parseSelectList Scenario.scenarioExt 2
                    (nextToken (New Scenario.selectFrom))
    = Returned [ColumnReference "" "a"; StarExpression "";
                ColumnReference "" "b"] p'
    /\ Errors p' = []
    /\ sees p' [Scenario.tok FROM "FROM" 16].
Proof.
  apply (select_list_lists_columns Scenario.scenarioExt 1
           (nextToken (New Scenario.selectFrom))
           (Scenario.tok IDENT "a" 8)
           [(Scenario.tok COMMA "," 9, Scenario.tok ASTERISK "*" 11);
            (Scenario.tok COMMA "," 12, Scenario.tok IDENT "b" 14)]
           (Scenario.tok FROM "FROM" 16) []).
  - reflexivity.
  - apply (sees_prefix _ _ [Scenario.tok IDENT "t" 21]).
    apply (@sees_nextToken _ (Scenario.tok SELECT "SELECT" 1)).
    + reflexivity.
    + eapply sees_prefix. apply (sees_New Scenario.selectFrom).
  - reflexivity.
  - reflexivity.
  - reflexivity.
  - simpl. lia.
Defined.

(** X19: a SELECT of columns FROM tables is parsed as written.  In
    front of [SELECT x1, ..., xn FROM t1, ..., tm] followed by a token
    that starts no clause and continues no table, [ParseStatement]
    returns the statement with the [n] columns and the [m] tables in the
    order written and with nothing else set, stops at that token and
    records no error. *)
Theorem select_from_is_parsed (ext : External) (fuel : nat) (p : Parser)
        (select first : Token) (columns : list (Token * Token))
        (from : Token) (table : TableSpelling)
        (tables : list (Token * TableSpelling)) (next : Token)
        (more : list Token) :
  ctx p = Background ->
  sees p (select :: first :: chainTokens columns
          ++ from :: spellingTokens table ++ moreTables tables
          ++ next :: more) ->
  hasType select SELECT = true ->
  hasType first IDENT = true ->
  forallb commaThenColumn columns = true ->
  hasType from FROM = true ->
  wellSpelled table = true ->
  forallb (fun item => hasType (fst item) COMMA && wellSpelled (snd item))
          tables = true ->
  closesTables next = true ->
  clauseStart (Type_ next) = false ->
  List.length columns <= S fuel ->
  List.length tables <= S fuel ->
  exists p',
    ParseStatement ext (S fuel) p
    = Returned
        (StmtSelect
           (mkSelectStatement
              false None (selectColumns first columns)
              (Some (mkFromClause
                       (spelled table
                        :: map (fun item => spelled (snd item)) tables)))
              [] None [] None [])) p'
    /\ Errors p' = Errors p
    /\ sees p' (next :: more).
Proof.
  intros Hctx Hsees Hselect Hfirst Hcolumns Hfrom Htable Htables Hcloses
         Hnext Hn Hm.
  step_over Hsees.
  assert (Hsel : Type_ (curToken p) = SELECT).
  { rewrite Hcur. now apply TokenType_eqb_true. }
  pose proof (sees_head Hsees0) as Hcur0.
  assert (Hends : endsList from = true).
  { apply (endsList_of_type from FROM Hfrom); [reflexivity | | |];
      discriminate. }
  destruct (parseSelectList_reads ext fuel
              (pool (Get KSelectStatement) (nextToken p)) first columns
              from (spellingTokens table ++ moreTables tables
                    ++ next :: more)
              Hctx0 (sees_pool _ Hsees0) Hfirst Hcolumns Hends Hn)
    as (q1 & Hlist & Hctx1 & Herr1 & Hsees1).
  destruct (parseFromClause_reads (S fuel) q1 from table tables next more
              Hctx1 Hfrom Htable Htables Hcloses Hsees1 Hm)
    as (q2 & Hclause & Hctx2 & Herr2 & _ & Hsees2).
  pose proof (sees_head Hsees2) as Hcur2.
  assert (Hno : forall ty, clauseStart ty = true ->
                           curTokenIs q2 ty = false).
  { intros ty Hty. rewrite (curTokenIs_hasType _ next ty Hcur2).
    now apply clauseStart_false. }
  assert (Hjoins : parseSelectStatement_joins ext (S fuel) (S fuel) [] q2
                   = Returned [] q2).
  { apply parseSelectStatement_joins_none. unfold isJoinStart.
    rewrite !Hno by reflexivity. reflexivity. }
  unfold ParseStatement. rewrite Hsel.
  unfold parseSelectStatement. cbv zeta.
  rewrite ?nextToken_pool, ?curTokenIs_pool.
  rewrite (curTokenIs_hasType p select SELECT Hcur), Hselect.
  rewrite (curTokenIs_hasType _ first DISTINCT Hcur0).
  rewrite (hasType_other first IDENT DISTINCT Hfirst) by discriminate.
  cbn [negb]. cbv iota beta.
  rewrite ?nextToken_pool, ?curTokenIs_pool.
  rewrite (curTokenIs_hasType _ first TOP Hcur0).
  rewrite (hasType_other first IDENT TOP Hfirst) by discriminate.
  cbn [bind]. rewrite Hlist. cbn [bind].
  rewrite (curTokenIs_hasType _ from FROM (sees_head Hsees1)), Hfrom.
  rewrite Hclause. cbn [bind]. rewrite Hjoins. cbn [bind].
  rewrite (Hno WHERE) by reflexivity. cbn [bind].
  rewrite (Hno GROUP) by reflexivity. cbn [bind].
  rewrite (Hno HAVING) by reflexivity. cbn [bind].
  rewrite (Hno ORDER) by reflexivity. cbn [bind].
  exists q2. split; [reflexivity |].
  split; [| exact Hsees2].
  unfold Errors. rewrite Herr2, Herr1. exact Herr.
Qed.

Lemma select_from_is_parsed_witness :
  exists p',
    ParseStatement Scenario.scenarioExt 2 (New Scenario.selectFrom)
    = Returned
        (StmtSelect
           (mkSelectStatement
              false None
              [ColumnReference "" "a"; StarExpression "";
               ColumnReference "" "b"]
              (Some (mkFromClause [mkTableReference "" "t" "";
                                   mkTableReference "dbo" "u" "v"]))
              [] None [] None [])) p'
    /\ Errors p' = []
    /\ sees p' [Scenario.tok SEMICOLON ";" 34].
Proof.
  apply (select_from_is_parsed Scenario.scenarioExt 1
           (New Scenario.selectFrom)
           (Scenario.tok SELECT "SELECT" 1) (Scenario.tok IDENT "a" 8)
           [(Scenario.tok COMMA "," 9, Scenario.tok ASTERISK "*" 11);
            (Scenario.tok COMMA "," 12, Scenario.tok IDENT "b" 14)]
           (Scenario.tok FROM "FROM" 16)
           (mkTableSpelling None (Scenario.tok IDENT "t" 21) None)
           [(Scenario.tok COMMA "," 22,
             mkTableSpelling
               (Some (Scenario.tok IDENT "dbo" 24,
                      Scenario.tok DOT "." 27))
               (Scenario.tok IDENT "u" 28)
               (Some (Some (Scenario.tok AS "AS" 30),
                      Scenario.tok IDENT "v" 33)))]
           (Scenario.tok SEMICOLON ";" 34) []).
  - reflexivity.
  - apply sees_New.
  - reflexivity.
  - reflexivity.
  - reflexivity.
  - reflexivity.
  - reflexivity.
  - reflexivity.
  - reflexivity.
  - reflexivity.
  - simpl. lia.
  - simpl. lia.
Defined.

(* ================================================================== *)
(** ** Order items                                                      *)
(* ================================================================== *)

Lemma parseOrderByItem_reads (ext : External) (fuel : nat) (p : Parser)
      (x next : Token) (more : list Token) :
  ctx p = Background ->
  sees p (x :: next :: more) ->
  hasType x IDENT = true ->
  isInfixOperator (Type_ next) = false ->
  hasType next DOT = false ->
  hasType next LPAREN = false ->
  exists p',
    parseOrderByItem ext (S fuel) p
    = Returned (mkOrderByClause
                  (ColumnReference "" (Literal x))
                  (if isDirection ext next
                   then ToUpper ext (Literal next) else "ASC")) p'
    /\ ctx p' = Background
    /\ errors p' = errors p
    /\ sees p' (if isDirection ext next then more else next :: more).
Proof.
  intros Hctx Hsees Hident Hinfix Hdot Hparen.
  destruct (identifier_is_expression ext fuel p x next more Hctx Hsees
              Hident Hinfix Hdot Hparen)
    as (q & Hrun & Hctxq & Herrq & Hseesq).
  step_over Hseesq.
  unfold parseOrderByItem. rewrite Hrun. cbn [bind]. cbv zeta.
  rewrite (curTokenIs_hasType q next IDENT Hcur), Hcur.
  unfold isDirection.
  destruct (hasType next IDENT); cbn [andb];
    [destruct (_ || _) |];
    eexists; (split; [reflexivity |]);
    repeat split; try congruence; assumption.
Qed.

(** X20: an order item takes its direction from the identifier after it.
    In front of an identifier [x] followed by a token that is no
    operator, [parseOrderByItem] returns the item for [x]; when that
    token is an identifier that reads ASC or DESC in upper case it is
    consumed and its upper-case text is the direction, and otherwise the
    direction is "ASC" and the token is left in place. *)
Theorem order_item_takes_direction (ext : External) (fuel : nat)
        (p : Parser) (x next : Token) (more : list Token) :
  ctx p = Background ->
  sees p (x :: next :: more) ->
  hasType x IDENT = true ->
  isInfixOperator (Type_ next) = false ->
  hasType next DOT = false ->
  hasType next LPAREN = false ->
  exists p',
    parseOrderByItem ext (S fuel) p
    = Returned (mkOrderByClause
                  (ColumnReference "" (Literal x))
                  (if isDirection ext next
                   then ToUpper ext (Literal next) else "ASC")) p'
    /\ Errors p' = Errors p
    /\ sees p' (if isDirection ext next then more else next :: more).
Proof.
  intros Hctx Hsees Hident Hinfix Hdot Hparen.
  destruct (parseOrderByItem_reads ext fuel p x next more Hctx Hsees
              Hident Hinfix Hdot Hparen)
    as (p' & Hrun & _ & Herr & Hsees').
  exists p'. auto.
Qed.

Lemma order_item_takes_direction_witness :
  exists p',
    parseOrderByItem Scenario.scenarioExt 1 (New Scenario.orderItem)
    = Returned (mkOrderByClause (ColumnReference "" "a") "DESC") p'
    /\ Errors p' = []
    /\ sees p' [Scenario.tok COMMA "," 7; Scenario.tok IDENT "b" 9].
Proof.
  apply (order_item_takes_direction Scenario.scenarioExt 0
           (New Scenario.orderItem)
           (Scenario.tok IDENT "a" 1) (Scenario.tok IDENT "desc" 3)
           [Scenario.tok COMMA "," 7; Scenario.tok IDENT "b" 9]).
  - reflexivity.
  - apply sees_New.
  - reflexivity.
  - reflexivity.
  - reflexivity.
  - reflexivity.
Defined.

(** X21: [parseOrderByClause] skips the token after ORDER unread and
    asks for BY after it.  In front of [ORDER t BY x] for any token [t]
    (a second BY, say), followed by a token that continues neither the
    item nor the list, it returns the one item [x ASC], stops at that
    token and records no error. *)
Theorem order_clause_skips_a_token (ext : External) (fuel : nat)
        (p : Parser) (order skipped by_ x next : Token) (more : list Token) :
  ctx p = Background ->
  sees p (order :: skipped :: by_ :: x :: next :: more) ->
  hasType order ORDER = true ->
  hasType by_ BY = true ->
  hasType x IDENT = true ->
  endsList next = true ->
  hasType next IDENT = false ->
  exists p',
    parseOrderByClause ext (S fuel) p
    = Returned [mkOrderByClause (ColumnReference "" (Literal x)) "ASC"] p'
    /\ Errors p' = Errors p
    /\ sees p' (next :: more).
Proof.
  intros Hctx Hsees Horder Hby Hident Hnext Hnodir.
  destruct (endsList_facts next Hnext) as (Hinfix & Hdot & Hparen & Hcomma).
  step_over Hsees. step_over Hsees0. step_over Hsees1.
  assert (Hpeek : peekTokenIs (nextToken p) BY = true).
  { unfold peekTokenIs.
    rewrite peekToken_nextToken by (rewrite Hctx; reflexivity).
    rewrite (Hsees 2 by_ eq_refl). exact Hby. }
  destruct (parseOrderByItem_reads ext fuel _ x next more Hctx2 Hsees2
              Hident Hinfix Hdot Hparen)
    as (q & Hitem & Hctxq & Herrq & Hseesq).
  assert (Hdir : isDirection ext next = false).
  { unfold isDirection. now rewrite Hnodir. }
  rewrite Hdir in Hitem, Hseesq.
  unfold parseOrderByClause, expectPeek. cbv zeta.
  rewrite (curTokenIs_hasType p order ORDER Hcur), Horder. cbn [negb].
  rewrite Hpeek. cbn [negb]. rewrite Hitem. cbn [bind].
  assert (Hloop : parseOrderByClause_loop ext (S fuel) (S fuel)
                    [mkOrderByClause (ColumnReference "" (Literal x)) "ASC"]
                    q
                  = Returned
                      [mkOrderByClause (ColumnReference "" (Literal x))
                                       "ASC"] q).
  { cbn [parseOrderByClause_loop].
    now rewrite (curTokenIs_hasType q next COMMA (sees_head Hseesq)),
      Hcomma. }
  rewrite Hloop. exists q. split; [reflexivity |].
  split; [| exact Hseesq].
  unfold Errors. congruence.
Qed.

Lemma order_clause_skips_a_token_witness :
  exists p',
    parseOrderByClause Scenario.scenarioExt 1 (New Scenario.orderByBy)
    = Returned [mkOrderByClause (ColumnReference "" "a") "ASC"] p'
    /\ Errors p' = []
    /\ sees p' [Scenario.tok SEMICOLON ";" 14].
Proof.
  apply (order_clause_skips_a_token Scenario.scenarioExt 0
           (New Scenario.orderByBy)
           (Scenario.tok ORDER "ORDER" 1) (Scenario.tok BY "BY" 7)
           (Scenario.tok BY "BY" 10) (Scenario.tok IDENT "a" 13)
           (Scenario.tok SEMICOLON ";" 14) []).
  - reflexivity.
  - apply sees_New.
  - reflexivity.
  - reflexivity.
  - reflexivity.
  - reflexivity.
  - reflexivity.
Defined.

(* ================================================================== *)
(** ** Parenthesised identifiers                                        *)
(* ================================================================== *)

(** X25: a parenthesised identifier needs a second closing parenthesis.
    In front of [(x)] followed by a token [next], [parseExpression]
    reads [x] and then asks for the closing parenthesis one token too
    far: when [next] is not a closing parenthesis it fails with
    "expected ')' to close grouped expression" and records one syntax
    error at [next]; when it is one, the expression is [x] and the parser
    stops at [next], the second parenthesis, without consuming it. *)
Theorem parenthesised_identifier_looks_ahead (ext : External) (fuel : nat)
        (p : Parser) (lparen x rparen next : Token) (more : list Token) :
  ctx p = Background ->
  sees p (lparen :: x :: rparen :: next :: more) ->
  hasType lparen LPAREN = true ->
  hasType x IDENT = true ->
  hasType rparen RPAREN = true ->
  exists p',
    parseExpression ext (2 + fuel) p
    = (if hasType next RPAREN
       then Returned (ColumnReference "" (Literal x)) p'
       else Failed "expected ')' to close grouped expression" p')
    /\ Errors p'
       = (if hasType next RPAREN then Errors p
          else Errors p ++ [SyntaxErrorText ext (TokenTypeString ext RPAREN)
                              (TokenTypeString ext (Type_ next))
                              (Line next) (Column next)])
    /\ sees p' (if hasType next RPAREN then next :: more
                else rparen :: next :: more).
Proof.
  intros Hctx Hsees Hlparen Hx Hrparen.
  step_over Hsees.
  destruct (separator_facts rparen (or_intror Hrparen))
    as (Hinfix & Hdot & Hparen).
  destruct (identifier_is_expression ext fuel _ x rparen (next :: more)
              Hctx0 Hsees0 Hx Hinfix Hdot Hparen)
    as (q & Hinner & Hctxq & Herrq & Hseesq).
  step_over Hseesq.
  assert (Hpeek : peekToken q = next) by exact (Hseesq 1 next eq_refl).
  change (parseExpression ext (2 + fuel) p)
    with (parseInfixExpression ext (parseExpression ext (S fuel))
            (S (S fuel)) p).
  unfold parseInfixExpression, parsePrimaryExpression.
  rewrite Hcur. apply TokenType_eqb_true in Hlparen. rewrite Hlparen.
  rewrite (grouped_expression_looks_ahead ext _ p q _ Hinner).
  unfold peekTokenIs. rewrite Hpeek. fold (hasType next RPAREN).
  destruct (hasType next RPAREN) eqn:Hnext; cbn [bind].
  - cbn [parseInfixExpression_loop].
    rewrite (sees_head Hsees1).
    destruct (separator_facts next (or_intror Hnext)) as (Hni & _ & _).
    rewrite Hni.
    eexists. split; [reflexivity |].
    split; [unfold Errors; congruence | exact Hsees1].
  - eexists. split; [reflexivity |].
    split.
    + unfold Errors, peekError, addError. cbn [errors].
      rewrite Hpeek. congruence.
    + intros k t Hk. exact (Hseesq k t Hk).
Qed.

Lemma parenthesised_identifier_looks_ahead_witness :
  exists p',
    parseExpression Scenario.scenarioExt 2 (New Scenario.groupedThenFrom)
    = Failed "expected ')' to close grouped expression" p'
    /\ Errors p'
       = ["syntax error at line 1, column 5: expected ), got FROM"]
    /\ sees p' [Scenario.tok RPAREN ")" 3; Scenario.tok FROM "FROM" 5].
Proof.
  apply (parenthesised_identifier_looks_ahead Scenario.scenarioExt 0
           (New Scenario.groupedThenFrom)
           (Scenario.tok LPAREN "(" 1) (Scenario.tok IDENT "a" 2)
           (Scenario.tok RPAREN ")" 3) (Scenario.tok FROM "FROM" 5) []).
  - reflexivity.
  - apply sees_New.
  - reflexivity.
  - reflexivity.
  - reflexivity.
Defined.
